(** * chimaera: module discovery, state snapshots and gated bulk actions

    A shallow embedding of [git.js] (the adapter over nodegit) and of the
    command-line entry point (module locator, snapshot assembly, gating
    predicates, dependency linker).

    Conventions of the embedding.
    - A JavaScript value that may be [undefined] or [null] is an [option].
    - A promise that may reject (and a function that may throw) is a
      [result]; [Throw] carries the text the error prints as.
    - A path is the list of its segments; [nodePath.join x y] appends one
      segment.  [render] gives back the string form used in command lines.
    - nodegit, fs-extra, execa and semver are external collaborators: they
      appear as fields of the records [Nodegit] and [Host]. *)

From Stdlib Require Import Ascii.
From Stdlib Require String.
From stdpp Require Import base option list gmap strings pretty.

(** ** JavaScript strings *)

Module JsString.

(** [s.startsWith(p)] *)
Fixpoint startsWith (p s : string) : bool :=
  match p, s with
  | EmptyString, _ => true
  | String a p', String b s' => if Ascii.eqb a b then startsWith p' s' else false
  | String _ _, EmptyString => false
  end.

(** [s.slice(n)] for [0 <= n] *)
Fixpoint drop (n : nat) (s : string) : string :=
  match n, s with
  | O, _ => s
  | S n', String _ s' => drop n' s'
  | S _, EmptyString => EmptyString
  end.

(** The loop behind [s.split(sep)] for a non-empty separator: [cur] is the
    piece being read, [skip] counts the characters of a separator that was
    just recognised and is still to be passed over. *)
Fixpoint split_go (sep : string) (skip : nat) (cur s : string) : list string :=
  match s with
  | EmptyString => [cur]
  | String c s' =>
      match skip with
      | S k => split_go sep k cur s'
      | O =>
          if startsWith sep s
          then cur :: split_go sep (String.length sep - 1) EmptyString s'
          else split_go sep 0 (cur +:+ String c EmptyString) s'
      end
  end.

(** [s.split(sep)], [sep] non-empty *)
Definition split (sep s : string) : list string := split_go sep 0 EmptyString s.

(** [xs.join(sep)] on an array of strings *)
Fixpoint join (sep : string) (xs : list string) : string :=
  match xs with
  | [] => EmptyString
  | [x] => x
  | x :: rest => x +:+ sep +:+ join sep rest
  end.

(** [Array.prototype.join] prints [undefined] and [null] as the empty string. *)
Definition join_opt (sep : string) (xs : list (option string)) : string :=
  join sep (map (default EmptyString) xs).

Fixpoint replicate (n : nat) (c : ascii) : string :=
  match n with
  | O => EmptyString
  | S n' => String c (replicate n' c)
  end.

(** [s.padStart(n, c)] for a one-character filler *)
Definition padStart (n : nat) (c : ascii) (s : string) : string :=
  replicate (n - String.length s) c +:+ s.

(** Does the character occur in the string? *)
Fixpoint occurs (c : ascii) (s : string) : bool :=
  match s with
  | EmptyString => false
  | String a s' => if Ascii.eqb c a then true else occurs c s'
  end.

End JsString.

(** ** Results of fallible calls *)

Inductive result (A : Type) : Type :=
| Ok (a : A)
| Throw (error : string).
Arguments Ok {A} a.
Arguments Throw {A} error.

#[global] Instance result_ret : MRet result := fun A a => Ok a.
#[global] Instance result_bind : MBind result := fun A B f r =>
  match r with
  | Ok a => f a
  | Throw e => Throw e
  end.

(** [_.tryCatch(f, handler)] where the handler returns nothing
    ([console.error], [_.noop]): the value or [undefined]. *)
Definition tryCatch {A} (r : result A) : option A :=
  match r with
  | Ok a => Some a
  | Throw _ => None
  end.

(** [p.catch(_.noop)] *)
Definition catch_noop {A} (r : result A) : result (option A) := Ok (tryCatch r).

(** ** Paths *)

Definition filepath := list string.

(** [nodePath.join(x, s)] for a single segment [s] *)
Definition path_join (x : filepath) (s : string) : filepath := x ++ [s].

(** The string form of a path, [/seg1/seg2/...]. *)
Definition render (p : filepath) : string :=
  fold_right (fun seg acc => "/" +:+ seg +:+ acc) EmptyString p.

(** What [nodePath.join] does to the segments of the joined string: an
    empty segment and ["."] are dropped, [".."] takes away the segment
    before it (at the root there is none to take). *)
Definition normalize_step (acc : filepath) (seg : string) : filepath :=
  if decide (seg = "" ∨ seg = ".") then acc
  else if decide (seg = "..") then removelast acc
  else acc ++ [seg].
Definition normalize (segments : list string) : filepath :=
  foldl normalize_step [] segments.

(** [nodePath.join(x, piece1, ..., piecen)] for pieces that are arbitrary
    strings: the pieces may hold separators and dots.  A separator at the
    end of the result is not kept. *)
Definition nodePath_join (x : filepath) (pieces : list string) : filepath :=
  normalize (x ++ mjoin (JsString.split "/" <$> pieces)).

(** ** git.js *)

Module git.

Definition repo := filepath.
Definition reference := string.
Definition oid := string.
Definition remote := string.

(** One entry of [repo.getStatusExt()] after [status] has called every
    method of the nodegit status object ([_.map(x => _.toFn(x)())]). *)
Record status_file := {
  sf_path : string;
  isConflicted : bool;
  isDeleted : bool;
  isIgnored : bool;
  isModified : bool;
  isNew : bool;
  isRenamed : bool;
  isTypechange : bool;
}.

(** The part of nodegit the adapter calls. *)
Record Nodegit := {
  Repository_open : filepath → result repo;
  Repository_head : repo → result reference;
  Repository_getReference : repo → string → result reference;
  Repository_getRemote : repo → string → result remote;
  Repository_getStatusExt : repo → result (list status_file);
  Repository_mergeBranches : repo → list string → result unit;
  Branch_upstream : reference → result reference;
  Reference_shorthand : reference → string;
  Reference_target : reference → option oid;
  Reference_peel : reference → result (option oid);
  Remote_url : remote → string;
  Tag_list : repo → result (list string);
  Graph_aheadBehind : repo → oid → oid → nat * nat;
  Graph_descendantOf : repo → oid → oid → bool;
}.

(** The value of [getCurrentAheadBehind]: the literal [{}] or the object
    nodegit computes. *)
Inductive ahead_behind :=
| EmptyObject
| Counts (ahead behind : nat).

(** [x.ahead] and [x.behind]; missing on [{}]. *)
Definition ahead (x : ahead_behind) : option nat :=
  match x with EmptyObject => None | Counts a _ => Some a end.
Definition behind (x : ahead_behind) : option nat :=
  match x with EmptyObject => None | Counts _ b => Some b end.

(** [getStatusFlag] *)
Definition getStatusFlag (x : status_file) : string :=
  let y := "" in
  let y := if isConflicted x then "C" else y in
  let y := if isDeleted x then "D" else y in
  let y := if isIgnored x then "I" else y in
  let y := if isModified x then "M" else y in
  let y := if isNew x then "??" else y in
  let y := if isRenamed x then "R" else y in
  let y := if isTypechange x then "T" else y in
  JsString.padStart 2 " " y.

Section adapter.
Context (ng : Nodegit).

(** [getRepo = _.flow(appendPath('.git'), nodegit.Repository.open)] *)
Definition getRepo (p : filepath) : result repo :=
  Repository_open ng (path_join p ".git").

(** [getUpstreamBranch = x => nodegit.Branch.upstream(x).catch(_.noop)] *)
Definition getUpstreamBranch (x : reference) : result (option reference) :=
  catch_noop (Branch_upstream ng x).

(** [getHead]: the pair [HEAD, upstream of HEAD or undefined] *)
Definition getHead (p : filepath) : result (reference * option reference) :=
  r ← getRepo p;
  h ← Repository_head ng r;
  u ← getUpstreamBranch h;
  Ok (h, u).

(** [getCurrentBranchName] *)
Definition getCurrentBranchName (p : filepath) : result string :=
  hu ← getHead p;
  Ok (JsString.join "..."
        (Reference_shorthand ng hu.1
           :: match hu.2 with
              | Some u => [Reference_shorthand ng u]
              | None => []
              end)).

(** [status] *)
Definition status (p : filepath) : result (list (string * string)) :=
  r ← getRepo p;
  xs ← Repository_getStatusExt ng r;
  Ok (map (fun x => (sf_path x, getStatusFlag x)) xs).

(** [getCurrentAheadBehind]: [callProp('target')] of a missing upstream
    is [undefined]; the graph is walked only when the repository and
    both targets exist. *)
Definition getCurrentAheadBehind (p : filepath) : result ahead_behind :=
  r ← getRepo p;
  hu ← getHead p;
  match Reference_target ng hu.1, hu.2 ≫= Reference_target ng with
  | Some local, Some upstream =>
      let ab := Graph_aheadBehind ng r local upstream in
      Ok (Counts ab.1 ab.2)
  | _, _ => Ok EmptyObject
  end.

(** [descendantOfHead]: is HEAD's commit a descendant of the commit
    [s] names?  [Boolean(0)] when one of the commits is missing. *)
Definition descendantOfHead (s : string) (p : filepath) : result bool :=
  r ← getRepo p;
  h ← Repository_head ng r;
  hc ← Reference_peel ng h;
  t ← Repository_getReference ng r s;
  tc ← Reference_peel ng t;
  match hc, tc with
  | Some commit, Some ancestor => Ok (Graph_descendantOf ng r commit ancestor)
  | _, _ => Ok false
  end.

(** [merge], given the module path and the branch string of a
    snapshot: [repo.mergeBranches(...branch.split('...'))] *)
Definition merge (p : filepath) (branch : string) : result unit :=
  r ← getRepo p;
  Repository_mergeBranches ng r (JsString.split "..." branch).

(** [getTags] *)
Definition getTags (p : filepath) : result (list string) :=
  r ← getRepo p;
  Tag_list ng r.

(** [getRemoteUrl]: [_.get(1)] of the pieces around ['@'] *)
Definition getRemoteUrl (name : string) (p : filepath) : result (option string) :=
  r ← getRepo p;
  rem ← Repository_getRemote ng r name;
  Ok (JsString.split "@" (Remote_url ng rem) !! 1).

End adapter.

End git.

(** ** Effects of the command-line tool *)

(** What a command does to the outside world, in the order it does it.
    [_.map] starts its calls together; the order of events of different
    modules inside one [_.map] is therefore one of several, and nothing
    below depends on it. *)
Inductive event :=
| WriteFile (file : filepath) (content : string)   (* fse.writeFile *)
| Remove (target : filepath)                       (* fse.remove *)
| EnsureSymlink (src : option filepath) (dst : filepath)
    (* fse.ensureSymlink; the source is missing when it is not a string *)
| Execa (cmd : string) (args : list string)    (* execa: a child process *)
| MergeBranches (module : filepath) (parts : list string) (* nodegit mergeBranches *)
| DescendantOfHead (ref : string) (module : filepath)     (* git.descendantOfHead *)
| Stdout (text : string)   (* process.stdout.write; console.log, less its newline *)
| Stderr (text : string)   (* console.error, less its newline *)
| BarRender
| BarTick
| BarInterrupt (text : string).

(** The events that change the file system or start a process. *)
Definition mutates (e : event) : bool :=
  match e with
  | WriteFile _ _ | Remove _ | EnsureSymlink _ _ | Execa _ _
  | MergeBranches _ _ => true
  | _ => false
  end.

(** The events that tell the user what the command does: what it prints
    and the progress bar.  Error reports are not among them. *)
Definition informs (e : event) : bool :=
  match e with
  | Stdout _ | BarRender | BarTick => true
  | _ => false
  end.

(** A computation: the events it caused and how it ended. *)
Record Eff (A : Type) := mkEff { trace : list event; outcome : result A }.
Arguments mkEff {A} trace outcome.
Arguments trace {A} e.
Arguments outcome {A} e.

#[global] Instance Eff_ret : MRet Eff := fun A a => mkEff [] (Ok a).
#[global] Instance Eff_bind : MBind Eff := fun A B f m =>
  match outcome m with
  | Ok a => mkEff (trace m ++ trace (f a)) (outcome (f a))
  | Throw e => mkEff (trace m) (Throw e)
  end.

Definition emit (e : event) : Eff unit := mkEff [e] (Ok tt).
Definition lift {A} (r : result A) : Eff A := mkEff [] r.

(** [_.tryCatch(f, h)] for a handler [h] that returns nothing. *)
Definition try_catch {A} (m : Eff A) (h : string → list event) : Eff (option A) :=
  match outcome m with
  | Ok a => mkEff (trace m) (Ok (Some a))
  | Throw e => mkEff (trace m ++ h e) (Ok None)
  end.

Definition console_error (e : string) : list event := [Stderr e].
Definition console_log (text : string) : Eff unit := emit (Stdout text).
Definition noop (e : string) : list event := [].

(** [_.map(f)] over an array with an asynchronous [f]: every call runs, and
    the whole rejects when one of them does. *)
Fixpoint map_all {A B} (f : A → Eff B) (xs : list A) : Eff (list B) :=
  match xs with
  | [] => mret []
  | x :: rest =>
      let m := f x in
      let ms := map_all f rest in
      mkEff (trace m ++ trace ms)
            (match outcome m, outcome ms with
             | Ok b, Ok bs => Ok (b :: bs)
             | Throw e, _ => Throw e
             | Ok _, Throw e => Throw e
             end)
  end.

(** [_.filter(p)] with an asynchronous predicate. *)
Definition filter_all {A} (p : A → Eff bool) (xs : list A) : Eff (list A) :=
  keep ← map_all (fun x => b ← p x; mret (x, b)) xs;
  mret (map fst (filter (fun xb => xb.2 = true) keep)).

(** ** Rubico helpers on arrays and strings *)

(** [_.has(s)] on an array of strings *)
Definition has (s : string) (xs : list string) : bool := bool_decide (s ∈ xs).

(** [_.uniq]: the first occurrence of every element, in order. *)
Fixpoint uniq_go {A} `{EqDecision A} (seen xs : list A) : list A :=
  match xs with
  | [] => []
  | x :: rest =>
      if decide (x ∈ seen) then uniq_go seen rest
      else x :: uniq_go (x :: seen) rest
  end.
Definition uniq {A} `{EqDecision A} (xs : list A) : list A := uniq_go [] xs.

(** [_.replaceOne(pat, rep)]: [s.replace(pat, rep)] for a string pattern. *)
Fixpoint replaceOne (pat rep s : string) : string :=
  if JsString.startsWith pat s
  then rep +:+ JsString.drop (String.length pat) s
  else match s with
       | EmptyString => EmptyString
       | String c s' => String c (replaceOne pat rep s')
       end.

Definition nl : string := String (ascii_of_nat 10) EmptyString.

(** A template literal prints a missing value as [undefined]. *)
Definition show (x : option string) : string := default "undefined" x.

(** ** Manifests *)

(** The fields of [package.json] the tool reads.  [dependencies] and
    [devDependencies] hold the keys of the two maps as [Object.keys]
    enumerates them; [nopack] is the truthiness of the field. *)
Module Package.
Record t := {
  name : option string;
  version : option string;
  nopack : bool;
  dependencies : option (list string);
  devDependencies : option (list string);
}.
End Package.

Module PackageLock.
Record t := {
  version : option string;
}.
End PackageLock.

(** ** Snapshots, and what else a lookup may find *)

(** The snapshot [getInfo] assembles for one module. *)
Record info := {
  path : filepath;
  fmt_path : string;
  repo : option git.repo;
  origin_url : option string;
  tags : option (list string);
  branch : option string;
  status : option (list (string * string));
  ahead_behind : option git.ahead_behind;
  package : option Package.t;
  package_lock : option PackageLock.t;
  module : option string;
  version : option string;
  vmodule : string;
  semver : string;
}.

(** A property read off a JavaScript value: a string, or something else
    ([undefined], a number, an object), with the text a template literal
    prints for it. *)
Inductive property :=
| Text (s : string)
| NoText (printed : string).

Definition printed_as (x : property) : string :=
  match x with Text s => s | NoText printed => printed end.
Definition as_text (x : property) : option string :=
  match x with Text s => Some s | NoText _ => None end.

(** What [link] reads of a value that is not a snapshot: its [path] (when
    that is a string), its [module] and its [fmt_path]. *)
Record foreign := {
  foreign_path : option filepath;
  foreign_module : property;
  foreign_fmt_path : property;
}.

(** What [_.lookup(moduleStore)] may answer with, [undefined] apart. *)
Inductive entry :=
| Snapshot (s : info)
| Other (v : foreign).

Definition entry_path (e : entry) : option filepath :=
  match e with Snapshot s => Some (path s) | Other v => foreign_path v end.
Definition entry_module (e : entry) : option string :=
  match e with Snapshot s => module s | Other v => as_text (foreign_module v) end.
Definition entry_module_text (e : entry) : string :=
  match e with
  | Snapshot s => show (module s)
  | Other v => printed_as (foreign_module v)
  end.
Definition entry_fmt_path_text (e : entry) : string :=
  match e with
  | Snapshot s => fmt_path s
  | Other v => printed_as (foreign_fmt_path v)
  end.

(** ** The machine the tool runs on *)

Record Host := {
  readdir : filepath → result (list string);            (* fse.readdir *)
  read_package : filepath → result Package.t;             (* fse.readFile, JSON.parse *)
  read_package_lock : filepath → result PackageLock.t;
  stringify_package : Package.t → string;             (* JSON.stringify(x, null, 2) *)
  stringify_package_lock : PackageLock.t → string;
  writeFile : filepath → string → result unit;          (* fse.writeFile *)
  remove : filepath → result unit;                      (* fse.remove *)
  ensureSymlink : option filepath → filepath → result unit; (* fse.ensureSymlink *)
  execa : string → list string → nat → result string;
    (* the standard output of the n-th run of a command line *)
  semver_inc : option string → string → option string;  (* semver.inc *)
  retry_error : list string → string;
    (* p-retry: the error it gives up with, given the errors of its attempts *)
  inherited : option info → string → option foreign;
    (* [store[k]] for a plain object [store] that holds nothing under [k]:
       what it inherits there, from the snapshot that was made its prototype
       (by a module named [__proto__]) if there is one, and from
       [Object.prototype]; [None] is [undefined] *)
  read_path : entry → list string → option foreign;
    (* [v.k1.k2...]: the rest of a dotted name, read off the value [v] its
       first segment gave; [None] is [undefined] or [null] *)
  HOME : string;                                    (* process.env.HOME *)
  columns : option nat;       (* process.stdout.columns; undefined off a terminal *)
}.

(** ** Module Locator *)

Section locator.
Context (host : Host).

(** [findModules].  Every level of the recursion lists its paths, keeps
    the readable ones, answers a directory that holds both [.git] and
    [package.json] with its own path and any other directory with the
    modules found among its entries.  [fuel] bounds the depth of the
    recursion; [None] means the bound was reached. *)
Fixpoint findModules (fuel : nat) (paths : list filepath) : option (list filepath) :=
  match fuel with
  | O => None
  | S fuel' =>
      let listed := omap (fun x => pair x <$> tryCatch (readdir host x)) paths in
      nested ← mapM (fun x : filepath * list string =>
                       if has ".git" x.2 && has "package.json" x.2
                       then Some [x.1]
                       else findModules fuel' (map (path_join x.1) x.2))
                    listed;
      Some (uniq (mjoin nested))
  end.

End locator.

(** ** Module Info Snapshot *)

Section snapshot.
Context (ng : git.Nodegit) (host : Host).

(** [getPackage], [getPackageLock] *)
Definition getPackage (x : filepath) : result Package.t :=
  read_package host (path_join x "package.json").
Definition getPackageLock (x : filepath) : result PackageLock.t :=
  read_package_lock host (path_join x "package-lock.json").

(** [replaceHome(process.env.HOME)] *)
Definition replaceHome (s : string) : string := replaceOne (HOME host) "~" s.

(** [getInfo]: every field is read on its own and is [undefined] when its
    read throws; the four derived fields are added afterwards. *)
Definition getInfo (x : filepath) : Eff info :=
  repo ← try_catch (lift (git.getRepo ng x)) console_error;
  origin_url ← try_catch (lift (git.getRemoteUrl ng "origin" x)) console_error;
  tags ← try_catch (lift (git.getTags ng x)) console_error;
  branch ← try_catch (lift (git.getCurrentBranchName ng x)) console_error;
  status ← try_catch (lift (git.status ng x)) console_error;
  ahead_behind ← try_catch (lift (git.getCurrentAheadBehind ng x)) console_error;
  pkg ← try_catch (lift (getPackage x)) noop;
  lock ← try_catch (lift (getPackageLock x)) noop;
  mret {|
    path := x;
    fmt_path := replaceHome (render x);
    repo := repo;
    origin_url := mjoin origin_url;
    tags := tags;
    branch := branch;
    status := status;
    ahead_behind := ahead_behind;
    package := pkg;
    package_lock := lock;
    module := pkg ≫= Package.name;
    version := pkg ≫= Package.version;
    vmodule := JsString.join_opt "@" [pkg ≫= Package.name; pkg ≫= Package.version];
    semver := "v" +:+ show (pkg ≫= Package.version);
  |}.

(** [refreshInfo] *)
Definition refreshInfo (x : info) : Eff info := getInfo (path x).

End snapshot.

(** ** Action Engine *)

(** Some conventions of the rubico release the tool was written against
    are not visible in the repository; every statement below holds for each
    choice. *)
Record Rubico := {
  and_calls_all : bool;
    (* does [_.and] call every predicate, or stop at the first that fails? *)
  isEmpty_undefined : result bool;
    (* [_.isEmpty(undefined)] *)
  gt_undefined : bool;
    (* [_.gt(f, 0)] where [f] gives [undefined] *)
  gte_undefined : bool;
    (* [_.gte(f, 0)] where [f] gives [undefined] *)
}.

Record input := {
  paths : list filepath;
  argv : list string;
}.

(** A snapshot on its way through [dist]: [bumpVersion] replaces [vmodule],
    [package] and [package_lock] inside [base] and adds [next_version]. *)
Record bumped := {
  base : info;
  version_bump : string;
  is_dry_run : bool;
  next_version : option string;
}.

(** A snapshot after [link] has added [symlinks]. *)
Record linked := {
  target : info;
  symlinks : list entry;
}.

(** The names every plain object inherits a property under. *)
Definition object_prototype : list string :=
  [ "constructor"; "__defineGetter__"; "__defineSetter__"; "hasOwnProperty";
    "__lookupGetter__"; "__lookupSetter__"; "isPrototypeOf";
    "propertyIsEnumerable"; "toString"; "valueOf"; "__proto__";
    "toLocaleString" ].

Section engine.
Context (rb : Rubico) (ng : git.Nodegit) (host : Host).

(** *** Predicates *)

Fixpoint and_lazy (cs : list (Eff bool)) : Eff bool :=
  match cs with
  | [] => mret true
  | c :: rest => b ← c; if b : bool then and_lazy rest else mret false
  end.

Definition and_all (cs : list (Eff bool)) : Eff bool :=
  bs ← map_all id cs; mret (forallb id bs).

(** [_.and(p1, ..., pn)(x)], given the calls [pi(x)] *)
Definition and_ (cs : list (Eff bool)) : Eff bool :=
  if and_calls_all rb then and_all cs else and_lazy cs.

(** [x.ahead_behind.ahead], [x.ahead_behind.behind] through [_.get] *)
Definition ahead_of (x : info) : option nat := ahead_behind x ≫= git.ahead.
Definition behind_of (x : info) : option nat := ahead_behind x ≫= git.behind.

(** [_.gt(f, 0)], [_.eq(f, 0)], [_.gte(f, 0)] for a count that may be
    [undefined]: [undefined === 0] is [false]; what [_.gt] and [_.gte]
    make of [undefined] is rubico's choice. *)
Definition gt0 (n : option nat) : bool :=
  match n with Some k => bool_decide (0 < k)%nat | None => gt_undefined rb end.
Definition eq0 (n : option nat) : bool :=
  match n with Some k => bool_decide (k = 0) | None => false end.
Definition gte0 (n : option nat) : bool :=
  match n with Some k => bool_decide (0 ≤ k)%nat | None => gte_undefined rb end.

(** [_.flow(_.get('branch'), _.split('...'), _.size, _.eq(_.id, 2))] *)
Definition branch_has_two_parts (x : info) : Eff bool :=
  match branch x with
  | Some b => mret (bool_decide (length (JsString.split "..." b) = 2))
  | None => lift (Throw "TypeError: cannot split undefined")
  end.

(** [_.flow(_.get('status'), _.isEmpty)] *)
Definition status_isEmpty (x : info) : Eff bool :=
  match status x with
  | Some entries => mret (bool_decide (length entries = 0))
  | None => lift (isEmpty_undefined rb)
  end.

(** The conjuncts of [merge], in the order of the source. *)
Definition merge_conjuncts (x : info) : list (Eff bool) :=
  [ branch_has_two_parts x;
    status_isEmpty x;
    mret (gt0 (behind_of x));
    mret (eq0 (ahead_of x)) ].
Definition merge_predicate (x : info) : Eff bool := and_ (merge_conjuncts x).

(** The conjuncts of [push]. *)
Definition push_conjuncts (x : info) : list (Eff bool) :=
  [ branch_has_two_parts x;
    mret (gt0 (ahead_of x));
    mret (eq0 (behind_of x)) ].
Definition push_predicate (x : info) : Eff bool := and_ (push_conjuncts x).

(** The second conjunct of [dist]:
    [_.switch(tags has semver, descendantOfHead(semver)(path), false)] *)
Definition dist_tag_conjunct (x : info) : Eff bool :=
  if has (semver x) (default [] (tags x))
  then _ ← emit (DescendantOfHead (semver x) (path x));
       lift (git.descendantOfHead ng (semver x) (path x))
  else mret false.

(** The conjuncts of [dist]. *)
Definition dist_conjuncts (x : info) : list (Eff bool) :=
  [ mret (bool_decide (branch x = Some "master...origin/master"));
    dist_tag_conjunct x;
    status_isEmpty x;
    mret (eq0 (behind_of x));
    mret (gte0 (ahead_of x));
    mret (negb (default false (Package.nopack <$> package x))) ].
Definition dist_predicate (x : info) : Eff bool := and_ (dist_conjuncts x).

(** A predicate selects a snapshot when it resolves to [true]. *)
Definition selects (p : info → Eff bool) (x : info) : Prop :=
  outcome (p x) = Ok true.

(** *** Shared pieces of the commands *)

(** [_.or.sync(_.has('--dry-run'), _.has('-n'))(input.argv)] *)
Definition isDryRun (argv : list string) : bool :=
  has "--dry-run" argv || has "-n" argv.

Definition spaces (l : nat) : string := JsString.replicate l " ".

(** [curLineLength + s.length > process.stdout.columns - 20]; never so
    when the width is [undefined]. *)
Definition line_is_full (curLineLength : nat) (s : string) : bool :=
  match columns host with
  | Some width => bool_decide (width < curLineLength + String.length s + 20)%nat
  | None => false
  end.

(** The loop of [neatLogCollection] over [x.slice(1)]; reading the length
    of a missing element throws. *)
Fixpoint neatLogRest (indent : nat) (curLineLength : nat)
    (rest : list (option string)) : Eff unit :=
  match rest with
  | [] => mret tt
  | None :: _ => lift (Throw "TypeError: cannot read length of undefined")
  | Some s :: rest' =>
      if line_is_full curLineLength s
      then let nextLine := nl +:+ spaces indent +:+ s in
           _ ← emit (Stdout nextLine);
           neatLogRest indent (String.length nextLine) rest'
      else _ ← emit (Stdout ("  " +:+ s));
           neatLogRest indent (curLineLength + String.length s) rest'
  end.

(** [neatLogCollection(x, lineStart)] *)
Definition neatLogCollection (x : list (option string)) (lineStart : string)
    : Eff unit :=
  match x with
  | [] => mret tt
  | x0 :: rest =>
      _ ← emit (Stdout lineStart);
      _ ← emit (Stdout (show x0));
      l0 ← lift (match x0 with
                 | Some s => Ok (String.length s)
                 | None => Throw "TypeError: cannot read length of undefined"
                 end);
      _ ← neatLogRest (String.length lineStart) (String.length lineStart + l0) rest;
      emit (Stdout (nl +:+ nl))
  end.

(** [execa(cmd, args)]: the child process is started, then its outcome is
    known. *)
Definition run (cmd : string) (args : list string) (nth : nat) : Eff string :=
  _ ← emit (Execa cmd args);
  lift (execa host cmd args nth).

(** The two options every git command line starts with. *)
Definition git_options (p : filepath) : list string :=
  [ "--git-dir=" +:+ render (path_join p ".git");
    "--work-tree=" +:+ render p ].

(** [if (x.length > 0) bar.render()] *)
Definition render_bar {A} (x : list A) : Eff unit :=
  if bool_decide (0 < length x)%nat then emit BarRender else mret tt.

(** *** merge *)

(** [_.effect(git.merge)]: [mergeBranches] is called once the repository
    is open and the branch string is split. *)
Definition git_merge (x : info) : Eff unit :=
  b ← lift (match branch x with
            | Some b => Ok b
            | None => Throw "TypeError: cannot split undefined"
            end);
  _ ← match git.getRepo ng (path x) with
      | Ok _ => emit (MergeBranches (path x) (JsString.split "..." b))
      | Throw _ => mret tt
      end;
  lift (git.merge ng (path x) b).

Definition merge_from (mods : list filepath) : Eff (list unit) :=
  infos ← map_all (getInfo ng host) mods;
  map_all (fun x =>
             ok ← merge_predicate x;
             if ok : bool
             then merged ← try_catch (_ ← git_merge x; mret x)
                             (fun e => [Stderr ("merge failed: " +:+ e)]);
                  console_log ("merged "
                               +:+ JsString.join_opt " " [merged ≫= module;
                                                          merged ≫= branch])
             else mret tt)
          infos.

Definition merge (fuel : nat) (i : input) : option (Eff (list unit)) :=
  merge_from <$> findModules host fuel (paths i).

(** *** push *)

(** One entry of the list [push] prints: [origin_url(local branch)]. *)
Definition push_label (x : info) : result (option string) :=
  match branch x with
  | Some b => Ok (Some (show (origin_url x) +:+ "("
                        +:+ show (JsString.split "..." b !! 0) +:+ ")"))
  | None => Throw "TypeError: cannot split undefined"
  end.

Definition push_from (argv : list string) (mods : list filepath)
    : Eff (list (option info)) :=
  infos ← map_all (getInfo ng host) mods;
  x ← filter_all push_predicate infos;
  labels ← lift (mapM push_label x);
  _ ← neatLogCollection labels ("pushing (" +:+ pretty (length x) +:+ ") ");
  _ ← render_bar x;
  map_all (fun m =>
             pushed ← (if isDryRun argv then mret (Some m)
                       else try_catch
                              (_ ← run "git" (git_options (path m) ++ ["push"]) 0;
                               mret m)
                              console_error);
             _ ← emit BarTick;
             mret pushed)
          x.

Definition push (fuel : nat) (i : input) : option (Eff (list (option info))) :=
  push_from (argv i) <$> findModules host fuel (paths i).

(** *** dist *)

(** [_.put(['version', v])] on a manifest; on a missing manifest the
    result has no other field. *)
Definition put_version (v : option string) (p : option Package.t) : Package.t :=
  match p with
  | Some p =>
      {| Package.name := Package.name p;
         Package.version := v;
         Package.nopack := Package.nopack p;
         Package.dependencies := Package.dependencies p;
         Package.devDependencies := Package.devDependencies p |}
  | None =>
      {| Package.name := None;
         Package.version := v;
         Package.nopack := false;
         Package.dependencies := None;
         Package.devDependencies := None |}
  end.

(** [writePackage], [writePackageLock] *)
Definition writePackage (x : bumped) : Eff unit :=
  let file := path_join (path (base x)) "package.json" in
  let text := show (stringify_package host <$> package (base x)) +:+ nl in
  _ ← emit (WriteFile file text);
  lift (writeFile host file text).

Definition writePackageLock (x : bumped) : Eff unit :=
  let file := path_join (path (base x)) "package-lock.json" in
  let text := show (stringify_package_lock host <$> package_lock (base x)) +:+ nl in
  _ ← emit (WriteFile file text);
  lift (writeFile host file text).

(** The [_.series] of [bumpVersion]: the two writes, then add, commit, tag
    and push of the tag, each git step caught on its own. *)
Definition commit_bump (x : bumped) : Eff unit :=
  let git_ args := _ ← try_catch (run "git" (git_options (path (base x)) ++ args) 0)
                        console_error;
                   mret tt in
  _ ← writePackage x;
  _ ← match package_lock (base x) with
      | Some _ => writePackageLock x
      | None => mret tt
      end;
  _ ← git_ ["add"; "."];
  _ ← git_ ["commit"; "-m"; show (next_version x)];
  _ ← git_ ["tag"; "v" +:+ show (next_version x)];
  git_ ["push"; "-f"; "origin"; "v" +:+ show (next_version x)].

(** The [_.put]s of [bumpVersion], given the snapshot and the two fields
    [dist] has put on it: [next_version], then the new [vmodule],
    [package] and [package_lock].  [_.has('package_lock')] holds when the
    snapshot has a lockfile. *)
Definition put_next_version (x : info) (bump : string) (dry : bool) : bumped :=
  let next := semver_inc host (package x ≫= Package.version) bump in
  {| base :=
       {| path := path x;
          fmt_path := fmt_path x;
          repo := repo x;
          origin_url := origin_url x;
          tags := tags x;
          branch := branch x;
          status := status x;
          ahead_behind := ahead_behind x;
          package := Some (put_version next (package x));
          package_lock :=
            (fun _ => {| PackageLock.version := next |}) <$> package_lock x;
          module := module x;
          version := version x;
          vmodule := JsString.join_opt "@" [package x ≫= Package.name; next];
          semver := semver x |};
     version_bump := bump;
     is_dry_run := dry;
     next_version := next |}.

(** [bumpVersion]: under dry-run the new fields are all there is. *)
Definition bumpVersion (x : info) (bump : string) (dry : bool) : Eff bumped :=
  let y := put_next_version x bump dry in
  if is_dry_run y then mret y else _ ← commit_bump y; mret y.

(** [pRetry(() => execa('npm', ['publish', x.path]), {retries: 5, ...})]:
    every failed attempt is reported, and up to [retries] more follow;
    [errors] are the errors of the attempts before this one.  Which error
    the library gives up with is the library's choice. *)
Fixpoint pRetry (retries attemptNumber : nat) (errors : list string)
    (x : bumped) : Eff string :=
  let m := run "npm" ["publish"; render (path (base x))] attemptNumber in
  match outcome m with
  | Ok _ => m
  | Throw e =>
      let failed :=
        trace m ++ [BarInterrupt ("publish failed for " +:+ vmodule (base x)
                                  +:+ ", retrying "
                                  +:+ pretty (attemptNumber - 1)%nat +:+ "/5")] in
      match retries with
      | O => mkEff failed (Throw (retry_error host (errors ++ [e])))
      | S k =>
          let m' := pRetry k (S attemptNumber) (errors ++ [e]) x in
          mkEff (failed ++ trace m') (outcome m')
      end
  end.

(** The last [_.map] of [dist] before printing: the line of one module. *)
Definition publish (x : bumped) : Eff (option string) :=
  line ← (if is_dry_run x
          then mret (Some ("+ " +:+ vmodule (base x)))
          else try_catch (pRetry 5 1 [] x)
                 (fun e => [BarInterrupt ("giving up publish: " +:+ e)]));
  _ ← emit BarTick;
  mret line.

(** [versionBump]: the first argument when it is one of the three words *)
Definition versionBump (argv : list string) : option string :=
  a ← argv !! 0;
  if has a ["major"; "minor"; "patch"] then Some a else None.

Definition dist_from (bump : string) (argv : list string)
    (mods : list filepath) : Eff (list unit) :=
  infos ← map_all (getInfo ng host) mods;
  x ← filter_all dist_predicate infos;
  _ ← neatLogCollection (map (fun m => Some (vmodule m)) x)
        ("bumping " +:+ bump +:+ " & publishing ("
         +:+ pretty (length x) +:+ ") ");
  ys ← map_all (fun m => bumpVersion m bump (isDryRun argv)) x;
  _ ← render_bar ys;
  lines ← map_all publish ys;
  map_all (fun line => console_log (show line)) lines.

Definition dist (fuel : nat) (i : input) : option (Eff (list unit)) :=
  match versionBump (argv i) with
  | None => Some (mkEff [Stderr "Error: <major|minor|patch> required"] (Ok []))
  | Some bump => dist_from bump (argv i) <$> findModules host fuel (paths i)
  end.

(** *** install *)

Definition install_from (argv : list string) (mods : list filepath)
    : Eff (list unit) :=
  x ← map_all (getInfo ng host) mods;
  _ ← neatLogCollection (map module x)
        ("installing (" +:+ pretty (length x) +:+ ") ");
  _ ← render_bar x;
  map_all (fun m =>
             _ ← (if isDryRun argv then mret tt
                  else _ ← try_catch
                             (run "npm" [ "i";
                                          "--cache=" +:+ render (path_join (path m) ".npm");
                                          "-C";
                                          render (path m);
                                          "--no-package-lock" ] 0)
                             (fun e => [BarInterrupt ("install failed: " +:+ e)]);
                       mret tt);
             emit BarTick)
          x.

Definition install (fuel : nat) (i : input) : option (Eff (list unit)) :=
  install_from (argv i) <$> findModules host fuel (paths i).

(** *** link *)

(** [moduleStore]: [a[b.module] = b] for every snapshot in turn; a later
    snapshot replaces an earlier one of the same name, and a snapshot
    without a name is stored under ["undefined"].  A snapshot named
    [__proto__] is not stored as a property: the assignment makes it the
    prototype of the store, and that is what the store answers with under
    [__proto__]. *)
Definition moduleStore (x : list info) : gmap string info :=
  foldl (fun a b => <[show (module b) := b]> a) ∅ x.

(** [store[k]]: the snapshot stored under [k]; failing that, what the
    store inherits under [k], which is nothing unless [k] is one of the
    names every object inherits or a snapshot was made the prototype. *)
Definition lookup_property (store : gmap string info) (k : string)
    : option entry :=
  match store !! k with
  | Some s => Some (Snapshot s)
  | None =>
      if has k object_prototype || bool_decide (is_Some (store !! "__proto__"))
      then Other <$> inherited host (store !! "__proto__") k
      else None
  end.

(** [_.lookup(store)(k)]: the name is read as a path with ['.'] between
    its segments; the first segment is looked up in the store, the others
    in what was found. *)
Definition lookup (store : gmap string info) (k : string) : option entry :=
  match JsString.split "." k with
  | [] => None
  | [name] => lookup_property store name
  | first :: rest =>
      v ← lookup_property store first;
      Other <$> read_path host v rest
  end.

(** The keys of [dependencies], then those of [devDependencies]. *)
Definition declared (x : info) : list string :=
  default [] (package x ≫= Package.dependencies)
  ++ default [] (package x ≫= Package.devDependencies).

(** The [symlinks] field: look every declared name up, keep what exists. *)
Definition computeSymlinks (x : list info) : list linked :=
  let store := moduleStore x in
  map (fun m => {| target := m;
                   symlinks := omap (lookup store) (declared m) |})
      x.

(** One entry of the symlinks of the module [owner]: remove what is in the
    way, then link.  [nodePath.join] throws unless the [module] of the
    entry is a string. *)
Definition link_one (owner : info) (dep : entry) : Eff unit :=
  dst ← lift (match entry_module dep with
              | Some m => Ok (nodePath_join (path owner) ["node_modules"; m])
              | None => Throw "TypeError: path segment must be a string"
              end);
  _ ← try_catch (_ ← emit (Remove dst); lift (remove host dst))
        (fun e => [Stderr ("remove failed: " +:+ e)]);
  _ ← try_catch (_ ← emit (EnsureSymlink (entry_path dep) dst);
                 lift (ensureSymlink host (entry_path dep) dst))
        (fun e => [Stderr ("symlink failed: " +:+ e)]);
  mret tt.

(** The tree [link] prints for one module. *)
Definition link_report (x : linked) : result string :=
  match symlinks x with
  | [] => Throw "TypeError: cannot read fmt_path of undefined"
  | first :: rest =>
      Ok (("┌ " +:+ entry_fmt_path_text first +:+ " ("
           +:+ entry_module_text first +:+ ")")
          +:+ fold_right
                (fun a acc => nl +:+ "├ " +:+ entry_fmt_path_text a +:+ " ("
                              +:+ entry_module_text a +:+ ")" +:+ acc)
                EmptyString rest
          +:+ nl +:+ "└┄► " +:+ fmt_path (target x) +:+ "/node_modules")
  end.

Definition link_from (argv : list string) (mods : list filepath)
    : Eff (list unit) :=
  infos ← map_all (getInfo ng host) mods;
  let x := filter (fun m => 0 < length (symlinks m))%nat (computeSymlinks infos) in
  _ ← (if isDryRun argv then mret tt
       else _ ← map_all (fun m => map_all (link_one (target m)) (symlinks m)) x;
            mret tt);
  map_all (fun m => text ← lift (link_report m); console_log text) x.

Definition link (fuel : nat) (i : input) : option (Eff (list unit)) :=
  link_from (argv i) <$> findModules host fuel (paths i).

End engine.


(** ** Action Engine: status, fetch, pull and clean *)

(** The conventions of rubico the status command relies on besides. *)
Record RubicoStatus := {
  or_calls_all : bool;
    (* does [_.or] call every predicate, or stop at the first that holds? *)
  any_undefined : result bool;
    (* [_.any(f)(undefined)] *)
}.

(** [fmtAheadBehind] *)
Definition fmtAheadBehind (x : git.ahead_behind) : string :=
  let y := [] in
  let y := match git.ahead x with
           | Some a => if bool_decide (0 < a)%nat then y ++ ["ahead " +:+ pretty a] else y
           | None => y
           end in
  let y := match git.behind x with
           | Some b => if bool_decide (0 < b)%nat then y ++ ["behind " +:+ pretty b] else y
           | None => y
           end in
  match y with
  | [] => ""
  | _ => "[" +:+ JsString.join ", " y +:+ "]"
  end.

(** [fmtStatus] *)
Definition fmtStatus (x : string * string) : string :=
  nl +:+ x.2 +:+ " " +:+ x.1.

Section engine_more.
Context (rb : Rubico) (rs : RubicoStatus) (ng : git.Nodegit) (host : Host).

(** [fmtRepo]: path, branch, divergence and status lines, joined by
    blanks. *)
Definition fmtRepo (x : info) : string :=
  JsString.join_opt " "
    [ Some (replaceHome host (render (path x)));
      branch x;
      Some (fmtAheadBehind (default git.EmptyObject (ahead_behind x)));
      Some (JsString.join "" (map fmtStatus (default [] (status x)))) ].

Fixpoint or_lazy (cs : list (Eff bool)) : Eff bool :=
  match cs with
  | [] => mret false
  | c :: rest => b ← c; if b : bool then mret true else or_lazy rest
  end.

Definition or_all (cs : list (Eff bool)) : Eff bool :=
  bs ← map_all id cs; mret (existsb id bs).

(** [_.or(p1, ..., pn)(x)], given the calls [pi(x)] *)
Definition or_ (cs : list (Eff bool)) : Eff bool :=
  if or_calls_all rs then or_all cs else or_lazy cs.

(** [_.flow(_.get('ahead_behind'), _.any(_.not(_.eq(_.id, 0))))]: is one
    of the values of the object not 0? *)
Definition any_not_zero (x : info) : Eff bool :=
  match ahead_behind x with
  | Some git.EmptyObject => mret false
  | Some (git.Counts a b) =>
      mret (negb (bool_decide (a = 0)) || negb (bool_decide (b = 0)))
  | None => lift (any_undefined rs)
  end.

(** [_.flow(_.get('status'), _.not(_.isEmpty))] *)
Definition status_not_isEmpty (x : info) : Eff bool :=
  b ← status_isEmpty rb x; mret (negb b).

(** The predicate of [status]. *)
Definition status_predicate (x : info) : Eff bool :=
  or_ [any_not_zero x; status_not_isEmpty x].

Definition status_from (mods : list filepath) : Eff (list unit) :=
  infos ← map_all (getInfo ng host) mods;
  x ← filter_all status_predicate infos;
  map_all (fun m => console_log (fmtRepo m)) x.

Definition status_command (fuel : nat) (i : input) : option (Eff (list unit)) :=
  status_from <$> findModules host fuel (paths i).

(** [fetchAll] of the entry point: the list of remotes, then
    [git fetch --all] in every module. *)
Definition fetchAll_from (mods : list filepath) : Eff (list unit) :=
  x ← map_all (getInfo ng host) mods;
  _ ← neatLogCollection host (map origin_url x)
        ("fetching (" +:+ pretty (length x) +:+ ") ");
  _ ← emit BarRender;
  map_all (fun m =>
             _ ← try_catch (run host "git" (git_options (path m) ++ ["fetch"; "--all"]) 0)
                   (fun e => [BarInterrupt ("fetch failed: " +:+ e)]);
             emit BarTick)
          x.

Definition fetchAll (fuel : nat) (i : input) : option (Eff (list unit)) :=
  fetchAll_from <$> findModules host fuel (paths i).

(** [pull = _.series(fetchAll, merge)]: [merge] starts when [fetchAll] has
    resolved, and reads the repositories as the fetch has left them,
    [fetched]. *)
Definition pull (fetched : git.Nodegit) (fuel : nat) (i : input)
    : option (Eff (list unit)) :=
  match fetchAll fuel i, merge rb fetched host fuel i with
  | Some fetching, Some merging => Some (_ ← fetching; merging)
  | _, _ => None
  end.

(** [clean] *)
Definition clean_from (mods : list filepath) : Eff (list unit) :=
  x ← map_all (getInfo ng host) mods;
  map_all (fun m =>
             _ ← try_catch (run host "git" (git_options (path m) ++ ["clean"; "-fxdq"]) 0)
                   (fun e => [Stderr ("clean failed: " +:+ e)]);
             console_log ("cleaned " +:+ render (path m)))
          x.

Definition clean (fuel : nat) (i : input) : option (Eff (list unit)) :=
  clean_from <$> findModules host fuel (paths i).

End engine_more.


(** ** Vocabulary of the specification *)

Module Spec.

(** The flags in the order the specification lists them, each with the
    test that raises it. *)
Definition flag_order : list (string * (git.status_file → bool)) :=
  [ ("C", git.isConflicted);
    ("D", git.isDeleted);
    ("I", git.isIgnored);
    ("M", git.isModified);
    ("??", git.isNew);
    ("R", git.isRenamed);
    ("T", git.isTypechange) ].

(** "Keeping only the last one that matches": the flags whose test holds,
    in order, and of those the last; no flag when none holds. *)
Definition last_matching_flag (x : git.status_file) : string :=
  default "" (last (map fst (filter (fun f => f.2 x = true) flag_order))).

(** "The branch string has both a local and an upstream part." *)
Definition has_local_and_upstream (x : info) : Prop :=
  ∃ b local upstream,
    branch x = Some b
    ∧ JsString.split "..." b = [local; upstream]
    ∧ b = local +:+ "..." +:+ upstream.

(** The entries of the working-tree status; none when it was not read. *)
Definition status_entries (x : info) : list (string * string) :=
  default [] (status x).

(** "The computed version tag exists in the module's tag set." *)
Definition version_tag_exists (x : info) : Prop :=
  semver x ∈ default [] (tags x).

(** "HEAD's target commit" and "its upstream's target commit", when they
    can be resolved. *)
Definition head_commit (ng : git.Nodegit) (p : filepath) : option git.oid :=
  hu ← tryCatch (git.getHead ng p);
  git.Reference_target ng hu.1.
Definition upstream_commit (ng : git.Nodegit) (p : filepath) : option git.oid :=
  hu ← tryCatch (git.getHead ng p);
  u ← hu.2;
  git.Reference_target ng u.

Definition unresolved (ng : git.Nodegit) (p : filepath) : Prop :=
  head_commit ng p = None ∨ upstream_commit ng p = None.

(** The statement about [aheadBehind] as the specification words it: the
    empty object exactly when one of the two commits is unresolved, and
    two counts in every other case. *)
Definition aheadBehind_empty_iff_unresolved
    (ng : git.Nodegit) (p : filepath) : Prop :=
  (git.getCurrentAheadBehind ng p = Ok git.EmptyObject ↔ unresolved ng p)
  ∧ (¬ unresolved ng p →
     ∃ a b, git.getCurrentAheadBehind ng p = Ok (git.Counts a b)).

(** The statement about the tag conjunct of [dist] as the specification
    words it: the check runs only when the tag exists, and a missing tag
    counts as [true]. *)
Definition missing_tag_proceeds
    (rb : Rubico) (ng : git.Nodegit) (x : info) : Prop :=
  (∀ ref p, DescendantOfHead ref p ∈ trace (dist_predicate rb ng x) →
            version_tag_exists x)
  ∧ (¬ version_tag_exists x → outcome (dist_tag_conjunct ng x) = Ok true).

(** [q] lies strictly below [p]. *)
Definition strict_descendant (q p : filepath) : Prop :=
  ∃ rest, rest ≠ [] ∧ q = p ++ rest.

(** "No returned path is a strict descendant of another returned path." *)
Definition no_nested_modules (found : list filepath) : Prop :=
  ∀ p q, p ∈ found → q ∈ found → ¬ strict_descendant q p.

(** A directory that directly holds [.git] and [package.json]. *)
Definition is_module (host : Host) (d : filepath) : Prop :=
  ∃ entries, readdir host d = Ok entries
             ∧ ".git" ∈ entries ∧ "package.json" ∈ entries.

(** The statement about the locator as the specification words it, for
    one set of roots. *)
Definition locator_never_nests (host : Host) (roots : list filepath) : Prop :=
  ∀ fuel found, findModules host fuel roots = Some found →
                no_nested_modules found.

(** No root lies strictly below a module. *)
Definition roots_outside_modules (host : Host) (roots : list filepath) : Prop :=
  ∀ r d, r ∈ roots → strict_descendant r d → ¬ is_module host d.

(** [p] is a module found by descending from [r] through directories
    that are not modules. *)
Definition reached_from (host : Host) (r p : filepath) : Prop :=
  ∃ rest, p = r ++ rest
          ∧ is_module host p
          ∧ ∀ k, k < length rest → ¬ is_module host (r ++ take k rest).

(** The keys of the two dependency sections of a manifest. *)
Definition regular (x : info) : list string :=
  default [] (package x ≫= Package.dependencies).
Definition development (x : info) : list string :=
  default [] (package x ≫= Package.devDependencies).

(** The name a snapshot is known under. *)
Definition name_of (x : info) : string := show (module x).

(** "Some discovered module's manifest name is [k]": of the discovered
    snapshots with that name, the last. *)
Definition last_named (k : string) (xs : list info) : option info :=
  last (filter (fun s => name_of s = k) xs).

(** The snapshot [_.lookup] finds for a declared name: the name is read
    as a path, so only a name without a dot gives the snapshot stored
    under it. *)
Definition stored_for (k : string) (xs : list info) : option info :=
  if JsString.occurs "." k then None else last_named k xs.






(** Every event of a computation satisfies [P]. *)
Definition only {A} (P : event → Prop) (m : Eff A) : Prop :=
  Forall P (trace m).

(** "No filesystem write, no symlink removal or creation, no
    external-process invocation." *)
Definition quiet {A} (m : Eff A) : Prop :=
  only (fun e => mutates e = false) m.

(** A computation that neither changes nor reports anything: it may only
    look at the repository and print errors. *)
Definition discreet {A} (m : Eff A) : Prop :=
  only (fun e => mutates e = false ∧ informs e = false) m.

(** "The informational output": the events that inform, in order. *)
Definition report_of {A} (m : Eff A) : list event :=
  filter (fun e => informs e = true) (trace m).

(** The shape of a report: what is printed where, without the text. *)
Definition shape (e : event) : event :=
  match e with
  | Stdout _ => Stdout ""
  | _ => e
  end.

Definition completes {A} (m : Eff A) : Prop := ∃ a, outcome m = Ok a.

(** A computation that reports nothing. *)
Definition silent {A} (m : Eff A) : Prop :=
  only (fun e => informs e = false) m.

(** What [dist] announces before it starts: the header and the versioned
    names of the selected modules. *)
Definition dist_announcement (host : Host) (bump : string) (x : list info)
    : Eff unit :=
  neatLogCollection host (map (fun m => Some (vmodule m)) x)
    ("bumping " +:+ bump +:+ " & publishing ("
     +:+ pretty (length x) +:+ ") ").

(** The version [dist] would move a module to. *)
Definition next_version_of (host : Host) (bump : string) (x : info)
    : option string :=
  semver_inc host (package x ≫= Package.version) bump.

(** The line [dist] prints for a module under dry-run:
    ["+ <name>@<next-version>"], a missing part left empty. *)
Definition would_be_line (host : Host) (bump : string) (x : info) : string :=
  "+ " +:+ default "" (package x ≫= Package.name) +:+ "@"
       +:+ default "" (next_version_of host bump x).

(** A finite directory tree, and what [readdir] answers on it. *)
Inductive tree :=
| File
| Dir (entries : forest)
with forest :=
| Empty
| Entry (name : string) (t : tree) (rest : forest).

Fixpoint names (entries : forest) : list string :=
  match entries with
  | Empty => []
  | Entry name _ rest => name :: names rest
  end.

Fixpoint child (name : string) (entries : forest) : option tree :=
  match entries with
  | Empty => None
  | Entry n t rest => if decide (n = name) then Some t else child name rest
  end.

Definition enter (name : string) (t : tree) : option tree :=
  match t with
  | File => None
  | Dir entries => child name entries
  end.

Fixpoint subtree (t : tree) (p : filepath) : option tree :=
  match p with
  | [] => Some t
  | name :: rest => enter name t ≫= fun t' => subtree t' rest
  end.

Definition readdir_of (t : tree) (p : filepath) : result (list string) :=
  match subtree t p with
  | Some (Dir entries) => Ok (names entries)
  | _ => Throw "ENOTDIR"
  end.

Fixpoint height (t : tree) : nat :=
  match t with
  | File => 0
  | Dir entries => S (height_forest entries)
  end
with height_forest (entries : forest) : nat :=
  match entries with
  | Empty => 0
  | Entry _ t rest => max (height t) (height_forest rest)
  end.

(** The height of what lies at a path; 0 where there is nothing. *)
Definition height_at (t : tree) (p : filepath) : nat :=
  from_option height 0 (subtree t p).

End Spec.

(** ** Concrete inputs *)

Module Fixtures.

(** A status entry of a file that is both modified and new. *)
Definition modified_and_new : git.status_file :=
  {| git.sf_path := "index.js";
     git.isConflicted := false;
     git.isDeleted := false;
     git.isIgnored := false;
     git.isModified := true;
     git.isNew := true;
     git.isRenamed := false;
     git.isTypechange := false |}.

(** A checkout in good order: every call succeeds, HEAD is [master] and
    follows [origin/master]; [url] is the address of every remote,
    [tag_list] the tags, [counts] what the graph walk answers. *)
Definition checkout_with (url : string) (tag_list : list string)
    (counts : nat * nat) : git.Nodegit :=
  {| git.Repository_open := fun p => Ok p;
     git.Repository_head := fun _ => Ok "refs/heads/master";
     git.Repository_getReference := fun _ s => Ok s;
     git.Repository_getRemote := fun _ name => Ok name;
     git.Repository_getStatusExt := fun _ => Ok [];
     git.Repository_mergeBranches := fun _ _ => Ok tt;
     git.Branch_upstream := fun _ => Ok "refs/remotes/origin/master";
     git.Reference_shorthand := fun r =>
       if decide (r = "refs/heads/master") then "master" else "origin/master";
     git.Reference_target := fun r => Some r;
     git.Reference_peel := fun r => Ok (Some r);
     git.Remote_url := fun _ => url;
     git.Tag_list := fun _ => Ok tag_list;
     git.Graph_aheadBehind := fun _ _ _ => counts;
     git.Graph_descendantOf := fun _ _ _ => true |}.

Definition ssh_checkout : git.Nodegit :=
  checkout_with "git@github.com:chimaera-node/cli.git" ["v1.0.0"] (0, 0).

Definition https_checkout : git.Nodegit :=
  checkout_with "https://github.com/chimaera-node/cli.git" ["v1.0.0"] (0, 0).

(** A branch that follows no upstream. *)
Definition no_upstream : git.Nodegit :=
  {| git.Repository_open := fun p => Ok p;
     git.Repository_head := fun _ => Ok "refs/heads/topic";
     git.Repository_getReference := fun _ s => Ok s;
     git.Repository_getRemote := fun _ name => Ok name;
     git.Repository_getStatusExt := fun _ => Ok [];
     git.Repository_mergeBranches := fun _ _ => Ok tt;
     git.Branch_upstream := fun _ => Throw "no upstream";
     git.Reference_shorthand := fun _ => "topic";
     git.Reference_target := fun r => Some r;
     git.Reference_peel := fun r => Ok (Some r);
     git.Remote_url := fun _ => "git@github.com:chimaera-node/cli.git";
     git.Tag_list := fun _ => Ok [];
     git.Graph_aheadBehind := fun _ _ _ => (0, 0);
     git.Graph_descendantOf := fun _ _ _ => true |}.

(** A directory whose [.git] cannot be opened as a repository. *)
Definition no_repository : git.Nodegit :=
  {| git.Repository_open := fun _ => Throw "could not find repository";
     git.Repository_head := fun _ => Throw "reference 'HEAD' not found";
     git.Repository_getReference := fun _ _ => Throw "reference not found";
     git.Repository_getRemote := fun _ _ => Throw "remote does not exist";
     git.Repository_getStatusExt := fun _ => Ok [];
     git.Repository_mergeBranches := fun _ _ => Ok tt;
     git.Branch_upstream := fun _ => Throw "no upstream";
     git.Reference_shorthand := fun r => r;
     git.Reference_target := fun _ => None;
     git.Reference_peel := fun _ => Ok None;
     git.Remote_url := fun _ => "";
     git.Tag_list := fun _ => Ok [];
     git.Graph_aheadBehind := fun _ _ _ => (0, 0);
     git.Graph_descendantOf := fun _ _ _ => false |}.

Definition workspace_module : filepath := ["ws"; "cli"].

(** A machine on which nothing can be read and every command succeeds
    without output; [ls] lists the directories. *)
(** A value with no [path], [module] or [fmt_path], like the functions
    every object inherits. *)
Definition no_properties : foreign :=
  {| foreign_path := None;
     foreign_module := NoText "undefined";
     foreign_fmt_path := NoText "undefined" |}.

Definition machine (ls : filepath → result (list string)) : Host :=
  {| readdir := ls;
     read_package := fun _ => Throw "ENOENT";
     read_package_lock := fun _ => Throw "ENOENT";
     stringify_package := fun _ => "{}";
     stringify_package_lock := fun _ => "{}";
     writeFile := fun _ _ => Ok tt;
     remove := fun _ => Ok tt;
     ensureSymlink := fun _ _ => Ok tt;
     execa := fun _ _ _ => Ok "";
     semver_inc := fun v _ => v;
     retry_error := fun errors => default "" (last errors);
     inherited := fun _ _ => Some no_properties;
     read_path := fun _ _ => None;
     HOME := "/home/dev";
     columns := Some 80 |}.

(** A module [/ws/a] with a second checkout and manifest in [/ws/a/sub]. *)
Definition nested_checkout : Host :=
  machine (fun d =>
    if decide (d = ["ws"; "a"]) then Ok [".git"; "package.json"; "sub"]
    else if decide (d = ["ws"; "a"; "sub"]) then Ok [".git"; "package.json"]
    else if decide (d = ["ws"]) then Ok ["a"]
    else Throw "ENOTDIR").

(** The two readings of [_.and], each with a reading of
    [_.isEmpty(undefined)] and of [_.gt] and [_.gte] on [undefined]. *)
Definition lazy_rubico : Rubico :=
  {| and_calls_all := false;
     isEmpty_undefined := Throw "TypeError: cannot size undefined";
     gt_undefined := true;
     gte_undefined := true |}.
Definition eager_rubico : Rubico :=
  {| and_calls_all := true;
     isEmpty_undefined := Ok true;
     gt_undefined := false;
     gte_undefined := false |}.

(** A snapshot whose reads all succeeded. *)
Definition snapshot (dir : filepath) (pkg : Package.t) (tag_list : list string)
    (branch_name : string) (entries : list (string * string))
    (counts : git.ahead_behind) : info :=
  {| path := dir;
     fmt_path := render dir;
     repo := Some (path_join dir ".git");
     origin_url := Some "github.com:chimaera-node/cli.git";
     tags := Some tag_list;
     branch := Some branch_name;
     status := Some entries;
     ahead_behind := Some counts;
     package := Some pkg;
     package_lock := None;
     module := Package.name pkg;
     version := Package.version pkg;
     vmodule := JsString.join_opt "@" [Package.name pkg; Package.version pkg];
     semver := "v" +:+ show (Package.version pkg) |}.

Definition manifest (name version : string) (deps devDeps : list string)
    : Package.t :=
  {| Package.name := Some name;
     Package.version := Some version;
     Package.nopack := false;
     Package.dependencies := Some deps;
     Package.devDependencies := Some devDeps |}.

(** Two unpushed commits, nothing to merge. *)
Definition moduleX : info :=
  snapshot ["ws"; "moduleX"] (manifest "moduleX" "1.0.0" [] []) []
    "main...origin/main" [] (git.Counts 2 0).

(** One commit to merge, nothing to push. *)
Definition moduleY : info :=
  snapshot ["ws"; "moduleY"] (manifest "moduleY" "1.0.0" [] []) []
    "main...origin/main" [] (git.Counts 0 1).

(** On [master], clean and level with [origin/master], version 1.2.3,
    and no tag [v1.2.3] yet. *)
Definition untagged : info :=
  snapshot ["ws"; "fresh"] (manifest "fresh" "1.2.3" [] []) ["v1.2.2"]
    "master...origin/master" [] (git.Counts 0 0).

(** The same with the tag of its version. *)
Definition tagged : info :=
  snapshot ["ws"; "fresh"] (manifest "fresh" "1.2.3" [] []) ["v1.2.2"; "v1.2.3"]
    "master...origin/master" [] (git.Counts 0 0).

(** A checkout of a module released as [v1.2.3], with new commits since,
    on a machine that can read its manifest. *)
Definition released_checkout : git.Nodegit :=
  checkout_with "git@github.com:chimaera-node/fresh.git" ["v1.2.2"; "v1.2.3"] (0, 0).

Definition release_machine : Host :=
  {| readdir := fun d =>
       if decide (d = ["ws"]) then Ok ["fresh"]
       else if decide (d = ["ws"; "fresh"]) then Ok [".git"; "package.json"; "index.js"]
       else Throw "ENOTDIR";
     read_package := fun f =>
       if decide (f = ["ws"; "fresh"; "package.json"])
       then Ok (manifest "fresh" "1.2.3" [] [])
       else Throw "ENOENT";
     read_package_lock := fun _ => Throw "ENOENT";
     stringify_package := fun _ => "{}";
     stringify_package_lock := fun _ => "{}";
     writeFile := fun _ _ => Ok tt;
     remove := fun _ => Ok tt;
     ensureSymlink := fun _ _ => Ok tt;
     execa := fun _ _ _ => Ok "+ fresh@1.2.4";
     semver_inc := fun v bump =>
       if decide (v = Some "1.2.3" ∧ bump = "patch") then Some "1.2.4" else None;
     retry_error := fun errors => default "" (last errors);
     inherited := fun _ _ => Some no_properties;
     read_path := fun _ _ => None;
     HOME := "/home/dev";
     columns := Some 80 |}.

Definition app : info :=
  snapshot ["ws"; "app"] (manifest "app" "1.0.0" ["lib"; "left-pad"] ["lib"]) []
    "master...origin/master" [] (git.Counts 0 0).



(** [chart.js] carries a dot in its name; [plot] depends on it, and on
    [constructor], which no module is named. *)
Definition chart : info :=
  snapshot ["ws"; "chart"] (manifest "chart.js" "2.9.4" [] []) []
    "master...origin/master" [] (git.Counts 0 0).
Definition plot : info :=
  snapshot ["ws"; "plot"] (manifest "plot" "1.0.0" ["chart.js"] ["constructor"]) []
    "master...origin/master" [] (git.Counts 0 0).

End Fixtures.


(** ** Vocabulary of the further properties *)

Module Props.

(** [p] is a module the locator meets when it walks down from the root
    [r]: every directory on the way can be listed, lists the next
    segment and is not itself a module. *)
Definition descends (host : Host) (r p : filepath) : Prop :=
  ∃ rest,
    p = r ++ rest
    ∧ Spec.is_module host p
    ∧ ∀ k seg, rest !! k = Some seg →
        ∃ entries,
          readdir host (r ++ take k rest) = Ok entries
          ∧ seg ∈ entries
          ∧ ¬ (".git" ∈ entries ∧ "package.json" ∈ entries).

(** A name in which every dot is followed by a character that is not a
    dot: no two dots in a row and no dot at the end, as git demands of
    every branch name. *)
Fixpoint dots_ok (s : string) : bool :=
  match s with
  | EmptyString => true
  | String c s' =>
      if Ascii.eqb "." c
      then match s' with
           | EmptyString => false
           | String c' _ => negb (Ascii.eqb "." c') && dots_ok s'
           end
      else dots_ok s'
  end.

(** [s.includes(pat)] *)
Fixpoint includes (pat s : string) : bool :=
  JsString.startsWith pat s
  || match s with
     | EmptyString => false
     | String _ s' => includes pat s'
     end.

(** The names [getCurrentBranchName] joins: the shorthand of HEAD, then
    that of its upstream when there is one. *)
Definition branch_names (ng : git.Nodegit)
    (hu : git.reference * option git.reference) : list string :=
  git.Reference_shorthand ng hu.1
    :: from_option (fun u => [git.Reference_shorthand ng u]) [] hu.2.

(** Segments [nodePath.join] leaves as they are. *)
Definition plain_segments (segments : list string) : Prop :=
  Forall (fun seg => seg ≠ "" ∧ seg ≠ "." ∧ seg ≠ "..") segments.

(** The manifest of a bumped module, and its lockfile if it has one, were
    written. *)
Definition manifests_written (host : Host) (y : bumped) : Prop :=
  outcome (writePackage host y) = Ok tt
  ∧ (is_Some (package_lock (base y)) →
     outcome (writePackageLock host y) = Ok tt).

End Props.

(** ** Further concrete inputs *)

Module Samples.

(** A workspace [/ws] with one module [a]. *)
Definition workspace : Spec.tree :=
  Spec.Dir
    (Spec.Entry "ws"
       (Spec.Dir
          (Spec.Entry "a"
             (Spec.Dir
                (Spec.Entry ".git" (Spec.Dir Spec.Empty)
                   (Spec.Entry "package.json" Spec.File Spec.Empty)))
             Spec.Empty))
       Spec.Empty).

(** A machine with the modules [/ws/app] and [/ws/lib]; [app] depends on
    [lib]. *)
Definition link_machine : Host :=
  {| readdir := fun d =>
       if decide (d = ["ws"]) then Ok ["app"; "lib"]
       else if decide (d = ["ws"; "app"]) then Ok [".git"; "package.json"]
       else if decide (d = ["ws"; "lib"]) then Ok [".git"; "package.json"]
       else Throw "ENOTDIR";
     read_package := fun f =>
       if decide (f = ["ws"; "app"; "package.json"])
       then Ok (Fixtures.manifest "app" "1.0.0" ["lib"] [])
       else if decide (f = ["ws"; "lib"; "package.json"])
       then Ok (Fixtures.manifest "lib" "1.0.0" [] [])
       else Throw "ENOENT";
     read_package_lock := fun _ => Throw "ENOENT";
     stringify_package := fun _ => "{}";
     stringify_package_lock := fun _ => "{}";
     writeFile := fun _ _ => Ok tt;
     remove := fun _ => Ok tt;
     ensureSymlink := fun _ _ => Ok tt;
     execa := fun _ _ _ => Ok "";
     semver_inc := fun v _ => v;
     retry_error := fun errors => default "" (last errors);
     inherited := fun _ _ => Some Fixtures.no_properties;
     read_path := fun _ _ => None;
     HOME := "/home/dev";
     columns := Some 80 |}.

End Samples.


(** ** Strings: splitting and joining *)

Module JsStringFacts.
Import JsString.

Lemma app_nil_l (s : string) : "" +:+ s = s.
Proof. done. Qed.

Lemma app_cons (c : ascii) (s t : string) :
  String c s +:+ t = String c (s +:+ t).
Proof. done. Qed.

Lemma app_nil_r (s : string) : s +:+ "" = s.
Proof. induction s as [|c s IH]; [done | by rewrite app_cons, IH]. Qed.

Lemma app_assoc (s t u : string) : (s +:+ t) +:+ u = s +:+ t +:+ u.
Proof. induction s as [|c s IH]; [done | by rewrite !app_cons, IH]. Qed.

Lemma startsWith_drop (p s : string) :
  startsWith p s = true → s = p +:+ drop (String.length p) s.
Proof.
  revert s. induction p as [|a p IH]; intros [|b s]; simpl; try done.
  destruct (Ascii.eqb_spec a b) as [->|]; [|done].
  intros H. rewrite app_cons. f_equal. by apply IH.
Qed.

Lemma startsWith_length (p s : string) :
  startsWith p s = true → String.length p ≤ String.length s.
Proof.
  revert s. induction p as [|a p IH]; intros [|b s]; simpl; try done; try lia.
  destruct (Ascii.eqb a b); [|done]. intros H. specialize (IH s H). lia.
Qed.

Lemma split_go_cons (sep : string) (k : nat) (cur s : string) :
  ∃ x rest, split_go sep k cur s = x :: rest.
Proof.
  revert k cur. induction s as [|c s IH]; intros k cur; simpl; [by eauto |].
  destruct k as [|k]; [|by apply IH].
  destruct (startsWith sep (String c s)); [by eauto | by apply IH].
Qed.

Lemma join_cons (sep x : string) (xs : list string) :
  xs ≠ [] → join sep (x :: xs) = x +:+ sep +:+ join sep xs.
Proof. by destruct xs. Qed.

(** Joining the pieces gives the string back: the pieces of [s] after
    [k] characters still to skip, with [cur] already read. *)
Lemma join_split_go (sep : string) :
  sep ≠ "" →
  ∀ (s : string) (k : nat) (cur : string),
    k ≤ String.length s →
    join sep (split_go sep k cur s) = cur +:+ drop k s.
Proof.
  intros Hsep. induction s as [|c s IH]; intros k cur Hk; simpl in *.
  - assert (k = 0) as -> by lia. simpl. by rewrite app_nil_r.
  - destruct k as [|k]; simpl.
    + destruct (startsWith sep (String c s)) eqn:Hpre.
      * destruct (split_go_cons sep (String.length sep - 1) "" s) as (x & rest & Hx).
        pose proof (startsWith_length _ _ Hpre) as Hlen. simpl in Hlen.
        assert (String.length sep ≠ 0) as Hn by (by destruct sep).
        rewrite join_cons by (rewrite Hx; done).
        rewrite IH by lia. rewrite app_nil_l.
        pose proof (startsWith_drop _ _ Hpre) as Hs.
        replace (String.length sep) with (S (String.length sep - 1)) in Hs by lia.
        simpl in Hs. by rewrite <- Hs.
      * rewrite IH by lia. simpl. by rewrite app_assoc.
    + apply IH. lia.
Qed.

Lemma join_split (sep s : string) : sep ≠ "" → join sep (split sep s) = s.
Proof. intros Hsep. unfold split. by rewrite join_split_go by (done || lia). Qed.

(** A string that splits in two is the two pieces around the separator. *)
Lemma split_two (sep s : string) :
  sep ≠ "" → length (split sep s) = 2 →
  ∃ l u, split sep s = [l; u] ∧ s = l +:+ sep +:+ u.
Proof.
  intros Hsep Hlen. pose proof (join_split sep s Hsep) as Hjoin.
  destruct (split sep s) as [|l [|u [|? ?]]]; simplify_eq/=.
  by exists l, u.
Qed.

(** Without the separator character there is one piece, the string. *)
Lemma split_go_absent (c : ascii) (s cur : string) :
  occurs c s = false →
  split_go (String c "") 0 cur s = [cur +:+ s].
Proof.
  revert cur. induction s as [|a s IH]; intros cur; simpl.
  - by rewrite app_nil_r.
  - destruct (Ascii.eqb c a); [done |]. intros H.
    rewrite (IH _ H). by rewrite app_assoc.
Qed.

Lemma split_absent (c : ascii) (s : string) :
  occurs c s = false → split (String c "") s = [s].
Proof. intros H. unfold split. by rewrite split_go_absent. Qed.

End JsStringFacts.

(** ** Computations: outcome and trace of the combinators *)

Section eff_facts.
Context {A B : Type}.
Implicit Types (m : Eff A) (f : A → Eff B).

Lemma outcome_bind m f :
  outcome (m ≫= f) =
    match outcome m with Ok a => outcome (f a) | Throw e => Throw e end.
Proof. unfold mbind, Eff_bind. by destruct (outcome m). Qed.

Lemma trace_bind m f :
  trace (m ≫= f) =
    trace m ++ match outcome m with Ok a => trace (f a) | Throw _ => [] end.
Proof.
  unfold mbind, Eff_bind. destruct (outcome m); simpl; [done|].
  by rewrite app_nil_r.
Qed.

Lemma outcome_bind_Ok m f b :
  outcome (m ≫= f) = Ok b → ∃ a, outcome m = Ok a ∧ outcome (f a) = Ok b.
Proof. rewrite outcome_bind. destruct (outcome m); [eauto | done]. Qed.

Lemma elem_of_trace_bind m f e :
  e ∈ trace (m ≫= f) →
  e ∈ trace m ∨ ∃ a, outcome m = Ok a ∧ e ∈ trace (f a).
Proof.
  rewrite trace_bind, elem_of_app. intros [?|H]; [by left|].
  destruct (outcome m); [right; eauto | by apply elem_of_nil in H].
Qed.

Lemma outcome_map_all_cons (g : A → Eff B) x xs :
  outcome (map_all g (x :: xs)) =
    match outcome (g x), outcome (map_all g xs) with
    | Ok b, Ok bs => Ok (b :: bs)
    | Throw e, _ => Throw e
    | Ok _, Throw e => Throw e
    end.
Proof. done. Qed.

Lemma trace_map_all_cons (g : A → Eff B) x xs :
  trace (map_all g (x :: xs)) = trace (g x) ++ trace (map_all g xs).
Proof. done. Qed.

(** [_.map] resolves to the results of the calls, in order. *)
Lemma map_all_Ok (g : A → Eff B) xs ys :
  outcome (map_all g xs) = Ok ys ↔ Forall2 (fun x y => outcome (g x) = Ok y) xs ys.
Proof.
  revert ys. induction xs as [|x xs IH]; intros ys.
  - split; [intros [= <-]; constructor | by inversion 1].
  - rewrite outcome_map_all_cons. split.
    + destruct (outcome (g x)) eqn:Hx; [|done].
      destruct (outcome (map_all g xs)) eqn:Hxs; [|done].
      intros [= <-]. constructor; [done | by apply IH].
    + inversion 1 as [|? y ? ys' Hy Hys]; subst.
      rewrite Hy. apply IH in Hys. by rewrite Hys.
Qed.

(** Every event of a [_.map] is an event of one of its calls. *)
Lemma elem_of_trace_map_all (g : A → Eff B) xs e :
  e ∈ trace (map_all g xs) ↔ ∃ x, x ∈ xs ∧ e ∈ trace (g x).
Proof.
  induction xs as [|x xs IH].
  - simpl. split; [by intros ?%elem_of_nil | by intros (? & ?%elem_of_nil & _)].
  - rewrite trace_map_all_cons, elem_of_app, IH. split.
    + intros [?|(y & ? & ?)]; [exists x | exists y]; split; try done;
        [by left | by right].
    + intros (y & [->|?]%elem_of_cons & ?); [by left | right; eauto].
Qed.

End eff_facts.

(** ** Conjunctions of predicates *)

Section and_facts.
Context (rb : Rubico).
Implicit Types (cs : list (Eff bool)).

Lemma and_lazy_true cs :
  outcome (and_lazy cs) = Ok true ↔ Forall (fun c => outcome c = Ok true) cs.
Proof.
  induction cs as [|c cs IH]; simpl.
  - split; [constructor | done].
  - rewrite outcome_bind, Forall_cons, <- IH.
    destruct (outcome c) as [[]|]; simpl; intuition congruence.
Qed.

Lemma and_all_true cs :
  outcome (and_all cs) = Ok true ↔ Forall (fun c => outcome c = Ok true) cs.
Proof.
  unfold and_all. rewrite outcome_bind. split.
  - destruct (outcome (map_all id cs)) as [bs|] eqn:Hbs; [|done].
    apply map_all_Ok in Hbs. simpl. intros [= Hall].
    induction Hbs as [|c b cs bs Hc _ IH]; [constructor|].
    simpl in Hall. apply andb_prop in Hall as [Hb Hall].
    constructor; [|by apply IH]. unfold id in *. by rewrite Hc, Hb.
  - intros Hall.
    assert (outcome (map_all id cs) = Ok (map (fun _ => true) cs)) as ->.
    { apply map_all_Ok. induction Hall; constructor; done. }
    simpl. f_equal. clear. by induction cs.
Qed.

(** [_.and] resolves to [true] exactly when every predicate does. *)
Lemma and_true cs :
  outcome (and_ rb cs) = Ok true ↔ Forall (fun c => outcome c = Ok true) cs.
Proof.
  unfold and_. destruct (and_calls_all rb);
    [apply and_all_true | apply and_lazy_true].
Qed.

Lemma elem_of_trace_and_lazy cs e :
  e ∈ trace (and_lazy cs) → ∃ c, c ∈ cs ∧ e ∈ trace c.
Proof.
  induction cs as [|c cs IH]; simpl.
  - by intros ?%elem_of_nil.
  - intros [?|(b & _ & Hb)]%elem_of_trace_bind.
    + exists c. split; [by left | done].
    + destruct b; [|by apply elem_of_nil in Hb].
      destruct (IH Hb) as (c' & ? & ?). exists c'. split; [by right | done].
Qed.

(** Every event of [_.and] is an event of one of the predicates. *)
Lemma elem_of_trace_and cs e :
  e ∈ trace (and_ rb cs) → ∃ c, c ∈ cs ∧ e ∈ trace c.
Proof.
  unfold and_, and_all. destruct (and_calls_all rb).
  - intros [H|(? & _ & H)]%elem_of_trace_bind.
    + by apply elem_of_trace_map_all in H.
    + by apply elem_of_nil in H.
  - apply elem_of_trace_and_lazy.
Qed.

End and_facts.

(** ** Module Locator *)

Section uniq_facts.
Context {A : Type} `{EqDecision A}.

Lemma elem_of_uniq_go (seen xs : list A) (x : A) :
  x ∈ uniq_go seen xs ↔ x ∈ xs ∧ x ∉ seen.
Proof.
  revert seen. induction xs as [|y xs IH]; intros seen; simpl.
  - split; [by intros ?%elem_of_nil | by intros [?%elem_of_nil _]].
  - destruct (decide (y ∈ seen)) as [Hin|Hnot].
    + rewrite IH, elem_of_cons. split; [tauto|].
      intros [[->|?] ?]; [done | tauto].
    + rewrite !elem_of_cons, IH, elem_of_cons. split.
      * intros [->|[? ?]]; tauto.
      * intros [[->|?] ?]; [by left|].
        destruct (decide (x = y)) as [->|]; [by left | right; tauto].
Qed.

Lemma elem_of_uniq (xs : list A) (x : A) : x ∈ uniq xs ↔ x ∈ xs.
Proof.
  unfold uniq. rewrite elem_of_uniq_go. split; [tauto|].
  intros ?. split; [done | by intros ?%elem_of_nil].
Qed.

Lemma NoDup_uniq_go (seen xs : list A) : NoDup (uniq_go seen xs).
Proof.
  revert seen. induction xs as [|y xs IH]; intros seen; simpl.
  - constructor.
  - destruct (decide (y ∈ seen)); [apply IH|].
    constructor; [|apply IH].
    rewrite elem_of_uniq_go. intros [_ Hnot]. apply Hnot. by left.
Qed.

(** [_.uniq] leaves every element once. *)
Lemma NoDup_uniq (xs : list A) : NoDup (uniq xs).
Proof. apply NoDup_uniq_go. Qed.

End uniq_facts.

Section locator_facts.
Context (host : Host).

Lemma has_true (s : string) (xs : list string) : has s xs = true ↔ s ∈ xs.
Proof. apply bool_decide_eq_true. Qed.

(** A listed directory is a module exactly when the test of
    [findModules] says so. *)
Lemma is_module_listed (d : filepath) (entries : list string) :
  readdir host d = Ok entries →
  (has ".git" entries && has "package.json" entries = true
   ↔ Spec.is_module host d).
Proof.
  intros Hls. rewrite andb_true_iff, !has_true. split.
  - intros [? ?]. by exists entries.
  - intros (es & Hes & ? & ?). rewrite Hls in Hes. by injection Hes as <-.
Qed.

Lemma Forall2_elem_of_r {A B} (P : A → B → Prop) (l : list A) (k : list B) y :
  Forall2 P l k → y ∈ k → ∃ x, x ∈ l ∧ P x y.
Proof.
  induction 1 as [|x y' l k Hxy _ IH]; [by intros ?%elem_of_nil|].
  intros [->|Hy]%elem_of_cons.
  - exists x. split; [by left | done].
  - destruct (IH Hy) as (x' & ? & ?). exists x'. split; [by right | done].
Qed.

(** Every path [findModules] returns is a module reached from one of the
    given paths through directories that are not modules. *)
Lemma findModules_reached (fuel : nat) :
  ∀ (paths found : list filepath),
    findModules host fuel paths = Some found →
    ∀ p, p ∈ found → ∃ r, r ∈ paths ∧ Spec.reached_from host r p.
Proof.
  induction fuel as [|fuel IH]; intros paths found Hfind p Hp; [done|].
  simpl in Hfind.
  apply bind_Some in Hfind as (nested & Hnested & [= <-]).
  rewrite elem_of_uniq in Hp.
  apply list_elem_of_join in Hp as (l & Hpl & Hl).
  apply mapM_Some in Hnested.
  destruct (Forall2_elem_of_r _ _ _ _ Hnested Hl) as ([r entries] & Hlisted & Hstep).
  apply list_elem_of_omap in Hlisted as (r' & Hr' & Hls).
  destruct (readdir host r') as [es|] eqn:Hread; [|done].
  simpl in Hls. injection Hls as -> ->. simpl in Hstep.
  exists r. split; [done|].
  destruct (has ".git" entries && has "package.json" entries) eqn:Htest.
  - injection Hstep as <-. apply list_elem_of_singleton in Hpl as ->.
    exists []. rewrite app_nil_r. split; [done|]. split.
    + by apply (is_module_listed r entries).
    + simpl. lia.
  - destruct (IH _ _ Hstep p Hpl) as (child & Hchild & rest & -> & Hmod & Hnot).
    apply list_elem_of_fmap in Hchild as (y & -> & _).
    exists (y :: rest). unfold path_join in *. rewrite <- app_assoc. simpl.
    split; [done|]. split; [by rewrite <- app_assoc in Hmod|].
    intros [|k] Hk; simpl.
    + rewrite app_nil_r. intros Hr%(is_module_listed r entries); [|done].
      by rewrite Hr in Htest.
    + simpl in Hk. specialize (Hnot k ltac:(lia)).
      by rewrite <- app_assoc in Hnot.
Qed.

(** Two prefixes of one path: the shorter is a prefix of the longer. *)
Lemma prefix_of_same (p rest r s : filepath) :
  p ++ rest = r ++ s →
  length r ≤ length p →
  p = r ++ take (length p - length r) s.
Proof.
  intros Heq Hlen.
  rewrite <- (take_app_length p rest) at 1.
  rewrite Heq, take_app. by rewrite take_ge.
Qed.

(** *** The locator returns on a finite directory tree *)

Lemma child_height (name : string) (entries : Spec.forest) (t : Spec.tree) :
  Spec.child name entries = Some t →
  Spec.height t ≤ Spec.height_forest entries.
Proof.
  induction entries as [|n t' rest IH]; simpl; [done|].
  destruct (decide (n = name)); [intros [= ->]; lia|].
  intros Hc%IH. lia.
Qed.

Lemma enter_height (name : string) (t t' : Spec.tree) :
  Spec.enter name t = Some t' → Spec.height t' < Spec.height t.
Proof.
  destruct t as [|entries]; simpl; [done|].
  intros Hc%child_height. lia.
Qed.

Lemma subtree_snoc (t : Spec.tree) (p : filepath) (name : string) :
  Spec.subtree t (p ++ [name]) = Spec.subtree t p ≫= Spec.enter name.
Proof.
  revert t. induction p as [|n p IH]; intros t; simpl.
  - by destruct (Spec.enter name t).
  - destruct (Spec.enter n t) as [t'|]; simpl; [apply IH | done].
Qed.

Lemma height_at_snoc (t : Spec.tree) (p : filepath) (name : string)
    (entries : Spec.forest) :
  Spec.subtree t p = Some (Spec.Dir entries) →
  Spec.height_at t (p ++ [name]) < Spec.height_at t p.
Proof.
  intros Hp. unfold Spec.height_at. rewrite subtree_snoc, Hp. simpl.
  destruct (Spec.child name entries) as [t'|] eqn:Hc; simpl; [|lia].
  apply child_height in Hc. lia.
Qed.

Lemma height_at_le (t : Spec.tree) (p : filepath) :
  Spec.height_at t p ≤ Spec.height t.
Proof.
  unfold Spec.height_at. revert t.
  induction p as [|n p IH]; intros t; simpl; [done|].
  destruct (Spec.enter n t) as [t'|] eqn:Ht; simpl; [|lia].
  apply enter_height in Ht. specialize (IH t'). lia.
Qed.

Lemma findModules_S (fuel : nat) (paths : list filepath) :
  findModules host (S fuel) paths
  = (nested ← mapM (fun x : filepath * list string =>
                      if has ".git" x.2 && has "package.json" x.2
                      then Some [x.1]
                      else findModules host fuel (map (path_join x.1) x.2))
                   (omap (fun x => pair x <$> tryCatch (readdir host x)) paths);
     Some (uniq (mjoin nested))).
Proof. done. Qed.

Lemma omap_all_None {A B} (f : A → option B) (l : list A) :
  Forall (fun x => f x = None) l → omap f l = [].
Proof.
  induction 1 as [|x l Hx _ IH]; [done|].
  change (omap f (x :: l)) with
    (match f x with Some y => y :: omap f l | None => omap f l end).
  by rewrite Hx.
Qed.

(** With fuel above the height of everything it is asked to scan,
    [findModules] returns. *)
Lemma findModules_returns (t : Spec.tree) :
  (∀ p, readdir host p = Spec.readdir_of t p) →
  ∀ (fuel : nat) (paths : list filepath),
    (∀ p, p ∈ paths → Spec.height_at t p ≤ fuel) →
    is_Some (findModules host (S fuel) paths).
Proof.
  intros Hls. induction fuel as [|fuel IH]; intros paths Hheight.
  - rewrite findModules_S.
    assert (omap (fun x => pair x <$> tryCatch (readdir host x)) paths = [])
      as ->; [|by eexists].
    apply omap_all_None, Forall_forall. intros p Hp. specialize (Hheight p Hp).
    rewrite Hls. unfold Spec.readdir_of, Spec.height_at in *.
    destruct (Spec.subtree t p) as [[|entries]|]; simpl in *; [done | lia | done].
  - rewrite findModules_S.
    set (listed := omap _ paths).
    assert (is_Some (mapM (fun x : filepath * list string =>
                if has ".git" x.2 && has "package.json" x.2
                then Some [x.1]
                else findModules host (S fuel) (map (path_join x.1) x.2))
              listed)) as [nested ->]; [|by eexists].
    apply mapM_is_Some, Forall_forall. intros [r es] Hr.
    unfold compose. cbn [fst snd].
    destruct (has ".git" es && has "package.json" es); [by eexists|].
    apply IH. intros c (name & -> & _)%list_elem_of_fmap.
    apply list_elem_of_omap in Hr as (r' & Hr' & Hread).
    rewrite Hls in Hread. unfold Spec.readdir_of in Hread.
    destruct (Spec.subtree t r') as [[|entries]|] eqn:Hsub; simplify_eq/=.
    pose proof (height_at_snoc t r name entries Hsub) as Hlt.
    specialize (Hheight r Hr'). unfold path_join. lia.
Qed.

End locator_facts.

(** ** Dependency Linker *)

Section linker_facts.
Context (host : Host).
Implicit Types (xs : list info) (ks : list string).

Lemma moduleStore_snoc xs (b : info) :
  moduleStore (xs ++ [b]) = <[Spec.name_of b := b]> (moduleStore xs).
Proof. unfold moduleStore. by rewrite foldl_snoc. Qed.

(** What is stored under a name is the last discovered snapshot of that
    name. *)
Lemma moduleStore_lookup xs (k : string) :
  moduleStore xs !! k = Spec.last_named k xs.
Proof.
  unfold Spec.last_named.
  induction xs as [|b xs IH] using rev_ind; [done|].
  rewrite moduleStore_snoc, filter_app, filter_cons, filter_nil.
  destruct (decide (Spec.name_of b = k)) as [<-|Hne].
  - by rewrite lookup_insert_eq, last_snoc.
  - by rewrite lookup_insert_ne, app_nil_r.
Qed.

Lemma last_named_name xs (k : string) (s : info) :
  Spec.last_named k xs = Some s → Spec.name_of s = k ∧ s ∈ xs.
Proof.
  intros Hlast%last_Some_elem_of. by apply list_elem_of_filter in Hlast.
Qed.


(** A string that holds the separator splits into two pieces at least. *)
Lemma split_go_present (c : ascii) (s : string) :
  ∀ cur, JsString.occurs c s = true →
         ∃ x y rest, JsString.split_go (String c "") 0 cur s = x :: y :: rest.
Proof.
  induction s as [|a s IH]; intros cur Hc; [done|].
  cbn [JsString.occurs] in Hc. cbn [JsString.split_go JsString.startsWith].
  destruct (Ascii.eqb c a) eqn:Hca.
  - destruct (JsStringFacts.split_go_cons (String c "") 0 "" s)
      as (y & rest & Hrest).
    exists cur, y, rest. simpl. by rewrite Hrest.
  - by apply IH.
Qed.

(** The property of the store a name without a dot is looked up as. *)
Lemma lookup_undotted (store : gmap string info) (k : string) :
  JsString.occurs "." k = false →
  lookup host store k = lookup_property host store k.
Proof.
  intros Hk. unfold lookup. by rewrite (JsStringFacts.split_absent "." k Hk).
Qed.

(** A name with a dot never gives a snapshot. *)
Lemma lookup_dotted (store : gmap string info) (k : string) (s : info) :
  JsString.occurs "." k = true → lookup host store k ≠ Some (Snapshot s).
Proof.
  intros Hk. unfold lookup, JsString.split.
  destruct (split_go_present "." k "" Hk) as (x & y & rest & ->).
  destruct (lookup_property host store x) as [v|]; [|done]. simpl.
  by destruct (read_path host v (y :: rest)).
Qed.

Lemma lookup_property_snapshot (store : gmap string info) (k : string) (s : info) :
  lookup_property host store k = Some (Snapshot s) ↔ store !! k = Some s.
Proof.
  unfold lookup_property. destruct (store !! k) as [s'|].
  - split; by intros [= ->].
  - split; [|done].
    destruct (has k object_prototype || _); [|done].
    by destruct (inherited host _ k).
Qed.

(** The snapshot a lookup gives, if it gives one. *)
Lemma lookup_snapshot xs (k : string) (s : info) :
  lookup host (moduleStore xs) k = Some (Snapshot s)
  ↔ Spec.stored_for k xs = Some s.
Proof.
  unfold Spec.stored_for. destruct (JsString.occurs "." k) eqn:Hk.
  - split; [|done]. intros Hs. by apply lookup_dotted in Hs.
  - by rewrite lookup_undotted, lookup_property_snapshot, moduleStore_lookup.
Qed.

Lemma stored_for_name xs (k : string) (s : info) :
  Spec.stored_for k xs = Some s →
  JsString.occurs "." k = false ∧ Spec.name_of s = k ∧ s ∈ xs.
Proof.
  unfold Spec.stored_for. destruct (JsString.occurs "." k); [done|].
  intros Hs%last_named_name. by split.
Qed.







Lemma computeSymlinks_elem xs (l : linked) :
  l ∈ computeSymlinks host xs →
  target l ∈ xs
  ∧ symlinks l = omap (lookup host (moduleStore xs))
                      (Spec.regular (target l) ++ Spec.development (target l)).
Proof.
  unfold computeSymlinks.
  by intros (m & -> & Hm)%list_elem_of_fmap.
Qed.

End linker_facts.

(** ** Traces of the combinators *)

Section trace_facts.
Context {A B : Type}.
Implicit Types (m : Eff A) (f : A → Eff B) (P : event → Prop).

Lemma outcome_try_catch m (h : string → list event) :
  outcome (try_catch m h) = Ok (tryCatch (outcome m)).
Proof. unfold try_catch. by destruct (outcome m). Qed.

Lemma trace_try_catch m (h : string → list event) :
  trace (try_catch m h)
  = trace m ++ match outcome m with Ok _ => [] | Throw e => h e end.
Proof.
  unfold try_catch. destruct (outcome m); simpl; [|done].
  by rewrite app_nil_r.
Qed.

Lemma only_mret P (a : A) : Spec.only P (mret a : Eff A).
Proof. constructor. Qed.

Lemma only_lift P (r : result A) : Spec.only P (lift r).
Proof. constructor. Qed.

Lemma only_emit P (e : event) : P e → Spec.only P (emit e).
Proof. intros He. by repeat constructor. Qed.

Lemma only_bind P m f :
  Spec.only P m →
  (∀ a, outcome m = Ok a → Spec.only P (f a)) →
  Spec.only P (m ≫= f).
Proof.
  unfold Spec.only. intros Hm Hf. rewrite trace_bind.
  apply Forall_app. split; [done|].
  destruct (outcome m); [by apply Hf | constructor].
Qed.

Lemma only_try_catch P m (h : string → list event) :
  Spec.only P m → (∀ e, Forall P (h e)) → Spec.only P (try_catch m h).
Proof.
  unfold Spec.only. intros Hm Hh. rewrite trace_try_catch.
  apply Forall_app. split; [done|]. destruct (outcome m); [constructor | done].
Qed.

Lemma only_map_all P (g : A → Eff B) (xs : list A) :
  (∀ x, x ∈ xs → Spec.only P (g x)) → Spec.only P (map_all g xs).
Proof.
  unfold Spec.only. intros Hg. apply Forall_forall.
  intros e (x & Hx & He)%elem_of_trace_map_all.
  specialize (Hg x Hx). rewrite Forall_forall in Hg. by apply Hg.
Qed.

Lemma report_of_bind m f :
  Spec.report_of (m ≫= f)
  = Spec.report_of m
    ++ match outcome m with Ok a => Spec.report_of (f a) | Throw _ => [] end.
Proof.
  unfold Spec.report_of. rewrite trace_bind, filter_app.
  by destruct (outcome m).
Qed.

Lemma report_of_map_all_cons (g : A → Eff B) x xs :
  Spec.report_of (map_all g (x :: xs))
  = Spec.report_of (g x) ++ Spec.report_of (map_all g xs).
Proof. unfold Spec.report_of. by rewrite trace_map_all_cons, filter_app. Qed.

Lemma discreet_quiet m : Spec.discreet m → Spec.quiet m.
Proof.
  unfold Spec.discreet, Spec.quiet, Spec.only. intros Hm.
  eapply Forall_impl; [exact Hm|]. by intros e [? _].
Qed.

Lemma discreet_report m : Spec.discreet m → Spec.report_of m = [].
Proof.
  unfold Spec.discreet, Spec.only, Spec.report_of.
  induction 1 as [|e l [_ He] _ IH]; [done|].
  rewrite filter_cons, decide_False by congruence. done.
Qed.

End trace_facts.

Lemma only_filter_all {A} (P : event → Prop) (p : A → Eff bool) (xs : list A) :
  (∀ x, x ∈ xs → Spec.only P (p x)) → Spec.only P (filter_all p xs).
Proof.
  intros Hp. unfold filter_all. apply only_bind.
  - apply only_map_all. intros x Hx. apply only_bind; [by apply Hp|].
    intros. apply only_mret.
  - intros. apply only_mret.
Qed.

(** [_.filter] resolves to the elements whose predicate resolved to [true]. *)
Lemma filter_all_Ok {A} (p : A → Eff bool) (xs ys : list A) :
  outcome (filter_all p xs) = Ok ys →
  ∀ y, y ∈ ys → y ∈ xs ∧ outcome (p y) = Ok true.
Proof.
  unfold filter_all. intros (keep & Hkeep & [= <-])%outcome_bind_Ok y Hy.
  apply map_all_Ok in Hkeep.
  apply list_elem_of_fmap in Hy as ([y' b] & -> & Hyb).
  apply list_elem_of_filter in Hyb as [Hb Hyb]. simpl in Hb. subst b.
  destruct (Forall2_elem_of_r _ _ _ _ Hkeep Hyb) as (x & Hx & Hstep).
  apply outcome_bind_Ok in Hstep as (b & Hpx & [= -> ->]). done.
Qed.

(** ** Traces of the engine *)

Ltac only_step :=
  first
    [ apply only_mret
    | apply only_lift
    | apply only_emit; repeat split; reflexivity
    | apply only_try_catch; [|intros ?; repeat constructor]
    | apply only_bind; [|intros ? ?] ].

Section engine_facts.
Context (rb : Rubico) (ng : git.Nodegit) (host : Host).

(** Reading a snapshot changes nothing and reports nothing: a failed read
    prints its error and leaves the field empty. *)
Lemma getInfo_discreet (x : filepath) : Spec.discreet (getInfo ng host x).
Proof. unfold getInfo, Spec.discreet. repeat only_step. Qed.

(** Reading a snapshot never throws. *)
Lemma getInfo_completes (x : filepath) :
  ∃ i, outcome (getInfo ng host x) = Ok i ∧ path i = x.
Proof.
  unfold getInfo.
  repeat (rewrite outcome_bind, outcome_try_catch; cbv beta iota).
  eexists. split; reflexivity.
Qed.

Lemma map_all_completes {A B} (g : A → Eff B) (xs : list A) :
  (∀ x, x ∈ xs → Spec.completes (g x)) → Spec.completes (map_all g xs).
Proof.
  induction xs as [|x xs IH]; intros Hg; [by eexists|].
  destruct (Hg x ltac:(by left)) as [b Hb].
  destruct IH as [bs Hbs]; [intros; apply Hg; by right|].
  exists (b :: bs). by rewrite outcome_map_all_cons, Hb, Hbs.
Qed.

Lemma getInfo_all_completes (mods : list filepath) :
  Spec.completes (map_all (getInfo ng host) mods).
Proof.
  apply map_all_completes. intros x _.
  destruct (getInfo_completes x) as (i & Hi & _). by exists i.
Qed.

Lemma getInfo_all_discreet (mods : list filepath) :
  Spec.discreet (map_all (getInfo ng host) mods).
Proof. apply only_map_all. intros x _. apply getInfo_discreet. Qed.

Lemma only_and (P : event → Prop) (cs : list (Eff bool)) :
  (∀ c, c ∈ cs → Spec.only P c) → Spec.only P (and_ rb cs).
Proof.
  intros Hcs. apply Forall_forall.
  intros e (c & Hc & He)%elem_of_trace_and.
  specialize (Hcs c Hc). unfold Spec.only in Hcs.
  rewrite Forall_forall in Hcs. by apply Hcs.
Qed.

Lemma status_isEmpty_trace (x : info) : trace (status_isEmpty rb x) = [].
Proof. unfold status_isEmpty. by destruct (status x). Qed.

Lemma branch_has_two_parts_trace (x : info) : trace (branch_has_two_parts x) = [].
Proof. unfold branch_has_two_parts. by destruct (branch x). Qed.

Lemma push_predicate_discreet (x : info) : Spec.discreet (push_predicate rb x).
Proof.
  apply only_and. unfold push_conjuncts. intros c Hc.
  repeat (apply elem_of_cons in Hc as [->|Hc]);
    try (by apply elem_of_nil in Hc); try apply only_mret.
  unfold Spec.only. rewrite branch_has_two_parts_trace. constructor.
Qed.

Lemma merge_predicate_discreet (x : info) : Spec.discreet (merge_predicate rb x).
Proof.
  apply only_and. unfold merge_conjuncts. intros c Hc.
  repeat (apply elem_of_cons in Hc as [->|Hc]);
    try (by apply elem_of_nil in Hc); try apply only_mret.
  - unfold Spec.only. rewrite branch_has_two_parts_trace. constructor.
  - unfold Spec.only. rewrite status_isEmpty_trace. constructor.
Qed.

Lemma dist_predicate_discreet (x : info) : Spec.discreet (dist_predicate rb ng x).
Proof.
  apply only_and. unfold dist_conjuncts. intros c Hc.
  repeat (apply elem_of_cons in Hc as [->|Hc]);
    try (by apply elem_of_nil in Hc); try apply only_mret.
  - unfold dist_tag_conjunct.
    destruct (has (semver x) (default [] (tags x))); repeat only_step.
  - unfold Spec.only. rewrite status_isEmpty_trace. constructor.
Qed.

Lemma only_neatLogRest (P : event → Prop) (indent cur : nat)
    (rest : list (option string)) :
  (∀ text, P (Stdout text)) → Spec.only P (neatLogRest host indent cur rest).
Proof.
  intros HP. revert cur.
  induction rest as [|[s|] rest IH]; intros cur; simpl;
    [apply only_mret | | apply only_lift].
  destruct (line_is_full host cur s);
    (apply only_bind; [apply only_emit, HP | intros; apply IH]).
Qed.

(** [neatLogCollection] only prints. *)
Lemma only_neatLogCollection (P : event → Prop)
    (x : list (option string)) (lineStart : string) :
  (∀ text, P (Stdout text)) → Spec.only P (neatLogCollection host x lineStart).
Proof.
  intros HP. unfold neatLogCollection. destruct x as [|x0 rest]; [apply only_mret|].
  repeat (apply only_bind; [|intros ? ?]);
    try (apply only_emit, HP); try apply only_lift.
  by apply only_neatLogRest.
Qed.

Lemma quiet_neatLogCollection (x : list (option string)) (lineStart : string) :
  Spec.quiet (neatLogCollection host x lineStart).
Proof. by apply only_neatLogCollection. Qed.

Lemma quiet_render_bar {A} (x : list A) : Spec.quiet (render_bar x).
Proof.
  unfold render_bar. destruct (bool_decide _); [by apply only_emit | apply only_mret].
Qed.

End engine_facts.

(** ** Dry runs *)

Section dry_run_facts.
Context (rb : Rubico) (ng : git.Nodegit) (host : Host).
Implicit Types (argv : list string) (mods : list filepath).

Lemma push_dry_quiet argv mods :
  isDryRun argv = true → Spec.quiet (push_from rb ng host argv mods).
Proof.
  intros Hdry. unfold push_from, Spec.quiet. rewrite Hdry.
  apply only_bind; [apply discreet_quiet, getInfo_all_discreet | intros infos _].
  apply only_bind;
    [apply only_filter_all; intros; apply discreet_quiet, push_predicate_discreet
    | intros x _].
  apply only_bind; [apply only_lift | intros labels _].
  apply only_bind; [apply quiet_neatLogCollection | intros ? _].
  apply only_bind; [apply quiet_render_bar | intros ? _].
  apply only_map_all. intros m _. repeat only_step.
Qed.

Lemma install_dry_quiet argv mods :
  isDryRun argv = true → Spec.quiet (install_from ng host argv mods).
Proof.
  intros Hdry. unfold install_from, Spec.quiet. rewrite Hdry.
  apply only_bind; [apply discreet_quiet, getInfo_all_discreet | intros infos _].
  apply only_bind; [apply quiet_neatLogCollection | intros ? _].
  apply only_bind; [apply quiet_render_bar | intros ? _].
  apply only_map_all. intros m _. repeat only_step.
Qed.

Lemma link_dry_quiet argv mods :
  isDryRun argv = true → Spec.quiet (link_from ng host argv mods).
Proof.
  intros Hdry. unfold link_from, Spec.quiet. rewrite Hdry.
  apply only_bind; [apply discreet_quiet, getInfo_all_discreet | intros infos _].
  apply only_bind; [apply only_mret | intros ? _].
  apply only_map_all. intros m _. unfold console_log. repeat only_step.
Qed.

(** Under dry-run [bumpVersion] computes the next version and touches
    nothing. *)
Lemma bumpVersion_dry (x : info) (bump : string) :
  ∃ y, bumpVersion host x bump true = mret y
       ∧ y = put_next_version host x bump true
       ∧ is_dry_run y = true
       ∧ "+ " +:+ vmodule (base y) = Spec.would_be_line host bump x.
Proof. eexists. repeat split; reflexivity. Qed.

Lemma publish_dry (y : bumped) :
  is_dry_run y = true →
  publish host y = mkEff [BarTick] (Ok (Some ("+ " +:+ vmodule (base y)))).
Proof. intros Hdry. unfold publish. by rewrite Hdry. Qed.

Lemma dist_dry_quiet (bump : string) argv mods :
  isDryRun argv = true → Spec.quiet (dist_from rb ng host bump argv mods).
Proof.
  intros Hdry. unfold dist_from, Spec.quiet. rewrite Hdry.
  apply only_bind; [apply discreet_quiet, getInfo_all_discreet | intros infos _].
  apply only_bind;
    [apply only_filter_all; intros; apply discreet_quiet, dist_predicate_discreet
    | intros x _].
  apply only_bind; [apply quiet_neatLogCollection | intros ? _].
  apply only_bind.
  { apply only_map_all. intros m _.
    destruct (bumpVersion_dry m bump) as (y & -> & _). apply only_mret. }
  intros ys Hys.
  apply only_bind; [apply quiet_render_bar | intros ? _].
  apply only_bind.
  { apply only_map_all. intros y Hy.
    apply map_all_Ok in Hys.
    destruct (Forall2_elem_of_r _ _ _ _ Hys Hy) as (m & _ & Hm).
    destruct (bumpVersion_dry m bump) as (y' & Hy' & _ & Hdry' & _).
    rewrite Hy' in Hm. injection Hm as <-.
    rewrite (publish_dry y' Hdry'). by repeat constructor. }
  intros lines _.
  apply only_map_all. intros line _. unfold console_log. repeat only_step.
Qed.

End dry_run_facts.

(** ** Reports of a dry run and of a real run *)

Section report_ext_facts.
Context {A B : Type}.
Implicit Types (m : Eff A) (f : A → Eff B).

Lemma report_of_map_all_ext (g1 g2 : A → Eff B) (xs : list A) :
  (∀ x, x ∈ xs → Spec.report_of (g1 x) = Spec.report_of (g2 x)) →
  Spec.report_of (map_all g1 xs) = Spec.report_of (map_all g2 xs).
Proof.
  induction xs as [|x xs IH]; intros Hg; [done|].
  rewrite !report_of_map_all_cons, (Hg x) by (by left).
  by rewrite IH by (intros; apply Hg; by right).
Qed.

Lemma silent_report m : Spec.silent m → Spec.report_of m = [].
Proof.
  unfold Spec.silent, Spec.only, Spec.report_of.
  induction 1 as [|e l He _ IH]; [done|].
  rewrite filter_cons, decide_False by congruence. done.
Qed.

Lemma report_of_bind_ext m (f g : A → Eff B) :
  (∀ a, outcome m = Ok a → Spec.report_of (f a) = Spec.report_of (g a)) →
  Spec.report_of (m ≫= f) = Spec.report_of (m ≫= g).
Proof.
  intros Hfg. rewrite !report_of_bind. f_equal.
  destruct (outcome m); [by apply Hfg | done].
Qed.

Lemma completes_bind_inv m f (a : A) :
  outcome m = Ok a → Spec.completes (m ≫= f) → Spec.completes (f a).
Proof.
  intros Ha [b Hb]. rewrite outcome_bind, Ha in Hb. by exists b.
Qed.

Lemma completes_bind_fst m f :
  Spec.completes (m ≫= f) → ∃ a, outcome m = Ok a ∧ Spec.completes (f a).
Proof.
  intros [b Hb]. rewrite outcome_bind in Hb.
  destruct (outcome m) as [a|]; [|done]. exists a. split; [done | by exists b].
Qed.

Lemma discreet_silent m : Spec.discreet m → Spec.silent m.
Proof.
  unfold Spec.discreet, Spec.silent, Spec.only. intros Hm.
  eapply Forall_impl; [exact Hm|]. by intros e [_ ?].
Qed.

End report_ext_facts.

(** A step that reports nothing and does not throw can be left out of a
    report. *)
Lemma report_of_skip_silent {B} (s : Eff unit) (k : unit → Eff B) :
  Spec.silent s →
  Spec.completes (s ≫= k) →
  Spec.report_of (mret tt ≫= k) = Spec.report_of (s ≫= k).
Proof.
  intros Hs ([] & Hout & _)%completes_bind_fst.
  rewrite !report_of_bind, Hout, (silent_report s Hs). done.
Qed.

Section report_facts.
Context (rb : Rubico) (ng : git.Nodegit) (host : Host).
Implicit Types (argv dry wet : list string) (mods : list filepath).

Lemma run_silent (cmd : string) (args : list string) (n : nat) :
  Spec.silent (run host cmd args n).
Proof. unfold run, Spec.silent. repeat only_step. Qed.

(** [push] reports the same with and without dry-run. *)
Lemma push_reports_alike dry wet mods :
  isDryRun dry = true → isDryRun wet = false →
  Spec.report_of (push_from rb ng host dry mods)
  = Spec.report_of (push_from rb ng host wet mods).
Proof.
  intros Hdry Hwet. unfold push_from. rewrite Hdry, Hwet.
  repeat (apply report_of_bind_ext; intros ? _).
  apply report_of_map_all_ext. intros m _.
  rewrite !report_of_bind, outcome_try_catch. f_equal.
  symmetry. apply silent_report.
  apply only_try_catch; [|by repeat constructor].
  apply only_bind; [apply run_silent | intros; apply only_mret].
Qed.

(** [install] reports the same with and without dry-run. *)
Lemma install_reports_alike dry wet mods :
  isDryRun dry = true → isDryRun wet = false →
  Spec.report_of (install_from ng host dry mods)
  = Spec.report_of (install_from ng host wet mods).
Proof.
  intros Hdry Hwet. unfold install_from. rewrite Hdry, Hwet.
  repeat (apply report_of_bind_ext; intros ? _).
  apply report_of_map_all_ext. intros m _.
  apply report_of_skip_silent.
  - apply only_bind; [|intros; apply only_mret].
    apply only_try_catch; [apply run_silent | by repeat constructor].
  - eexists. by rewrite !outcome_bind, outcome_try_catch.
Qed.

Lemma link_one_silent (owner : info) (dep : entry) :
  Spec.silent (link_one host owner dep).
Proof. unfold link_one, Spec.silent. repeat only_step. Qed.

(** A real [link] that completes reports what the dry run reports. *)
Lemma link_reports_alike dry wet mods :
  isDryRun dry = true → isDryRun wet = false →
  Spec.completes (link_from ng host wet mods) →
  Spec.report_of (link_from ng host dry mods)
  = Spec.report_of (link_from ng host wet mods).
Proof.
  intros Hdry Hwet Hdone. unfold link_from in *. rewrite Hdry. rewrite Hwet in *.
  apply report_of_bind_ext. intros infos Hinfos.
  apply (completes_bind_inv _ _ infos Hinfos) in Hdone. cbv zeta in *.
  apply report_of_skip_silent; [|done].
  apply only_bind; [|intros; apply only_mret].
  apply only_map_all. intros m _. apply only_map_all. intros dep _.
  apply link_one_silent.
Qed.

End report_facts.

(** ** The report of dist *)

Section dist_report_facts.
Context (rb : Rubico) (ng : git.Nodegit) (host : Host).
Implicit Types (argv dry wet : list string) (mods : list filepath).

Lemma map_all_mret {A B} (g : A → Eff B) (h : A → B) (xs : list A) :
  (∀ x, x ∈ xs → g x = mret (h x)) → map_all g xs = mret (map h xs).
Proof.
  induction xs as [|x xs IH]; intros Hg; [done|].
  simpl. rewrite (Hg x) by (by left). rewrite IH by (intros; apply Hg; by right).
  done.
Qed.

Lemma trace_run (cmd : string) (args : list string) (n : nat) :
  trace (run host cmd args n) = [Execa cmd args].
Proof. done. Qed.

Lemma pRetry_silent (retries n : nat) (errors : list string) (y : bumped) :
  Spec.silent (pRetry host retries n errors y).
Proof.
  unfold Spec.silent, Spec.only. revert n errors.
  induction retries as [|k IH]; intros n errors; simpl;
    destruct (execa host "npm" ["publish"; render (path (base y))] n);
    simpl; repeat constructor.
  apply IH.
Qed.

(** Publishing one module, in either mode, ticks the bar once, reports
    nothing else and does not throw. *)
Lemma publish_reports (y : bumped) :
  Spec.report_of (publish host y) = [BarTick]
  ∧ Spec.completes (publish host y).
Proof.
  unfold publish. destruct (is_dry_run y).
  - split; [done | by eexists].
  - split.
    + rewrite report_of_bind, outcome_try_catch.
      rewrite silent_report; [done|].
      apply only_try_catch; [apply pRetry_silent | by repeat constructor].
    + eexists. by rewrite outcome_bind, outcome_try_catch.
Qed.

Lemma publish_all_reports (ys : list bumped) :
  Spec.report_of (map_all (publish host) ys) = replicate (length ys) BarTick
  ∧ ∃ lines, outcome (map_all (publish host) ys) = Ok lines
             ∧ length lines = length ys.
Proof.
  induction ys as [|y ys [IHr (lines & IHo & IHl)]]; [split; [done | by exists []]|].
  destruct (publish_reports y) as [Hr [line Ho]].
  rewrite report_of_map_all_cons, outcome_map_all_cons, Hr, Ho, IHr, IHo.
  split; [done|]. exists (line :: lines). split; [done | simpl; by rewrite IHl].
Qed.

(** Printing the lines: one write each. *)
Lemma print_lines (lines : list (option string)) :
  map_all (fun line => console_log (show line)) lines
  = mkEff ((fun line => Stdout (show line)) <$> lines)
          (Ok ((fun _ => tt) <$> lines)).
Proof.
  induction lines as [|line lines IH]; [done|].
  simpl. rewrite IH. done.
Qed.

Lemma publish_dry_all (bump : string) (x : list info) :
  map_all (publish host) (map (fun m => put_next_version host m bump true) x)
  = mkEff (replicate (length x) BarTick)
          (Ok (map (fun m => Some (Spec.would_be_line host bump m)) x)).
Proof.
  induction x as [|m x IH]; [done|].
  simpl. rewrite IH. done.
Qed.

Lemma bumpVersion_silent (m : info) (bump : string) (dry : bool) :
  Spec.silent (bumpVersion host m bump dry).
Proof.
  unfold bumpVersion, Spec.silent. destruct dry; simpl; [apply only_mret|].
  apply only_bind; [|intros; apply only_mret].
  unfold commit_bump, writePackage, writePackageLock, run. simpl.
  destruct (package_lock m); simpl; repeat only_step.
Qed.

Lemma report_render_bar {A B} (x : list A) (y : list B) :
  length x = length y →
  Spec.report_of (render_bar x) = Spec.report_of (render_bar y).
Proof. unfold render_bar. by intros ->. Qed.

Lemma neatLogRest_completes (indent cur : nat) (items : list string) :
  outcome (neatLogRest host indent cur (Some <$> items)) = Ok tt.
Proof.
  revert cur. induction items as [|s items IH]; intros cur; [done|].
  simpl. destruct (line_is_full host cur s); simpl; apply IH.
Qed.

(** A list of strings is always printed in full. *)
Lemma neatLogCollection_completes (items : list string) (lineStart : string) :
  outcome (neatLogCollection host (Some <$> items) lineStart) = Ok tt.
Proof.
  destruct items as [|s items]; [done|].
  unfold neatLogCollection. rewrite fmap_cons.
  do 4 (rewrite outcome_bind; cbn [outcome emit lift]).
  by rewrite neatLogRest_completes.
Qed.

Lemma getInfo_all_report mods :
  Spec.report_of (map_all (getInfo ng host) mods) = [].
Proof. apply silent_report, discreet_silent, getInfo_all_discreet. Qed.

Lemma dist_filter_report (infos : list info) :
  Spec.report_of (filter_all (dist_predicate rb ng) infos) = [].
Proof.
  apply silent_report, discreet_silent, only_filter_all.
  intros x _. apply dist_predicate_discreet.
Qed.

End dist_report_facts.

Section dist_report_main.
Context (rb : Rubico) (ng : git.Nodegit) (host : Host).
Implicit Types (argv dry wet : list string) (mods : list filepath).

Lemma outcome_render_bar {A} (x : list A) : outcome (render_bar x) = Ok tt.
Proof. unfold render_bar. by destruct (bool_decide _). Qed.

Lemma shape_render_bar {A} (x : list A) :
  Spec.shape <$> Spec.report_of (render_bar x) = Spec.report_of (render_bar x).
Proof. unfold render_bar. by destruct (bool_decide _). Qed.

Lemma report_of_stdouts {A} (texts : list string) (r : result A) :
  Spec.report_of (mkEff (Stdout <$> texts) r) = Stdout <$> texts.
Proof.
  unfold Spec.report_of. simpl. induction texts as [|t texts IH]; [done|].
  rewrite fmap_cons, filter_cons, decide_True by done. by rewrite IH.
Qed.

Lemma dist_announcement_completes (bump : string) (x : list info) :
  outcome (Spec.dist_announcement host bump x) = Ok tt.
Proof.
  unfold Spec.dist_announcement.
  rewrite <- (neatLogCollection_completes host (vmodule <$> x)
               ("bumping " +:+ bump +:+ " & publishing ("
                +:+ pretty (length x) +:+ ") ")).
  by rewrite <- list_fmap_compose.
Qed.

(** The report of a dry run of [dist]: the announcement, the bar, and for
    every selected module its would-be line. *)
Lemma dist_dry_report (bump : string) dry mods (infos x : list info) :
  isDryRun dry = true →
  outcome (map_all (getInfo ng host) mods) = Ok infos →
  outcome (filter_all (dist_predicate rb ng) infos) = Ok x →
  Spec.report_of (dist_from rb ng host bump dry mods)
  = Spec.report_of (Spec.dist_announcement host bump x)
    ++ Spec.report_of (render_bar x)
    ++ replicate (length x) BarTick
    ++ ((fun m => Stdout (Spec.would_be_line host bump m)) <$> x).
Proof.
  intros Hdry HI HF. unfold dist_from. rewrite Hdry.
  rewrite report_of_bind, HI, getInfo_all_report, app_nil_l.
  rewrite report_of_bind, HF, dist_filter_report, app_nil_l.
  rewrite report_of_bind. fold (Spec.dist_announcement host bump x).
  rewrite dist_announcement_completes. f_equal.
  rewrite (map_all_mret _ (fun m => put_next_version host m bump true)) by done.
  rewrite report_of_bind. simpl outcome. cbv beta iota.
  change (Spec.report_of (mret _)) with (@nil event). rewrite app_nil_l.
  rewrite report_of_bind, outcome_render_bar.
  rewrite (report_render_bar _ x) by apply length_map. f_equal.
  rewrite publish_dry_all, report_of_bind. simpl outcome. cbv beta iota.
  f_equal.
  - unfold Spec.report_of. simpl.
    induction (length x) as [|n IH]; [done|].
    simpl. rewrite filter_cons, decide_True by done. by rewrite IH.
  - rewrite print_lines, <- list_fmap_compose.
    rewrite (list_fmap_compose (Spec.would_be_line host bump) Stdout).
    rewrite report_of_stdouts. by rewrite <- list_fmap_compose.
Qed.

(** The shape of the report of a [dist] that completes, dry or not. *)
Lemma dist_report_shape (bump : string) argv mods (infos x : list info) :
  outcome (map_all (getInfo ng host) mods) = Ok infos →
  outcome (filter_all (dist_predicate rb ng) infos) = Ok x →
  Spec.completes (dist_from rb ng host bump argv mods) →
  Spec.shape <$> Spec.report_of (dist_from rb ng host bump argv mods)
  = (Spec.shape <$> Spec.report_of (Spec.dist_announcement host bump x))
    ++ Spec.report_of (render_bar x)
    ++ replicate (length x) BarTick
    ++ replicate (length x) (Stdout "").
Proof.
  intros HI HF Hdone. unfold dist_from in *.
  apply (completes_bind_inv _ _ _ HI) in Hdone.
  apply (completes_bind_inv _ _ _ HF) in Hdone.
  apply completes_bind_fst in Hdone as ([] & HH & Hdone).
  apply completes_bind_fst in Hdone as (ys & HB & _).
  assert (length ys = length x) as Hlen.
  { apply map_all_Ok, Forall2_length in HB. done. }
  rewrite report_of_bind, HI, getInfo_all_report, app_nil_l.
  rewrite report_of_bind, HF, dist_filter_report, app_nil_l.
  rewrite report_of_bind, HH. fold (Spec.dist_announcement host bump x).
  rewrite fmap_app. f_equal.
  rewrite report_of_bind, HB.
  rewrite (silent_report (map_all _ x)), app_nil_l
    by (apply only_map_all; intros; apply bumpVersion_silent).
  rewrite report_of_bind, outcome_render_bar, fmap_app, shape_render_bar.
  rewrite (report_render_bar ys x Hlen). f_equal.
  destruct (publish_all_reports host ys) as [Hr (lines & Ho & Hl)].
  rewrite report_of_bind, Hr, Ho, fmap_app, fmap_replicate, Hlen. f_equal.
  rewrite print_lines. rewrite <- Hlen, <- Hl.
  rewrite (list_fmap_compose show Stdout), report_of_stdouts.
  rewrite <- !list_fmap_compose.
  clear. induction lines as [|l lines IH]; [done|].
  rewrite fmap_cons, IH. done.
Qed.

End dist_report_main.

(** On a finite directory tree the locator returns, whatever the roots. *)
Lemma findModules_total_on_tree (host : Host) (t : Spec.tree) (roots : list filepath) :
  (∀ p, readdir host p = Spec.readdir_of t p) →
  is_Some (findModules host (S (Spec.height t)) roots).
Proof.
  intros Hls. apply (findModules_returns host t Hls).
  intros p _. apply height_at_le.
Qed.

(** What the locator returns holds every path once. *)
Lemma findModules_NoDup (host : Host) (fuel : nat) (roots found : list filepath) :
  findModules host fuel roots = Some found → NoDup found.
Proof.
  destruct fuel as [|fuel]; [done|]. rewrite findModules_S.
  intros (nested & _ & [= <-])%bind_Some. apply NoDup_uniq.
Qed.

(** ** The commands, from discovery on *)

Section command_facts.
Context (rb : Rubico) (ng : git.Nodegit) (host : Host).

(** Under dry-run the four commands, run on what the locator finds, write
    nothing and start nothing. *)
Lemma dry_run_commands_quiet (fuel : nat) (i : input) :
  isDryRun (argv i) = true →
  (∀ m, push rb ng host fuel i = Some m → Spec.quiet m)
  ∧ (∀ m, dist rb ng host fuel i = Some m → Spec.quiet m)
  ∧ (∀ m, install ng host fuel i = Some m → Spec.quiet m)
  ∧ (∀ m, link ng host fuel i = Some m → Spec.quiet m).
Proof.
  intros Hdry. unfold push, dist, install, link.
  repeat split; intros m.
  - intros (mods & _ & ->)%fmap_Some. by apply push_dry_quiet.
  - destruct (versionBump (argv i)) as [bump|].
    + intros (mods & _ & ->)%fmap_Some. by apply dist_dry_quiet.
    + intros [= <-]. by repeat constructor.
  - intros (mods & _ & ->)%fmap_Some. by apply install_dry_quiet.
  - intros (mods & _ & ->)%fmap_Some. by apply link_dry_quiet.
Qed.

End command_facts.


(** ** Working-tree status flags *)

(** C8.  The flag reported for a status entry is the last flag, in the order
    C, D, I, M, ??, R, T, whose test holds (padded to two characters).  For
    an entry that is both modified and new the new flag therefore wins over
    the modified flag: the entry never reports [M], and reports [??] unless
    one of the two later flags (renamed, type change) is raised as well. *)
Theorem getStatusFlag_last_match (x : git.status_file) :
  git.getStatusFlag x = JsString.padStart 2 " " (Spec.last_matching_flag x)
  ∧ (git.isModified x = true → git.isNew x = true →
       git.getStatusFlag x ≠ " M"
       ∧ (git.isRenamed x = false → git.isTypechange x = false →
            git.getStatusFlag x = "??")).
Proof.
  destruct x as [p c d i m n r t].
  unfold git.getStatusFlag, Spec.last_matching_flag, Spec.flag_order. simpl.
  split.
  - destruct c, d, i, m, n, r, t; reflexivity.
  - intros -> ->. split; [destruct r, t; done | by intros -> ->].
Qed.

Lemma getStatusFlag_last_match_witness :
  git.getStatusFlag Fixtures.modified_and_new = "??".
Proof.
  apply (getStatusFlag_last_match Fixtures.modified_and_new); reflexivity.
Defined.

(** ** Gating predicates of merge and push *)

Section gating.
Context (rb : Rubico).

Lemma branch_has_two_parts_true (x : info) :
  outcome (branch_has_two_parts x) = Ok true → Spec.has_local_and_upstream x.
Proof.
  unfold branch_has_two_parts, Spec.has_local_and_upstream.
  destruct (branch x) as [b|]; [|done]. simpl.
  intros [= Hlen%bool_decide_eq_true].
  apply JsStringFacts.split_two in Hlen as (l & u & Hsplit & Hb); [|done].
  by exists b, l, u.
Qed.

Lemma status_isEmpty_true (x : info) :
  outcome (status_isEmpty rb x) = Ok true → Spec.status_entries x = [].
Proof.
  unfold status_isEmpty, Spec.status_entries.
  destruct (status x) as [entries|]; [|done]. simpl.
  intros [= Hlen%bool_decide_eq_true]. by destruct entries.
Qed.

(** A count that was read is greater than 0 when [_.gt] says so. *)
Lemma gt0_true (n : option nat) :
  is_Some n → gt0 rb n = true → ∃ k, n = Some k ∧ 0 < k.
Proof.
  intros [k ->]. simpl. rewrite bool_decide_eq_true. by exists k.
Qed.

(** The two counts are read together. *)
Lemma both_counts (x : info) : is_Some (ahead_of x) ↔ is_Some (behind_of x).
Proof.
  unfold ahead_of, behind_of.
  destruct (ahead_behind x) as [[|a b]|]; simpl; split; by intros [? [=]] || by eexists.
Qed.

Lemma eq0_true (n : option nat) : eq0 n = true → n = Some 0.
Proof.
  destruct n as [k|]; simpl; [|done].
  rewrite bool_decide_eq_true. by intros ->.
Qed.

Lemma merge_predicate_conjuncts (x : info) :
  selects (merge_predicate rb) x →
  outcome (branch_has_two_parts x) = Ok true
  ∧ outcome (status_isEmpty rb x) = Ok true
  ∧ gt0 rb (behind_of x) = true
  ∧ eq0 (ahead_of x) = true.
Proof.
  unfold selects, merge_predicate, merge_conjuncts. rewrite and_true.
  rewrite !Forall_cons. simpl. intros (? & ? & [= ?] & [= ?] & _). done.
Qed.

Lemma push_predicate_conjuncts (x : info) :
  selects (push_predicate rb) x →
  outcome (branch_has_two_parts x) = Ok true
  ∧ gt0 rb (ahead_of x) = true
  ∧ eq0 (behind_of x) = true.
Proof.
  unfold selects, push_predicate, push_conjuncts. rewrite and_true.
  rewrite !Forall_cons. simpl. intros (? & [= ?] & [= ?] & _). done.
Qed.

End gating.

(** C4.  A snapshot the merge predicate selects has a branch string with a
    local and an upstream part, no status entry, [behind > 0] and
    [ahead = 0]; so no snapshot with a status entry, with [ahead > 0] or with
    [behind = 0] is selected. *)
Theorem merge_predicate_conservative (rb : Rubico) (x : info) :
  selects (merge_predicate rb) x →
  (Spec.has_local_and_upstream x
   ∧ Spec.status_entries x = []
   ∧ (∃ b, behind_of x = Some b ∧ 0 < b)
   ∧ ahead_of x = Some 0)
  ∧ (∀ entry rest, status x ≠ Some (entry :: rest))
  ∧ (∀ a, ahead_of x = Some a → ¬ 0 < a)
  ∧ behind_of x ≠ Some 0.
Proof.
  intros (Hbranch & Hstatus & Hbehind & Hahead)%merge_predicate_conjuncts.
  apply branch_has_two_parts_true in Hbranch.
  apply status_isEmpty_true in Hstatus.
  apply eq0_true in Hahead.
  apply gt0_true in Hbehind as (b & Hb & Hpos);
    [|apply both_counts; rewrite Hahead; by eexists].
  split; [by eauto 10|]. split; [|split].
  - intros entry rest Hst. unfold Spec.status_entries in Hstatus.
    by rewrite Hst in Hstatus.
  - intros a Ha. rewrite Hahead in Ha. injection Ha as <-. lia.
  - rewrite Hb. intros [= ->]. lia.
Qed.

Lemma merge_predicate_conservative_witness :
  (Spec.has_local_and_upstream Fixtures.moduleY
   ∧ Spec.status_entries Fixtures.moduleY = []
   ∧ (∃ b, behind_of Fixtures.moduleY = Some b ∧ 0 < b)
   ∧ ahead_of Fixtures.moduleY = Some 0)
  ∧ (∀ entry rest, status Fixtures.moduleY ≠ Some (entry :: rest))
  ∧ (∀ a, ahead_of Fixtures.moduleY = Some a → ¬ 0 < a)
  ∧ behind_of Fixtures.moduleY ≠ Some 0.
Proof.
  apply (merge_predicate_conservative Fixtures.lazy_rubico Fixtures.moduleY).
  reflexivity.
Defined.

(** C5.  A snapshot the push predicate selects has a branch string with a
    local and an upstream part, [ahead > 0] and [behind = 0]; so no snapshot
    with [behind > 0] or with [ahead = 0] is selected. *)
Theorem push_predicate_conservative (rb : Rubico) (x : info) :
  selects (push_predicate rb) x →
  (Spec.has_local_and_upstream x
   ∧ (∃ a, ahead_of x = Some a ∧ 0 < a)
   ∧ behind_of x = Some 0)
  ∧ (∀ b, behind_of x = Some b → ¬ 0 < b)
  ∧ ahead_of x ≠ Some 0.
Proof.
  intros (Hbranch & Hahead & Hbehind)%push_predicate_conjuncts.
  apply branch_has_two_parts_true in Hbranch.
  apply eq0_true in Hbehind.
  apply gt0_true in Hahead as (a & Ha & Hpos);
    [|apply both_counts; rewrite Hbehind; by eexists].
  split; [by eauto 10|]. split.
  - intros b Hb. rewrite Hbehind in Hb. injection Hb as <-. lia.
  - rewrite Ha. intros [= ->]. lia.
Qed.

Lemma push_predicate_conservative_witness :
  (Spec.has_local_and_upstream Fixtures.moduleX
   ∧ (∃ a, ahead_of Fixtures.moduleX = Some a ∧ 0 < a)
   ∧ behind_of Fixtures.moduleX = Some 0)
  ∧ (∀ b, behind_of Fixtures.moduleX = Some b → ¬ 0 < b)
  ∧ ahead_of Fixtures.moduleX ≠ Some 0.
Proof.
  apply (push_predicate_conservative Fixtures.eager_rubico Fixtures.moduleX).
  reflexivity.
Defined.

(** Scenario: [moduleX] has two unpushed commits, [moduleY] one commit to
    merge; push takes the first only, merge the second only. *)
Example push_and_merge_select :
  outcome (filter_all (push_predicate Fixtures.lazy_rubico)
             [Fixtures.moduleX; Fixtures.moduleY]) = Ok [Fixtures.moduleX]
  ∧ outcome (filter_all (merge_predicate Fixtures.lazy_rubico)
               [Fixtures.moduleX; Fixtures.moduleY]) = Ok [Fixtures.moduleY].
Proof. split; reflexivity. Qed.

(** C10.  No snapshot is selected by both the merge predicate and the push
    predicate: merge needs [ahead = 0], push needs [ahead > 0]. *)
Theorem merge_push_exclusive (rb : Rubico) (x : info) :
  selects (merge_predicate rb) x → ¬ selects (push_predicate rb) x.
Proof.
  intros (_ & _ & _ & Hahead)%merge_predicate_conjuncts
         (_ & Hahead' & _)%push_predicate_conjuncts.
  apply eq0_true in Hahead.
  apply gt0_true in Hahead' as (a & Ha & Hpos); [|rewrite Hahead; by eexists].
  rewrite Hahead in Ha. injection Ha as <-. lia.
Qed.

Lemma merge_push_exclusive_witness :
  ¬ selects (push_predicate Fixtures.lazy_rubico) Fixtures.moduleY.
Proof.
  apply (merge_push_exclusive Fixtures.lazy_rubico Fixtures.moduleY).
  reflexivity.
Defined.

(** ** The adapter: remote URL and ahead/behind *)

Example getRemoteUrl_ssh :
  git.getRemoteUrl Fixtures.ssh_checkout "origin" Fixtures.workspace_module
  = Ok (Some "github.com:chimaera-node/cli.git").
Proof. reflexivity. Qed.

(** C3.  [getRemoteUrl] answers with the piece after the first ['@']; for a
    remote whose URL is read and holds no ['@'] there is no such piece and
    the answer is [undefined], not the URL. *)
Theorem getRemoteUrl_without_credentials
    (ng : git.Nodegit) (name : string) (p : filepath)
    (r : git.repo) (rem : git.remote) :
  git.getRepo ng p = Ok r →
  git.Repository_getRemote ng r name = Ok rem →
  JsString.occurs "@" (git.Remote_url ng rem) = false →
  git.getRemoteUrl ng name p = Ok None.
Proof.
  intros Hrepo Hrem Hno. unfold git.getRemoteUrl.
  rewrite Hrepo. simpl. rewrite Hrem. simpl.
  by rewrite JsStringFacts.split_absent.
Qed.

Lemma getRemoteUrl_without_credentials_witness :
  git.getRemoteUrl Fixtures.https_checkout "origin" Fixtures.workspace_module
  = Ok None.
Proof.
  apply (getRemoteUrl_without_credentials Fixtures.https_checkout "origin"
           Fixtures.workspace_module
           (path_join Fixtures.workspace_module ".git") "origin");
    reflexivity.
Defined.

(** C6, as the specification words it, fails where the repository cannot be
    opened: no commit is resolved, and the call throws instead of answering
    with the empty object. *)
Lemma aheadBehind_throws_without_repository :
  ¬ Spec.aheadBehind_empty_iff_unresolved
      Fixtures.no_repository Fixtures.workspace_module.
Proof.
  intros [[_ Hempty] _].
  assert (Spec.unresolved Fixtures.no_repository Fixtures.workspace_module)
    as Hun by (left; reflexivity).
  specialize (Hempty Hun). discriminate Hempty.
Qed.

(** C6, amended.  When the repository opens and HEAD can be read,
    [getCurrentAheadBehind] answers with the empty object exactly when the
    target of HEAD or the target of its upstream is unresolved, and with the
    two counts of the graph walk (natural numbers) otherwise.  When the
    repository or HEAD cannot be read, the call throws. *)
Theorem getCurrentAheadBehind_empty_iff (ng : git.Nodegit) (p : filepath) :
  (∀ hu, git.getHead ng p = Ok hu →
     (git.getCurrentAheadBehind ng p = Ok git.EmptyObject ↔ Spec.unresolved ng p)
     ∧ (¬ Spec.unresolved ng p →
        ∃ a b, git.getCurrentAheadBehind ng p = Ok (git.Counts a b)))
  ∧ (∀ e, git.getHead ng p = Throw e →
     git.getCurrentAheadBehind ng p = Throw e ∧ Spec.unresolved ng p).
Proof.
  unfold Spec.unresolved, Spec.head_commit, Spec.upstream_commit,
    git.getCurrentAheadBehind.
  split.
  - intros [h u] Hhead. rewrite Hhead.
    assert (∃ r, git.getRepo ng p = Ok r) as [r Hr].
    { unfold git.getHead in Hhead. destruct (git.getRepo ng p); [eauto | done]. }
    rewrite Hr. simpl.
    destruct (git.Reference_target ng h) as [local|];
      [destruct (u ≫= git.Reference_target ng) as [upstream|] eqn:Hu|];
      simpl; rewrite ?Hu.
    + split; [split; [done | by intros [|]] | eauto].
    + split; [split; [by right | done] | intros []; by right].
    + split; [split; [by left | done] | intros []; by left].
  - intros e Hhead. rewrite Hhead. split; [|by left].
    unfold git.getHead in Hhead.
    destruct (git.getRepo ng p); simpl in *; [done | congruence].
Qed.

Lemma getCurrentAheadBehind_empty_iff_witness :
  git.getCurrentAheadBehind Fixtures.no_upstream Fixtures.workspace_module
  = Ok git.EmptyObject.
Proof.
  destruct (getCurrentAheadBehind_empty_iff Fixtures.no_upstream
              Fixtures.workspace_module) as [Hread _].
  apply (Hread ("refs/heads/topic", None) eq_refl).
  right. reflexivity.
Defined.

(** ** The tag conjunct of dist *)

Section dist_tag.
Context (rb : Rubico) (ng : git.Nodegit).

Lemma version_tag_exists_has (x : info) :
  has (semver x) (default [] (tags x)) = true ↔ Spec.version_tag_exists x.
Proof. unfold has, Spec.version_tag_exists. apply bool_decide_eq_true. Qed.

Lemma dist_tag_conjunct_absent (x : info) :
  ¬ Spec.version_tag_exists x → dist_tag_conjunct ng x = mret false.
Proof.
  intros Hno. unfold dist_tag_conjunct.
  destruct (has (semver x) (default [] (tags x))) eqn:Hhas; [|done].
  by apply version_tag_exists_has in Hhas.
Qed.

Lemma dist_tag_conjunct_checks (x : info) (e : event) :
  e ∈ trace (dist_tag_conjunct ng x) →
  Spec.version_tag_exists x ∧ e = DescendantOfHead (semver x) (path x).
Proof.
  unfold dist_tag_conjunct.
  destruct (has (semver x) (default [] (tags x))) eqn:Hhas.
  - apply version_tag_exists_has in Hhas.
    intros [He|(? & _ & He)]%elem_of_trace_bind.
    + simpl in He. by apply list_elem_of_singleton in He.
    + by apply elem_of_nil in He.
  - by intros ?%elem_of_nil.
Qed.

Lemma dist_predicate_checks (x : info) (e : event) :
  e ∈ trace (dist_predicate rb ng x) →
  Spec.version_tag_exists x ∧ e = DescendantOfHead (semver x) (path x).
Proof.
  intros (c & Hc & He)%elem_of_trace_and.
  unfold dist_conjuncts in Hc.
  repeat (apply elem_of_cons in Hc as [->|Hc]);
    try (by apply elem_of_nil in He);
    try (by apply elem_of_nil in Hc).
  - by apply dist_tag_conjunct_checks.
  - unfold status_isEmpty in He.
    destruct (status x); by apply elem_of_nil in He.
Qed.

End dist_tag.

(** C1, as the specification words it, fails on a module that has no tag
    for its version yet: the conjunct is [false], not [true]. *)
Lemma dist_untagged_not_true :
  ¬ Spec.missing_tag_proceeds
      Fixtures.lazy_rubico Fixtures.ssh_checkout Fixtures.untagged.
Proof.
  intros [_ Hproceed].
  assert (¬ Spec.version_tag_exists Fixtures.untagged) as Hno.
  { intros Htag%version_tag_exists_has. vm_compute in Htag. discriminate Htag. }
  specialize (Hproceed Hno). discriminate Hproceed.
Qed.

(** C1, amended.  The [descendantOfHead] check is made only when the version
    tag ["v<version>"] is among the module's tags, and then on that tag and
    that module; when the tag is absent the conjunct is [false] without any
    check, and [dist] does not select the module. *)
Theorem dist_tag_gate (rb : Rubico) (ng : git.Nodegit) (x : info) :
  (∀ ref p, DescendantOfHead ref p ∈ trace (dist_predicate rb ng x) →
            Spec.version_tag_exists x ∧ ref = semver x ∧ p = path x)
  ∧ (¬ Spec.version_tag_exists x →
     trace (dist_tag_conjunct ng x) = []
     ∧ outcome (dist_tag_conjunct ng x) = Ok false
     ∧ ¬ selects (dist_predicate rb ng) x).
Proof.
  split.
  - intros ref p [Htag [= -> ->]]%dist_predicate_checks. done.
  - intros Hno. rewrite (dist_tag_conjunct_absent ng x Hno).
    split; [done|]. split; [done|].
    unfold selects, dist_predicate, dist_conjuncts. rewrite and_true.
    rewrite !Forall_cons. intros (_ & Htag & _).
    by rewrite (dist_tag_conjunct_absent ng x Hno) in Htag.
Qed.

Lemma dist_tag_gate_witness :
  trace (dist_tag_conjunct Fixtures.ssh_checkout Fixtures.untagged) = []
  ∧ outcome (dist_tag_conjunct Fixtures.ssh_checkout Fixtures.untagged) = Ok false
  ∧ ¬ selects (dist_predicate Fixtures.lazy_rubico Fixtures.ssh_checkout)
        Fixtures.untagged.
Proof.
  apply (dist_tag_gate Fixtures.lazy_rubico Fixtures.ssh_checkout Fixtures.untagged).
  intros Htag%version_tag_exists_has. vm_compute in Htag. discriminate Htag.
Defined.

Example dist_selects_tagged :
  selects (dist_predicate Fixtures.eager_rubico Fixtures.ssh_checkout) Fixtures.tagged
  ∧ trace (dist_predicate Fixtures.eager_rubico Fixtures.ssh_checkout Fixtures.tagged)
    = [DescendantOfHead "v1.2.3" ["ws"; "fresh"]].
Proof. split; reflexivity. Qed.

(** ** Module Locator *)

(** C2, as the specification words it, fails for a root that lies inside a
    module: with the roots [/ws/a] and [/ws/a/sub], both holding a checkout
    and a manifest, both are returned. *)
Lemma findModules_nested_roots :
  ¬ Spec.locator_never_nests Fixtures.nested_checkout
      [["ws"; "a"]; ["ws"; "a"; "sub"]].
Proof.
  intros Hclaim.
  apply (Hclaim 1 [["ws"; "a"]; ["ws"; "a"; "sub"]] eq_refl
           ["ws"; "a"] ["ws"; "a"; "sub"]).
  - by left.
  - right. by left.
  - by exists ["sub"].
Qed.

(** C2, amended.  For every set of root paths none of which lies strictly
    inside a module (roots may lie inside other roots), the Module Locator
    never returns a path that is a strict descendant of another returned
    path. *)
Theorem findModules_no_nested_modules
    (host : Host) (fuel : nat) (roots found : list filepath) :
  Spec.roots_outside_modules host roots →
  findModules host fuel roots = Some found →
  Spec.no_nested_modules found.
Proof.
  intros Hroots Hfind p q Hp Hq (rest & Hrest & Hqp).
  destruct (findModules_reached host fuel roots found Hfind p Hp)
    as (rp & _ & _ & _ & Hmod & _).
  destruct (findModules_reached host fuel roots found Hfind q Hq)
    as (rq & Hrq & sq & Hqs & _ & Hnot).
  rewrite Hqp in Hqs.
  destruct (decide (length rq ≤ length p)) as [Hle|Hgt].
  - pose proof (prefix_of_same p rest rq sq Hqs Hle) as Hpre.
    apply (Hnot (length p - length rq)); [|by rewrite <- Hpre].
    apply (f_equal length) in Hqs. rewrite !length_app in Hqs.
    destruct rest; [done | simpl in Hqs; lia].
  - symmetry in Hqs.
    pose proof (prefix_of_same rq sq p rest Hqs ltac:(lia)) as Hpre.
    apply (Hroots rq p Hrq); [|done].
    exists (take (length rq - length p) rest). split; [|done].
    intros Hnil. rewrite Hnil, app_nil_r in Hpre. subst rq. lia.
Qed.

Lemma findModules_no_nested_modules_witness :
  Spec.no_nested_modules [["ws"; "a"]].
Proof.
  apply (findModules_no_nested_modules Fixtures.nested_checkout 2 [["ws"]]).
  - intros r d ->%list_elem_of_singleton (rest & Hrest & Hr) (es & Hes & _).
    destruct d as [|seg d]; [discriminate Hes|].
    destruct d, rest; simplify_eq/=.
  - reflexivity.
Defined.

(** ** Dependency Linker *)



(** Scenario: [plot] depends on [chart.js], which is in the workspace, and
    on [constructor], which is not.  The name with the dot is read as a path
    and finds nothing; [constructor] finds what every object inherits under
    that name, which is no snapshot. *)
Example computeSymlinks_plot :
  computeSymlinks (Fixtures.machine (fun _ => Ok [])) [Fixtures.plot; Fixtures.chart]
  = [ {| target := Fixtures.plot; symlinks := [Other Fixtures.no_properties] |};
      {| target := Fixtures.chart; symlinks := [] |} ].
Proof. vm_compute. reflexivity. Qed.




(** ** Dry runs *)

(** Scenario: a module at version 1.2.3, [dist patch --dry-run].  The tag is
    checked, the list and the would-be line are printed, and nothing is
    written or started. *)
Example dist_patch_dry_run :
  trace (dist_from Fixtures.lazy_rubico Fixtures.released_checkout
           Fixtures.release_machine "patch" ["patch"; "--dry-run"]
           [["ws"; "fresh"]])
  = [ DescendantOfHead "v1.2.3" ["ws"; "fresh"];
      Stdout "bumping patch & publishing (1) ";
      Stdout "fresh@1.2.3";
      Stdout (nl +:+ nl);
      BarRender;
      BarTick;
      Stdout "+ fresh@1.2.4" ].
Proof. vm_compute. reflexivity. Qed.

(** C7.  Under [--dry-run] or [-n] the commands push, dist, install and link
    write no file, remove and create no symlink and start no process.  What
    they report (what they print and the progress bar) is what the real run
    reports: the same for push and install; the same for link when the real
    run completes; and for dist, when the real run completes, the same up
    to the text of the lines, the dry run printing for every selected module
    its would-be line ["+ <name>@<next-version>"]. *)
Theorem dry_run_changes_nothing
    (rb : Rubico) (ng : git.Nodegit) (host : Host)
    (bump : string) (dry wet : list string) (mods : list filepath) :
  isDryRun dry = true →
  isDryRun wet = false →
  (Spec.quiet (push_from rb ng host dry mods)
   ∧ Spec.quiet (dist_from rb ng host bump dry mods)
   ∧ Spec.quiet (install_from ng host dry mods)
   ∧ Spec.quiet (link_from ng host dry mods))
  ∧ (Spec.report_of (push_from rb ng host dry mods)
     = Spec.report_of (push_from rb ng host wet mods)
     ∧ Spec.report_of (install_from ng host dry mods)
       = Spec.report_of (install_from ng host wet mods)
     ∧ (Spec.completes (link_from ng host wet mods) →
        Spec.report_of (link_from ng host dry mods)
        = Spec.report_of (link_from ng host wet mods))
     ∧ (Spec.completes (dist_from rb ng host bump wet mods) →
        Spec.shape <$> Spec.report_of (dist_from rb ng host bump dry mods)
        = Spec.shape <$> Spec.report_of (dist_from rb ng host bump wet mods)))
  ∧ (∀ infos x,
       outcome (map_all (getInfo ng host) mods) = Ok infos →
       outcome (filter_all (dist_predicate rb ng) infos) = Ok x →
       Spec.report_of (dist_from rb ng host bump dry mods)
       = Spec.report_of (Spec.dist_announcement host bump x)
         ++ Spec.report_of (render_bar x)
         ++ replicate (length x) BarTick
         ++ ((fun m => Stdout (Spec.would_be_line host bump m)) <$> x)).
Proof.
  intros Hdry Hwet. split; [|split].
  - repeat split.
    + by apply push_dry_quiet.
    + by apply dist_dry_quiet.
    + by apply install_dry_quiet.
    + by apply link_dry_quiet.
  - repeat split.
    + by apply push_reports_alike.
    + by apply install_reports_alike.
    + by apply link_reports_alike.
    + intros Hdone.
      assert (∃ infos x,
                outcome (map_all (getInfo ng host) mods) = Ok infos
                ∧ outcome (filter_all (dist_predicate rb ng) infos) = Ok x)
        as (infos & x & HI & HF).
      { unfold dist_from in Hdone.
        apply completes_bind_fst in Hdone as (infos & HI & Hdone).
        apply completes_bind_fst in Hdone as (x & HF & _). eauto. }
      rewrite (dist_report_shape rb ng host bump wet mods infos x HI HF Hdone).
      rewrite (dist_dry_report rb ng host bump dry mods infos x Hdry HI HF).
      rewrite !fmap_app, shape_render_bar, fmap_replicate. do 3 f_equal.
      rewrite <- list_fmap_compose. clear.
      induction x as [|m x IH]; [done|]. rewrite fmap_cons, IH. done.
  - intros infos x. by apply dist_dry_report.
Qed.

Lemma dry_run_changes_nothing_witness :
  Spec.quiet (dist_from Fixtures.lazy_rubico Fixtures.released_checkout
                Fixtures.release_machine "patch" ["patch"; "--dry-run"]
                [["ws"; "fresh"]])
  ∧ Spec.report_of (push_from Fixtures.lazy_rubico Fixtures.released_checkout
                      Fixtures.release_machine ["-n"] [["ws"; "fresh"]])
    = Spec.report_of (push_from Fixtures.lazy_rubico Fixtures.released_checkout
                        Fixtures.release_machine [] [["ws"; "fresh"]]).
Proof.
  destruct (dry_run_changes_nothing Fixtures.lazy_rubico Fixtures.released_checkout
              Fixtures.release_machine "patch" ["patch"; "--dry-run"] ["patch"]
              [["ws"; "fresh"]])
    as [(_ & Hdist & _) _]; [reflexivity | reflexivity |].
  destruct (dry_run_changes_nothing Fixtures.lazy_rubico Fixtures.released_checkout
              Fixtures.release_machine "patch" ["-n"] [] [["ws"; "fresh"]])
    as [_ [(Hpush & _) _]]; [reflexivity | reflexivity |].
  split; assumption.
Defined.


(** * Further properties of the code *)

(** ** Module Locator *)

Section locator_more.
Context (host : Host).

Lemma listed_elem (paths : list filepath) (x : filepath * list string) :
  x ∈ omap (fun x => pair x <$> tryCatch (readdir host x)) paths
  ↔ x.1 ∈ paths ∧ readdir host x.1 = Ok x.2.
Proof.
  rewrite list_elem_of_omap. split.
  - intros (r & Hr & Hx). destruct (readdir host r) as [es|e] eqn:Hread;
      simplify_eq/=. by split.
  - intros [Hr Hread]. exists x.1. split; [done|].
    rewrite Hread. by destruct x.
Qed.

Lemma Forall2_elem_of_l {A B} (P : A → B → Prop) (l : list A) (k : list B) x :
  Forall2 P l k → x ∈ l → ∃ y, y ∈ k ∧ P x y.
Proof.
  induction 1 as [|a b l k Hab _ IH]; intros Hx.
  - by apply elem_of_nil in Hx.
  - apply elem_of_cons in Hx as [->|Hx].
    + exists b. split; [by left | done].
    + destruct (IH Hx) as (y & Hy & HP). exists y. split; [by right | done].
Qed.

Lemma not_module_listed (entries : list string) :
  has ".git" entries && has "package.json" entries = false
  ↔ ¬ (".git" ∈ entries ∧ "package.json" ∈ entries).
Proof.
  rewrite <- !has_true.
  destruct (has ".git" entries), (has "package.json" entries); simpl;
    intuition congruence.
Qed.

Lemma descends_child (r p : filepath) (seg : string) (entries : list string) :
  readdir host r = Ok entries →
  seg ∈ entries →
  ¬ (".git" ∈ entries ∧ "package.json" ∈ entries) →
  Props.descends host (r ++ [seg]) p → Props.descends host r p.
Proof.
  intros Hread Hseg Hnot (rest & -> & Hmod & Hway).
  exists (seg :: rest). split; [by rewrite <- app_assoc|]. split.
  { done. }
  intros [|k] s Hk; simpl in Hk.
  - simplify_eq. rewrite take_0, app_nil_r. eauto.
  - destruct (Hway k s Hk) as (es & Hes & Hs & Hn).
    exists es.
    replace (r ++ take (S k) (seg :: rest)) with ((r ++ [seg]) ++ take k rest)
      by (by rewrite <- app_assoc).
    done.
Qed.

Lemma findModules_exact (fuel : nat) :
  ∀ (paths found : list filepath),
    findModules host fuel paths = Some found →
    ∀ p, p ∈ found ↔ ∃ r, r ∈ paths ∧ Props.descends host r p.
Proof.
  induction fuel as [|fuel IH]; intros paths found Hfind p; [discriminate|].
  rewrite findModules_S in Hfind.
  destruct (mapM _ _) as [nested|] eqn:Hnested; [|discriminate].
  simpl in Hfind. injection Hfind as <-.
  apply mapM_Some in Hnested.
  rewrite elem_of_uniq, list_elem_of_join. split.
  - intros (l & Hp & Hl).
    destruct (Forall2_elem_of_r _ _ _ _ Hnested Hl) as ([r es] & Hx & Hg).
    apply listed_elem in Hx as [Hr Hread]. simpl in *.
    destruct (has ".git" es && has "package.json" es) eqn:Hmod.
    + injection Hg as <-. apply list_elem_of_singleton in Hp as ->.
      exists r. split; [done|]. exists []. split; [by rewrite app_nil_r|].
      split; [by apply (is_module_listed host r es Hread)|].
      intros k seg Hk. by rewrite lookup_nil in Hk.
    + apply (IH _ _ Hg) in Hp as (r' & Hr' & Hdesc).
      apply list_elem_of_fmap in Hr' as (seg & -> & Hseg).
      exists r. split; [done|].
      apply (descends_child r p seg es Hread Hseg); [|done].
      by apply not_module_listed.
  - intros (r & Hr & rest & -> & Hmod & Hway).
    destruct rest as [|seg rest].
    + rewrite app_nil_r in Hmod. destruct Hmod as (es & Hread & Hgit & Hpkg).
      assert ((r, es) ∈ omap (fun x => pair x <$> tryCatch (readdir host x)) paths)
        as Hx by by apply listed_elem.
      destruct (Forall2_elem_of_l _ _ _ _ Hnested Hx) as (l & Hl & Hg).
      simpl in Hg.
      apply has_true in Hgit, Hpkg. rewrite Hgit, Hpkg in Hg.
      injection Hg as <-. exists [r]. split; [|done].
      rewrite app_nil_r. by left.
    + destruct (Hway 0 seg eq_refl) as (es & Hread & Hseg & Hnot).
      rewrite take_0, app_nil_r in Hread.
      assert ((r, es) ∈ omap (fun x => pair x <$> tryCatch (readdir host x)) paths)
        as Hx by by apply listed_elem.
      destruct (Forall2_elem_of_l _ _ _ _ Hnested Hx) as (l & Hl & Hg).
      simpl in Hg.
      apply not_module_listed in Hnot. rewrite Hnot in Hg.
      exists l. split; [|done].
      apply (IH _ _ Hg). exists (r ++ [seg]). split.
      { apply list_elem_of_fmap. by exists seg. }
      exists rest. split; [by rewrite <- app_assoc|]. split; [done|].
      intros k s Hk. destruct (Hway (S k) s Hk) as (es' & Hes' & Hs & Hn).
      exists es'. by rewrite <- app_assoc.
Qed.

Lemma findModules_fuel_S (fuel : nat) :
  ∀ (paths found : list filepath),
    findModules host fuel paths = Some found →
    findModules host (S fuel) paths = Some found.
Proof.
  induction fuel as [|fuel IH]; intros paths found Hfind; [discriminate|].
  rewrite findModules_S in Hfind. rewrite findModules_S.
  destruct (mapM _ _) as [nested|] eqn:Hnested; [|discriminate].
  assert (mapM (fun x : filepath * list string =>
                  if has ".git" x.2 && has "package.json" x.2
                  then Some [x.1]
                  else findModules host (S fuel) (map (path_join x.1) x.2))
               (omap (fun x => pair x <$> tryCatch (readdir host x)) paths)
          = Some nested) as ->; [|done].
  apply mapM_Some. apply mapM_Some in Hnested.
  eapply Forall2_impl; [exact Hnested|].
  intros [r es] l Hg. simpl in *.
  destruct (has ".git" es && has "package.json" es); [done|].
  by apply IH.
Qed.

Lemma findModules_fuel_le (fuel fuel' : nat) (paths found : list filepath) :
  fuel ≤ fuel' →
  findModules host fuel paths = Some found →
  findModules host fuel' paths = Some found.
Proof.
  induction 1 as [|fuel' _ IH]; [done|].
  intros Hfind. by apply findModules_fuel_S, IH.
Qed.

End locator_more.

(** X1.  What the Module Locator returns is exactly the set of modules it
    can walk down to: a path is returned if and only if it is a module (its
    directory lists both [.git] and [package.json]) that lies at or below
    one of the roots, with every directory on the way readable, listing the
    next segment and not itself a module.  No path is returned twice, also
    when roots overlap. *)
Theorem findModules_exactly_the_reachable_modules
    (host : Host) (fuel : nat) (roots found : list filepath) :
  findModules host fuel roots = Some found →
  NoDup found
  ∧ ∀ p, p ∈ found ↔ ∃ r, r ∈ roots ∧ Props.descends host r p.
Proof.
  intros Hfind. split.
  - by apply (findModules_NoDup host fuel roots).
  - by apply (findModules_exact host fuel).
Qed.

Lemma findModules_exactly_the_reachable_modules_witness :
  NoDup [["ws"; "a"]]
  ∧ ∀ p, p ∈ [["ws"; "a"]]
         ↔ ∃ r, r ∈ [["ws"]; ["ws"; "a"]]
                ∧ Props.descends Fixtures.nested_checkout r p.
Proof.
  apply (findModules_exactly_the_reachable_modules
           Fixtures.nested_checkout 2 [["ws"]; ["ws"; "a"]]).
  reflexivity.
Defined.

(** X2.  On a machine whose directories form a finite tree the Module
    Locator returns, whatever the roots: the recursion ends after at most
    as many levels as the tree is high, and going on longer does not change
    the answer. *)
Theorem findModules_returns_on_finite_trees
    (host : Host) (t : Spec.tree) (roots : list filepath) :
  (∀ p, readdir host p = Spec.readdir_of t p) →
  ∃ found, ∀ fuel, Spec.height t < fuel →
                   findModules host fuel roots = Some found.
Proof.
  intros Hreads.
  destruct (findModules_total_on_tree host t roots Hreads) as [found Hfound].
  exists found. intros fuel Hfuel.
  apply (findModules_fuel_le host (S (Spec.height t))); [lia | done].
Qed.

Lemma findModules_returns_on_finite_trees_witness :
  ∃ found, ∀ fuel, Spec.height Samples.workspace < fuel →
    findModules (Fixtures.machine (Spec.readdir_of Samples.workspace)) fuel [["ws"]]
    = Some found.
Proof.
  apply (findModules_returns_on_finite_trees
           (Fixtures.machine (Spec.readdir_of Samples.workspace))
           Samples.workspace [["ws"]]).
  intros p. reflexivity.
Defined.

(** ** Adapter over nodegit *)

Module JsStringMore.
Import JsString JsStringFacts.

Lemma startsWith_refl (p s : string) : startsWith p (p +:+ s) = true.
Proof.
  induction p as [|c p IH]; [done|].
  rewrite app_cons. simpl. by rewrite Ascii.eqb_refl.
Qed.

Lemma drop_app (p s : string) : drop (String.length p) (p +:+ s) = s.
Proof. induction p as [|c p IH]; [done|]. by rewrite app_cons. Qed.

Lemma snoc_app (cur : string) (c : ascii) (s : string) :
  (cur +:+ String c "") +:+ s = cur +:+ String c s.
Proof. by rewrite app_assoc, app_cons, app_nil_l. Qed.

(** Up to the first separator of a name whose dots are in order. *)
Lemma split_go_dots (l : string) :
  ∀ (cur rest : string),
    Props.dots_ok l = true →
    split_go "..." 0 cur (l +:+ "..." +:+ rest)
    = (cur +:+ l) :: split_go "..." 0 "" rest.
Proof.
  induction l as [|c l IH]; intros cur rest Hok.
  - rewrite app_nil_l, app_nil_r. reflexivity.
  - rewrite app_cons. rewrite <- snoc_app.
    cbn [Props.dots_ok] in Hok. cbn [split_go startsWith].
    destruct (Ascii.eqb "." c) eqn:Hc.
    + destruct l as [|c' l]; [done|].
      apply andb_true_iff in Hok as [Hc' Hok].
      apply negb_true_iff in Hc'.
      rewrite app_cons. cbn [startsWith]. rewrite Hc'.
      rewrite <- app_cons. by apply IH.
    + by apply IH.
Qed.

Lemma split_go_dots_end (u : string) :
  ∀ cur : string,
    Props.dots_ok u = true → split_go "..." 0 cur u = [cur +:+ u].
Proof.
  induction u as [|c u IH]; intros cur Hok.
  - by rewrite app_nil_r.
  - rewrite <- snoc_app. cbn [Props.dots_ok] in Hok. cbn [split_go startsWith].
    destruct (Ascii.eqb "." c) eqn:Hc.
    + destruct u as [|c' u]; [done|].
      apply andb_true_iff in Hok as [Hc' Hok].
      apply negb_true_iff in Hc'.
      cbn [startsWith]. rewrite Hc'. by apply IH.
    + by apply IH.
Qed.

Lemma split_join_names (l : string) (us : list string) :
  Props.dots_ok l = true →
  Forall (fun u => Props.dots_ok u = true) us →
  length us ≤ 1 →
  split "..." (join "..." (l :: us)) = l :: us.
Proof.
  intros Hl Hus Hlen. destruct us as [|u [|? ?]]; [| |simpl in Hlen; lia].
  - unfold split. simpl. by rewrite split_go_dots_end.
  - apply Forall_cons in Hus as [Hu _].
    unfold split. cbn [join]. rewrite split_go_dots by done.
    by rewrite split_go_dots_end.
Qed.

(** Up to the first ['@']. *)
Lemma split_go_at (user : string) :
  ∀ (cur rest : string),
    occurs "@" user = false →
    split_go "@" 0 cur (user +:+ "@" +:+ rest)
    = (cur +:+ user) :: split_go "@" 0 "" rest.
Proof.
  induction user as [|c user IH]; intros cur rest Hno.
  - rewrite app_nil_l, app_nil_r. reflexivity.
  - rewrite app_cons. rewrite <- snoc_app.
    cbn [occurs] in Hno. cbn [split_go startsWith].
    destruct (Ascii.eqb "@" c) eqn:Hc; [done|].
    by apply IH.
Qed.

End JsStringMore.

(** X3.  The branch string of a snapshot splits back into the names it was
    joined from: for a HEAD and an upstream whose short names have their
    dots in order (no two in a row, none at the end, as git demands),
    [getCurrentBranchName] answers with a string that [split('...')] takes
    apart into exactly the local name, followed by the upstream name when
    there is an upstream; and [git.merge] calls [mergeBranches] with these
    names. *)
Theorem getCurrentBranchName_round_trip
    (ng : git.Nodegit) (p : filepath)
    (hu : git.reference * option git.reference) :
  git.getHead ng p = Ok hu →
  Forall (fun name => Props.dots_ok name = true) (Props.branch_names ng hu) →
  ∃ b, git.getCurrentBranchName ng p = Ok b
       ∧ JsString.split "..." b = Props.branch_names ng hu
       ∧ ∀ r, git.getRepo ng p = Ok r →
              git.merge ng p b
              = git.Repository_mergeBranches ng r (Props.branch_names ng hu).
Proof.
  intros Hhead Hok. unfold git.getCurrentBranchName. rewrite Hhead. simpl.
  eexists. split; [reflexivity|].
  assert (JsString.split "..."
            (JsString.join "..."
               (git.Reference_shorthand ng hu.1
                  :: match hu.2 with
                     | Some u => [git.Reference_shorthand ng u]
                     | None => []
                     end))
          = Props.branch_names ng hu) as Hsplit.
  { unfold Props.branch_names in *. apply Forall_cons in Hok as [Hl Hu].
    destruct hu as [h [u|]]; cbn [fst snd from_option] in *.
    - apply (JsStringMore.split_join_names _ [_]); [done | done | simpl; lia].
    - apply (JsStringMore.split_join_names _ []); [done | done | simpl; lia]. }
  split; [done|].
  intros r Hr. unfold git.merge. rewrite Hr.
  exact (f_equal (git.Repository_mergeBranches ng r) Hsplit).
Qed.

Lemma getCurrentBranchName_round_trip_witness :
  ∃ b, git.getCurrentBranchName Fixtures.ssh_checkout Fixtures.workspace_module = Ok b
       ∧ JsString.split "..." b = ["master"; "origin/master"]
       ∧ ∀ r, git.getRepo Fixtures.ssh_checkout Fixtures.workspace_module = Ok r →
              git.merge Fixtures.ssh_checkout Fixtures.workspace_module b
              = git.Repository_mergeBranches Fixtures.ssh_checkout r
                  ["master"; "origin/master"].
Proof.
  apply (getCurrentBranchName_round_trip Fixtures.ssh_checkout
           Fixtures.workspace_module
           ("refs/heads/master", Some "refs/remotes/origin/master")).
  - reflexivity.
  - repeat constructor.
Defined.

(** X4.  For a remote whose URL reads [user@rest] with no ['@'] in [user],
    [getRemoteUrl] answers with [rest] up to its first ['@']: with all of
    [rest] when it holds no ['@'], and never with [undefined]. *)
Theorem getRemoteUrl_with_credentials
    (ng : git.Nodegit) (name : string) (p : filepath)
    (r : git.repo) (rem : git.remote) (user rest : string) :
  git.getRepo ng p = Ok r →
  git.Repository_getRemote ng r name = Ok rem →
  git.Remote_url ng rem = user +:+ "@" +:+ rest →
  JsString.occurs "@" user = false →
  ∃ piece more,
    JsString.split "@" rest = piece :: more
    ∧ git.getRemoteUrl ng name p = Ok (Some piece)
    ∧ (JsString.occurs "@" rest = false → piece = rest).
Proof.
  intros Hrepo Hrem Hurl Huser.
  destruct (JsStringFacts.split_go_cons "@" 0 "" rest) as (piece & more & Hrest).
  exists piece, more. split; [done|]. split.
  - unfold git.getRemoteUrl. rewrite Hrepo. simpl. rewrite Hrem. simpl.
    rewrite Hurl. unfold JsString.split.
    rewrite JsStringMore.split_go_at by done. by rewrite Hrest.
  - intros Hno. apply JsStringFacts.split_absent in Hno.
    unfold JsString.split in Hno. rewrite Hno in Hrest. by injection Hrest.
Qed.

Lemma getRemoteUrl_with_credentials_witness :
  ∃ piece more,
    JsString.split "@" "github.com:chimaera-node/cli.git" = piece :: more
    ∧ git.getRemoteUrl Fixtures.ssh_checkout "origin" Fixtures.workspace_module
      = Ok (Some piece)
    ∧ (JsString.occurs "@" "github.com:chimaera-node/cli.git" = false →
       piece = "github.com:chimaera-node/cli.git").
Proof.
  apply (getRemoteUrl_with_credentials Fixtures.ssh_checkout "origin"
           Fixtures.workspace_module ["ws"; "cli"; ".git"] "origin" "git").
  - reflexivity.
  - reflexivity.
  - reflexivity.
  - reflexivity.
Defined.

(** X5.  Every status flag is two characters wide, and it is blank exactly
    for an entry none of whose seven tests holds. *)
Theorem getStatusFlag_width (x : git.status_file) :
  String.length (git.getStatusFlag x) = 2
  ∧ (git.getStatusFlag x = "  "
     ↔ git.isConflicted x = false ∧ git.isDeleted x = false
       ∧ git.isIgnored x = false ∧ git.isModified x = false
       ∧ git.isNew x = false ∧ git.isRenamed x = false
       ∧ git.isTypechange x = false).
Proof.
  destruct x as [f [] [] [] [] [] [] []]; (split; [reflexivity|]);
    vm_compute; intuition congruence.
Qed.

(** ** Module Info Snapshot *)

Module JsPathMore.
Import JsString JsStringFacts JsStringMore.

Lemma render_app (a b : filepath) : render (a ++ b) = render a +:+ render b.
Proof.
  induction a as [|seg a IH]; [done|].
  change (render ((seg :: a) ++ b)) with ("/" +:+ seg +:+ render (a ++ b)).
  change (render (seg :: a)) with ("/" +:+ seg +:+ render a).
  by rewrite IH, !app_assoc.
Qed.

Lemma replaceOne_eq (pat rep s : string) :
  replaceOne pat rep s
  = if startsWith pat s
    then rep +:+ drop (String.length pat) s
    else match s with
         | EmptyString => EmptyString
         | String c s' => String c (replaceOne pat rep s')
         end.
Proof. by destruct s. Qed.

Lemma replaceOne_prefix (pat rep s : string) :
  replaceOne pat rep (pat +:+ s) = rep +:+ s.
Proof. by rewrite replaceOne_eq, startsWith_refl, drop_app. Qed.

Lemma replaceOne_absent (pat rep s : string) :
  Props.includes pat s = false → replaceOne pat rep s = s.
Proof.
  induction s as [|c s IH]; intros Hno; rewrite replaceOne_eq;
    cbn [Props.includes] in Hno; apply orb_false_iff in Hno as [-> Hno];
    [done|].
  by rewrite IH.
Qed.

End JsPathMore.

Section snapshot_more.
Context (ng : git.Nodegit) (host : Host).

(** The snapshot [getInfo] resolves to. *)
Lemma getInfo_outcome (x : filepath) :
  outcome (getInfo ng host x)
  = Ok {| path := x;
          fmt_path := replaceHome host (render x);
          repo := tryCatch (git.getRepo ng x);
          origin_url := mjoin (tryCatch (git.getRemoteUrl ng "origin" x));
          tags := tryCatch (git.getTags ng x);
          branch := tryCatch (git.getCurrentBranchName ng x);
          status := tryCatch (git.status ng x);
          ahead_behind := tryCatch (git.getCurrentAheadBehind ng x);
          package := tryCatch (getPackage host x);
          package_lock := tryCatch (getPackageLock host x);
          module := tryCatch (getPackage host x) ≫= Package.name;
          version := tryCatch (getPackage host x) ≫= Package.version;
          vmodule :=
            JsString.join_opt "@"
              [tryCatch (getPackage host x) ≫= Package.name;
               tryCatch (getPackage host x) ≫= Package.version];
          semver :=
            "v" +:+ show (tryCatch (getPackage host x) ≫= Package.version) |}.
Proof.
  unfold getInfo.
  repeat (rewrite outcome_bind, outcome_try_catch; cbn [outcome lift]).
  reflexivity.
Qed.

Lemma getInfo_only_stderr (x : filepath) :
  Spec.only (fun e => ∃ text, e = Stderr text) (getInfo ng host x).
Proof.
  unfold getInfo.
  repeat (apply only_bind;
          [apply only_try_catch;
           [apply only_lift
           |intros e; try (repeat constructor; by eexists)]
          |intros ? _]).
  apply only_mret.
Qed.

End snapshot_more.

(** X6.  [getInfo] never throws and changes nothing: whatever cannot be
    read, it answers with a snapshot of the path it was given, and the only
    thing it does besides is print errors.  The derived fields follow the
    manifest: [module] and [version] are its name and version, [vmodule] is
    the two joined by ['@'], [semver] is the version after a [v]; without a
    readable manifest they are [undefined], [undefined], ["@"] and
    ["vundefined"]. *)
Theorem getInfo_always_answers (ng : git.Nodegit) (host : Host) (x : filepath) :
  ∃ i, outcome (getInfo ng host x) = Ok i
       ∧ Forall (fun e => ∃ text, e = Stderr text) (trace (getInfo ng host x))
       ∧ path i = x
       ∧ module i = package i ≫= Package.name
       ∧ version i = package i ≫= Package.version
       ∧ vmodule i = JsString.join_opt "@" [module i; version i]
       ∧ semver i = "v" +:+ show (version i)
       ∧ (package i = None ↔ ∃ e, getPackage host x = Throw e)
       ∧ (package i = None →
          module i = None ∧ version i = None
          ∧ vmodule i = "@" ∧ semver i = "vundefined").
Proof.
  eexists. split; [apply getInfo_outcome|].
  split; [apply getInfo_only_stderr|].
  cbn [path module version vmodule semver package].
  repeat (split; [reflexivity|]). split.
  - destruct (getPackage host x) as [pkg|e]; simpl.
    + split; [done|]. by intros [? ?].
    + split; [|done]. intros _. by exists e.
  - by destruct (getPackage host x).
Qed.

Section selection_more.
Context (rb : Rubico) (ng : git.Nodegit).

Lemma merge_selects_iff (x : info) :
  selects (merge_predicate rb) x
  ↔ outcome (branch_has_two_parts x) = Ok true
    ∧ outcome (status_isEmpty rb x) = Ok true
    ∧ gt0 rb (behind_of x) = true
    ∧ eq0 (ahead_of x) = true.
Proof.
  unfold selects, merge_predicate, merge_conjuncts. rewrite and_true.
  rewrite !Forall_cons, Forall_nil. simpl. intuition congruence.
Qed.

Lemma push_selects_iff (x : info) :
  selects (push_predicate rb) x
  ↔ outcome (branch_has_two_parts x) = Ok true
    ∧ gt0 rb (ahead_of x) = true
    ∧ eq0 (behind_of x) = true.
Proof.
  unfold selects, push_predicate, push_conjuncts. rewrite and_true.
  rewrite !Forall_cons, Forall_nil. simpl. intuition congruence.
Qed.

Lemma dist_selects_iff (x : info) :
  selects (dist_predicate rb ng) x
  ↔ branch x = Some "master...origin/master"
    ∧ outcome (dist_tag_conjunct ng x) = Ok true
    ∧ outcome (status_isEmpty rb x) = Ok true
    ∧ eq0 (behind_of x) = true
    ∧ gte0 rb (ahead_of x) = true
    ∧ default false (Package.nopack <$> package x) = false.
Proof.
  unfold selects, dist_predicate, dist_conjuncts. rewrite and_true.
  rewrite !Forall_cons, Forall_nil. simpl. split.
  - by intros ([= Hb%bool_decide_eq_true] & Ht & Hs & [= Hbe] & [= Ha]
               & [= Hn%negb_true_iff] & _).
  - intros (Hb & Ht & Hs & Hbe & Ha & Hn).
    by rewrite (bool_decide_eq_true_2 _ Hb), Hbe, Ha, Hn.
Qed.

Lemma never_selected (x : info) :
  (branch x = None ∨ ahead_behind x = Some git.EmptyObject) →
  ¬ selects (merge_predicate rb) x
  ∧ ¬ selects (push_predicate rb) x
  ∧ ¬ selects (dist_predicate rb ng) x.
Proof.
  intros Hnone.
  rewrite merge_selects_iff, push_selects_iff, dist_selects_iff.
  unfold branch_has_two_parts.
  unfold ahead_of, behind_of.
  destruct Hnone as [->| ->]; simpl; intuition congruence.
Qed.

End selection_more.

(** X7.  A directory whose repository cannot be opened still gets a
    snapshot, with every field read through git left [undefined]; and none
    of [merge], [push] and [dist] selects it. *)
Theorem unopened_repository_never_selected
    (rb : Rubico) (ng : git.Nodegit) (host : Host) (x : filepath) (e : string) :
  git.getRepo ng x = Throw e →
  ∃ i, outcome (getInfo ng host x) = Ok i
       ∧ (repo i = None ∧ origin_url i = None ∧ tags i = None
          ∧ branch i = None ∧ status i = None ∧ ahead_behind i = None)
       ∧ ¬ selects (merge_predicate rb) i
       ∧ ¬ selects (push_predicate rb) i
       ∧ ¬ selects (dist_predicate rb ng) i.
Proof.
  intros Hrepo. eexists. split; [apply getInfo_outcome|].
  assert (tryCatch (git.getCurrentBranchName ng x) = None) as Hbranch.
  { unfold git.getCurrentBranchName, git.getHead. by rewrite Hrepo. }
  cbn [repo origin_url tags branch status ahead_behind].
  split.
  - unfold git.getRemoteUrl, git.getTags, git.status, git.getCurrentAheadBehind.
    by rewrite Hbranch, Hrepo.
  - apply never_selected. cbn [branch]. rewrite Hbranch. by left.
Qed.

Lemma unopened_repository_never_selected_witness :
  ∃ i, outcome (getInfo Fixtures.no_repository (Fixtures.machine (fun _ => Ok []))
                  Fixtures.workspace_module) = Ok i
       ∧ (repo i = None ∧ origin_url i = None ∧ tags i = None
          ∧ branch i = None ∧ status i = None ∧ ahead_behind i = None)
       ∧ ¬ selects (merge_predicate Fixtures.lazy_rubico) i
       ∧ ¬ selects (push_predicate Fixtures.lazy_rubico) i
       ∧ ¬ selects (dist_predicate Fixtures.lazy_rubico Fixtures.no_repository) i.
Proof.
  apply (unopened_repository_never_selected Fixtures.lazy_rubico
           Fixtures.no_repository (Fixtures.machine (fun _ => Ok []))
           Fixtures.workspace_module "could not find repository").
  reflexivity.
Defined.

(** X8.  A module whose branch follows no upstream has the bare branch name
    as its branch string and the empty object as its divergence (neither
    [ahead] nor [behind]); none of [merge], [push] and [dist] selects it. *)
Theorem no_upstream_never_selected
    (rb : Rubico) (ng : git.Nodegit) (host : Host) (x : filepath)
    (r : git.repo) (h : git.reference) (e : string) :
  git.getRepo ng x = Ok r →
  git.Repository_head ng r = Ok h →
  git.Branch_upstream ng h = Throw e →
  ∃ i, outcome (getInfo ng host x) = Ok i
       ∧ branch i = Some (git.Reference_shorthand ng h)
       ∧ ahead_behind i = Some git.EmptyObject
       ∧ ¬ selects (merge_predicate rb) i
       ∧ ¬ selects (push_predicate rb) i
       ∧ ¬ selects (dist_predicate rb ng) i.
Proof.
  intros Hrepo Hhead Hup. eexists. split; [apply getInfo_outcome|].
  assert (git.getHead ng x = Ok (h, None)) as Hhu.
  { unfold git.getHead, git.getUpstreamBranch. rewrite Hrepo. simpl.
    rewrite Hhead. simpl. by rewrite Hup. }
  assert (tryCatch (git.getCurrentBranchName ng x)
          = Some (git.Reference_shorthand ng h)) as Hbranch.
  { unfold git.getCurrentBranchName. by rewrite Hhu. }
  assert (tryCatch (git.getCurrentAheadBehind ng x) = Some git.EmptyObject)
    as Hab.
  { unfold git.getCurrentAheadBehind. rewrite Hrepo, Hhu. simpl.
    by destruct (git.Reference_target ng h). }
  cbn [branch ahead_behind]. split; [done|]. split; [done|].
  apply never_selected. right. cbn [ahead_behind].
  destruct (git.getCurrentAheadBehind ng x); by simplify_eq/=.
Qed.

Lemma no_upstream_never_selected_witness :
  ∃ i, outcome (getInfo Fixtures.no_upstream (Fixtures.machine (fun _ => Ok []))
                  Fixtures.workspace_module) = Ok i
       ∧ branch i = Some "topic"
       ∧ ahead_behind i = Some git.EmptyObject
       ∧ ¬ selects (merge_predicate Fixtures.eager_rubico) i
       ∧ ¬ selects (push_predicate Fixtures.eager_rubico) i
       ∧ ¬ selects (dist_predicate Fixtures.eager_rubico Fixtures.no_upstream) i.
Proof.
  apply (no_upstream_never_selected Fixtures.eager_rubico Fixtures.no_upstream
           (Fixtures.machine (fun _ => Ok [])) Fixtures.workspace_module
           ["ws"; "cli"; ".git"] "refs/heads/topic" "no upstream").
  - reflexivity.
  - reflexivity.
  - reflexivity.
Defined.

(** X9.  The displayed path of a snapshot abbreviates the home directory:
    a path that starts with [$HOME] is shown with ['~'] in its place, and a
    path in which [$HOME] does not occur is shown as it is. *)
Theorem fmt_path_abbreviates_home (ng : git.Nodegit) (host : Host) (x : filepath) :
  ∃ i, outcome (getInfo ng host x) = Ok i
       ∧ (∀ rest, render x = HOME host +:+ rest → fmt_path i = "~" +:+ rest)
       ∧ (Props.includes (HOME host) (render x) = false →
          fmt_path i = render x).
Proof.
  eexists. split; [apply getInfo_outcome|].
  cbn [fmt_path]. unfold replaceHome. split.
  - intros rest ->. apply JsPathMore.replaceOne_prefix.
  - apply JsPathMore.replaceOne_absent.
Qed.

Lemma fmt_path_abbreviates_home_witness :
  ∃ i, outcome (getInfo Fixtures.ssh_checkout (Fixtures.machine (fun _ => Ok []))
                  ["home"; "dev"; "ws"; "cli"]) = Ok i
       ∧ fmt_path i = "~/ws/cli".
Proof.
  destruct (fmt_path_abbreviates_home Fixtures.ssh_checkout
              (Fixtures.machine (fun _ => Ok [])) ["home"; "dev"; "ws"; "cli"])
    as (i & Hi & Hhome & _).
  exists i. split; [exact Hi|].
  apply (Hhome "/ws/cli"). reflexivity.
Defined.

(** ** Action Engine: the predicates *)

Section predicates_more.
Context (rb : Rubico) (rs : RubicoStatus) (ng : git.Nodegit).

Lemma branch_has_two_parts_iff (x : info) :
  outcome (branch_has_two_parts x) = Ok true ↔ Spec.has_local_and_upstream x.
Proof.
  unfold branch_has_two_parts, Spec.has_local_and_upstream. split.
  - destruct (branch x) as [b|]; [|done]. simpl.
    intros [= Hlen%bool_decide_eq_true].
    apply JsStringFacts.split_two in Hlen as (l & u & Hsplit & Hb); [|done].
    by exists b, l, u.
  - intros (b & l & u & -> & Hsplit & _). simpl.
    by rewrite Hsplit.
Qed.

(** Of the two counts of a snapshot, one greater than 0 and the other 0:
    the test for 0 fails on a count that was not read, and the counts are
    read together, so what [_.gt] makes of [undefined] does not matter. *)
Lemma gt0_eq0_iff (x : info) :
  (gt0 rb (behind_of x) = true ∧ eq0 (ahead_of x) = true
   ↔ (∃ b, behind_of x = Some b ∧ 0 < b) ∧ ahead_of x = Some 0)
  ∧ (gt0 rb (ahead_of x) = true ∧ eq0 (behind_of x) = true
     ↔ (∃ a, ahead_of x = Some a ∧ 0 < a) ∧ behind_of x = Some 0).
Proof.
  unfold ahead_of, behind_of.
  destruct (ahead_behind x) as [[|a b]|]; simpl.
  - split; (split; [by intros [_ ?] | by intros [_ ?]]).
  - rewrite !bool_decide_eq_true. split; split.
    + intros [? ->]. split; [by exists b | done].
    + by intros [(? & [= <-] & ?) [= ->]].
    + intros [? ->]. split; [by exists a | done].
    + by intros [(? & [= <-] & ?) [= ->]].
  - split; (split; [by intros [_ ?] | by intros [_ ?]]).
Qed.

Lemma eq0_iff (n : option nat) : eq0 n = true ↔ n = Some 0.
Proof.
  destruct n as [k|]; simpl; [|done].
  rewrite bool_decide_eq_true. split; [by intros -> | by intros [= ->]].
Qed.

Lemma status_isEmpty_read (x : info) (entries : list (string * string)) :
  status x = Some entries →
  (outcome (status_isEmpty rb x) = Ok true ↔ entries = []).
Proof.
  intros Hstatus. unfold status_isEmpty. rewrite Hstatus. simpl.
  destruct entries; simpl; split; done.
Qed.

Lemma dist_tag_conjunct_iff (x : info) :
  outcome (dist_tag_conjunct ng x) = Ok true
  ↔ Spec.version_tag_exists x
    ∧ git.descendantOfHead ng (semver x) (path x) = Ok true.
Proof.
  unfold dist_tag_conjunct, Spec.version_tag_exists, has.
  destruct (bool_decide (semver x ∈ default [] (tags x))) eqn:Htag.
  - apply bool_decide_eq_true in Htag. rewrite outcome_bind. simpl.
    split; [done | by intros [_ ?]].
  - apply bool_decide_eq_false in Htag. simpl. split; [done | by intros [? _]].
Qed.

End predicates_more.

(** X10.  For a snapshot whose status was read, [merge] selects it exactly
    when its branch string has a local and an upstream part, it has no
    status entry, [behind > 0] and [ahead = 0]; and [push] selects a
    snapshot exactly when its branch string has both parts, [ahead > 0] and
    [behind = 0].  This holds for either reading of [_.and]. *)
Theorem merge_push_select_exactly
    (rb : Rubico) (x : info) (entries : list (string * string)) :
  status x = Some entries →
  (selects (merge_predicate rb) x
   ↔ Spec.has_local_and_upstream x
     ∧ entries = []
     ∧ (∃ b, behind_of x = Some b ∧ 0 < b)
     ∧ ahead_of x = Some 0)
  ∧ (selects (push_predicate rb) x
     ↔ Spec.has_local_and_upstream x
       ∧ (∃ a, ahead_of x = Some a ∧ 0 < a)
       ∧ behind_of x = Some 0).
Proof.
  intros Hstatus.
  rewrite merge_selects_iff, push_selects_iff.
  rewrite branch_has_two_parts_iff, (status_isEmpty_read rb x entries Hstatus).
  destruct (gt0_eq0_iff rb x) as [Hmerge Hpush].
  by rewrite Hmerge, Hpush.
Qed.

Lemma merge_push_select_exactly_witness :
  (selects (merge_predicate Fixtures.eager_rubico) Fixtures.moduleY
   ↔ Spec.has_local_and_upstream Fixtures.moduleY
     ∧ ([] : list (string * string)) = []
     ∧ (∃ b, behind_of Fixtures.moduleY = Some b ∧ 0 < b)
     ∧ ahead_of Fixtures.moduleY = Some 0)
  ∧ (selects (push_predicate Fixtures.eager_rubico) Fixtures.moduleY
     ↔ Spec.has_local_and_upstream Fixtures.moduleY
       ∧ (∃ a, ahead_of Fixtures.moduleY = Some a ∧ 0 < a)
       ∧ behind_of Fixtures.moduleY = Some 0).
Proof.
  apply (merge_push_select_exactly Fixtures.eager_rubico Fixtures.moduleY []).
  reflexivity.
Defined.

(** X11.  For a snapshot whose status was read, [dist] selects it exactly
    when it is on ["master...origin/master"], the tag of its version is
    among its tags, HEAD descends from that tag's commit, it has no status
    entry, [behind = 0] and its manifest does not set [nopack].  The
    [ahead >= 0] test adds nothing: how far the module is ahead plays no
    role. *)
Theorem dist_selects_exactly
    (rb : Rubico) (ng : git.Nodegit) (x : info)
    (entries : list (string * string)) :
  status x = Some entries →
  (selects (dist_predicate rb ng) x
   ↔ branch x = Some "master...origin/master"
     ∧ Spec.version_tag_exists x
     ∧ git.descendantOfHead ng (semver x) (path x) = Ok true
     ∧ entries = []
     ∧ behind_of x = Some 0
     ∧ ∀ pkg, package x = Some pkg → Package.nopack pkg = false).
Proof.
  intros Hstatus.
  rewrite dist_selects_iff, dist_tag_conjunct_iff.
  rewrite (status_isEmpty_read rb x entries Hstatus), eq0_iff.
  assert (default false (Package.nopack <$> package x) = false
          ↔ ∀ pkg, package x = Some pkg → Package.nopack pkg = false) as ->.
  { destruct (package x) as [pkg|]; simpl.
    - split; [by intros ? ? [= <-] | by intros H; apply H].
    - split; done. }
  split.
  - by intros (Hb & [Ht Hd] & He & Hbe & _ & Hn).
  - intros (Hb & Ht & Hd & He & Hbe & Hn). repeat split; try done.
    unfold behind_of, ahead_of in *.
    destruct (ahead_behind x) as [[|a b]|]; simpl in *; try done;
      apply bool_decide_eq_true; lia.
Qed.

Lemma dist_selects_exactly_witness :
  selects (dist_predicate Fixtures.lazy_rubico Fixtures.released_checkout)
    Fixtures.tagged
  ↔ branch Fixtures.tagged = Some "master...origin/master"
    ∧ Spec.version_tag_exists Fixtures.tagged
    ∧ git.descendantOfHead Fixtures.released_checkout
        (semver Fixtures.tagged) (path Fixtures.tagged) = Ok true
    ∧ ([] : list (string * string)) = []
    ∧ behind_of Fixtures.tagged = Some 0
    ∧ ∀ pkg, package Fixtures.tagged = Some pkg → Package.nopack pkg = false.
Proof.
  apply (dist_selects_exactly Fixtures.lazy_rubico Fixtures.released_checkout
           Fixtures.tagged []).
  reflexivity.
Defined.

(** X12.  [status] lists a module whose divergence and status were read
    exactly when it has something to show for it: it is ahead, or behind,
    or has a status entry.  The bracket [fmtAheadBehind] prints is empty
    exactly when the module is neither ahead nor behind.  This holds for
    either reading of [_.or]. *)
Theorem status_lists_what_differs
    (rb : Rubico) (rs : RubicoStatus) (x : info)
    (ab : git.ahead_behind) (entries : list (string * string)) :
  ahead_behind x = Some ab →
  status x = Some entries →
  (selects (status_predicate rb rs) x
   ↔ (∃ a, git.ahead ab = Some a ∧ 0 < a)
     ∨ (∃ b, git.behind ab = Some b ∧ 0 < b)
     ∨ entries ≠ [])
  ∧ (fmtAheadBehind ab = ""
     ↔ ¬ (∃ a, git.ahead ab = Some a ∧ 0 < a)
       ∧ ¬ (∃ b, git.behind ab = Some b ∧ 0 < b)).
Proof.
  intros Hab Hstatus. split.
  - unfold selects, status_predicate, or_, or_all, any_not_zero,
      status_not_isEmpty, status_isEmpty.
    rewrite Hab, Hstatus.
    destruct ab as [|a b]; simpl.
    + destruct entries as [|entry entries], (or_calls_all rs); simpl;
        split; try done; try (intros _; by right; right);
        by intros [(? & ? & _)|[(? & ? & _)|?]].
    + destruct a as [|a], b as [|b], entries as [|entry entries],
        (or_calls_all rs); simpl; split; try done;
        try (intros _; first [by right; right
                             | left; eexists; split; [done|lia]
                             | right; left; eexists; split; [done|lia]]);
        intros [(? & [= <-] & ?)|[(? & [= <-] & ?)|?]]; done || lia.
  - unfold fmtAheadBehind. destruct ab as [|a b]; simpl.
    + split; [|done]. intros _. split; by intros (? & ? & _).
    + destruct a as [|a], b as [|b]; simpl; split; try done;
        try (intros _; split; intros (? & [= <-] & ?); lia);
        intros [Ha Hb]; exfalso;
        first [apply Ha; eexists; split; [done|lia]
              | apply Hb; eexists; split; [done|lia]].
Qed.

Lemma status_lists_what_differs_witness :
  (selects (status_predicate Fixtures.lazy_rubico
              {| or_calls_all := false; any_undefined := Ok false |})
     Fixtures.moduleX
   ↔ (∃ a, git.ahead (git.Counts 2 0) = Some a ∧ 0 < a)
     ∨ (∃ b, git.behind (git.Counts 2 0) = Some b ∧ 0 < b)
     ∨ ([] : list (string * string)) ≠ [])
  ∧ (fmtAheadBehind (git.Counts 2 0) = ""
     ↔ ¬ (∃ a, git.ahead (git.Counts 2 0) = Some a ∧ 0 < a)
       ∧ ¬ (∃ b, git.behind (git.Counts 2 0) = Some b ∧ 0 < b)).
Proof.
  apply (status_lists_what_differs Fixtures.lazy_rubico
           {| or_calls_all := false; any_undefined := Ok false |}
           Fixtures.moduleX (git.Counts 2 0) []).
  - reflexivity.
  - reflexivity.
Defined.

(** ** Action Engine: the commands *)

Section neat_log_more.
Context (host : Host).

Lemma neatLogRest_throws (indent : nat) (rest : list (option string)) :
  ∀ cur, (∃ e, outcome (neatLogRest host indent cur rest) = Throw e)
         ↔ None ∈ rest.
Proof.
  induction rest as [|[s|] rest IH]; intros cur.
  - simpl. split; [by intros [? ?] | by intros ?%elem_of_nil].
  - cbn [neatLogRest].
    destruct (line_is_full host cur s);
      rewrite outcome_bind; simpl; rewrite IH;
      rewrite elem_of_cons; intuition congruence.
  - simpl. split; [intros _; by left | by eexists].
Qed.

Lemma neatLogCollection_throws (x : list (option string)) (lineStart : string) :
  (∃ e, outcome (neatLogCollection host x lineStart) = Throw e) ↔ None ∈ x.
Proof.
  destruct x as [|[s|] rest].
  - simpl. split; [by intros [? ?] | by intros ?%elem_of_nil].
  - unfold neatLogCollection.
    rewrite !outcome_bind. simpl. rewrite !outcome_bind.
    destruct (outcome (neatLogRest host _ _ rest)) as [[]|e] eqn:Hrest.
    + simpl. split; [by intros [? ?]|].
      intros [?|Hin]%elem_of_cons; [done|].
      apply (neatLogRest_throws (String.length lineStart) rest
               (String.length lineStart + String.length s)) in Hin
        as [e He].
      congruence.
    + split; [|by eexists]. intros _. right.
      apply (neatLogRest_throws (String.length lineStart) rest
               (String.length lineStart + String.length s)).
      by eexists.
  - unfold neatLogCollection. rewrite !outcome_bind. simpl.
    split; [intros _; by left | by eexists].
Qed.

Lemma neatLogRest_layout (indent : nat) (items : list string) :
  ∀ cur, ∃ seps,
    length seps = length items
    ∧ Forall (fun sep => sep = "  " ∨ sep = nl +:+ spaces indent) seps
    ∧ (columns host = None → seps = replicate (length items) "  ")
    ∧ trace (neatLogRest host indent cur (Some <$> items))
      = zip_with (fun sep s => Stdout (sep +:+ s)) seps items.
Proof.
  induction items as [|s items IH]; intros cur.
  - exists []. by repeat split.
  - rewrite fmap_cons. cbn [neatLogRest].
    destruct (line_is_full host cur s) eqn:Hfull.
    + destruct (IH (String.length (nl +:+ spaces indent +:+ s)))
        as (seps & Hlen & Hseps & Hnone & Htrace).
      exists ((nl +:+ spaces indent) :: seps). repeat split.
      * simpl. by rewrite Hlen.
      * apply Forall_cons. split; [by right | done].
      * intros Hcol. unfold line_is_full in Hfull. by rewrite Hcol in Hfull.
      * rewrite trace_bind. cbn [emit trace outcome]. rewrite Htrace.
        cbn [zip_with]. by rewrite JsStringFacts.app_assoc.
    + destruct (IH (cur + String.length s))
        as (seps & Hlen & Hseps & Hnone & Htrace).
      exists ("  " :: seps). repeat split.
      * simpl. by rewrite Hlen.
      * apply Forall_cons. split; [by left | done].
      * intros Hcol. simpl. by rewrite Hnone.
      * rewrite trace_bind. cbn [emit trace outcome]. by rewrite Htrace.
Qed.

End neat_log_more.

(** X13.  [neatLogCollection] throws exactly when the list holds an
    [undefined] element.  On a list of strings it prints the line start and
    then every item once, in order: the first as it is, each later one after
    two blanks or, where the line would grow too long, after a line break
    and an indent as wide as the line start; it ends with two line breaks.
    Where the terminal width is unknown no line is ever broken. *)
Theorem neatLogCollection_prints_every_item
    (host : Host) (x : list (option string)) (lineStart : string) :
  ((∃ e, outcome (neatLogCollection host x lineStart) = Throw e) ↔ None ∈ x)
  ∧ ∀ item items,
      x = Some <$> (item :: items) →
      ∃ seps,
        length seps = length items
        ∧ Forall (fun sep => sep = "  "
                             ∨ sep = nl +:+ spaces (String.length lineStart)) seps
        ∧ (columns host = None → seps = replicate (length items) "  ")
        ∧ trace (neatLogCollection host x lineStart)
          = Stdout lineStart :: Stdout item
              :: zip_with (fun sep s => Stdout (sep +:+ s)) seps items
              ++ [Stdout (nl +:+ nl)].
Proof.
  split; [apply neatLogCollection_throws|].
  intros item items ->.
  destruct (neatLogRest_layout host (String.length lineStart) items
              (String.length lineStart + String.length item))
    as (seps & Hlen & Hseps & Hnone & Htrace).
  exists seps. repeat split; try done.
  rewrite fmap_cons. unfold neatLogCollection.
  rewrite !trace_bind. cbn [emit trace outcome lift].
  rewrite trace_bind, Htrace.
  by rewrite neatLogRest_completes.
Qed.

Section announce_more.
Context (ng : git.Nodegit) (host : Host).

Lemma getInfo_all_outcome (mods : list filepath) :
  ∃ infos,
    outcome (map_all (getInfo ng host) mods) = Ok infos
    ∧ Forall2 (fun p i => outcome (getInfo ng host p) = Ok i) mods infos.
Proof.
  destruct (getInfo_all_completes ng host mods) as [infos Hinfos].
  exists infos. split; [done|]. by apply map_all_Ok.
Qed.

Lemma getInfo_all_only_stderr (mods : list filepath) :
  Spec.only (fun e => ∃ text, e = Stderr text) (map_all (getInfo ng host) mods).
Proof. apply only_map_all. intros x _. apply getInfo_only_stderr. Qed.

(** A command that announces a field of every snapshot stops there when
    one snapshot lacks the field. *)
Lemma announce_throws {B} (f : info → option string)
    (header : list info → string) (k : list info → Eff B)
    (mods : list filepath) (p : filepath) (i : info) :
  p ∈ mods →
  outcome (getInfo ng host p) = Ok i →
  f i = None →
  (∃ e, outcome (x ← map_all (getInfo ng host) mods;
                 _ ← neatLogCollection host (map f x) (header x);
                 k x) = Throw e)
  ∧ ∀ ev, ev ∈ trace (x ← map_all (getInfo ng host) mods;
                      _ ← neatLogCollection host (map f x) (header x);
                      k x) →
          (∃ text, ev = Stderr text) ∨ (∃ text, ev = Stdout text).
Proof.
  intros Hp Hi Hf.
  destruct (getInfo_all_outcome mods) as (infos & Hinfos & Hall).
  destruct (Forall2_elem_of_l _ _ _ _ Hall Hp) as (i' & Hi' & Hpi).
  assert (i' = i) as -> by congruence.
  assert (None ∈ map f infos) as Hnone.
  { apply list_elem_of_fmap. by exists i. }
  apply (neatLogCollection_throws host _ (header infos)) in Hnone as [e He].
  split.
  - exists e. by rewrite outcome_bind, Hinfos, outcome_bind, He.
  - intros ev. rewrite trace_bind, Hinfos, trace_bind, He, app_nil_r.
    intros [Hev|Hev]%elem_of_app.
    + left. revert ev Hev. apply Forall_forall, getInfo_all_only_stderr.
    + right. revert ev Hev. apply Forall_forall.
      apply (only_neatLogCollection host (fun e => ∃ text, e = Stdout text)).
      by eexists.
Qed.

End announce_more.

(** X14.  [install] stops before it starts anything when one discovered
    module has no name (its manifest cannot be read, or names nothing): in
    either mode the command rejects after printing at most errors and the
    beginning of its list; no [npm i] is started for any module and no
    progress bar is drawn. *)
Theorem install_stops_at_unnamed_module
    (ng : git.Nodegit) (host : Host) (argv : list string)
    (mods : list filepath) (p : filepath) :
  p ∈ mods →
  (∀ pkg, getPackage host p = Ok pkg → Package.name pkg = None) →
  (∃ e, outcome (install_from ng host argv mods) = Throw e)
  ∧ ∀ ev, ev ∈ trace (install_from ng host argv mods) →
          (∃ text, ev = Stderr text) ∨ (∃ text, ev = Stdout text).
Proof.
  intros Hp Hname.
  destruct (getInfo_always_answers ng host p)
    as (i & Hi & _ & _ & Hmodule & _).
  assert (module i = None) as Hnone.
  { rewrite getInfo_outcome in Hi. injection Hi as <-. simpl.
    destruct (getPackage host p) as [pkg|e] eqn:Hpkg; [|done].
    by apply Hname. }
  exact (announce_throws ng host module
           (fun x => "installing (" +:+ pretty (length x) +:+ ") ") _
           mods p i Hp Hi Hnone).
Qed.

Lemma install_stops_at_unnamed_module_witness :
  (∃ e, outcome (install_from Fixtures.ssh_checkout
                   (Fixtures.machine (fun _ => Ok [])) []
                   [Fixtures.workspace_module]) = Throw e)
  ∧ ∀ ev, ev ∈ trace (install_from Fixtures.ssh_checkout
                        (Fixtures.machine (fun _ => Ok [])) []
                        [Fixtures.workspace_module]) →
          (∃ text, ev = Stderr text) ∨ (∃ text, ev = Stdout text).
Proof.
  apply (install_stops_at_unnamed_module Fixtures.ssh_checkout
           (Fixtures.machine (fun _ => Ok [])) []
           [Fixtures.workspace_module] Fixtures.workspace_module).
  - by left.
  - intros pkg Hpkg. discriminate Hpkg.
Defined.

(** X15.  [fetch] stops before it fetches anything when one discovered
    module has no [origin_url] (no remote [origin], or a URL without
    ['@']): the command rejects after printing at most errors and the
    beginning of its list, and no [git fetch] is started for any module.
    [pull] then ends with the fetch: its merge step never starts. *)
Theorem fetch_stops_at_module_without_origin_url
    (rb : Rubico) (ng fetched : git.Nodegit) (host : Host)
    (fuel : nat) (i : input) (mods : list filepath) (p : filepath) :
  findModules host fuel (paths i) = Some mods →
  p ∈ mods →
  mjoin (tryCatch (git.getRemoteUrl ng "origin" p)) = None →
  ∃ fetching pulling,
    fetchAll ng host fuel i = Some fetching
    ∧ pull rb ng host fetched fuel i = Some pulling
    ∧ (∃ e, outcome fetching = Throw e ∧ outcome pulling = Throw e)
    ∧ (∀ ev, ev ∈ trace fetching →
             (∃ text, ev = Stderr text) ∨ (∃ text, ev = Stdout text))
    ∧ trace pulling = trace fetching.
Proof.
  intros Hfind Hp Hurl.
  destruct (getInfo_always_answers ng host p) as (s & Hs & _).
  assert (origin_url s = None) as Hnone.
  { rewrite getInfo_outcome in Hs. by injection Hs as <-. }
  destruct (announce_throws ng host origin_url
              (fun x => "fetching (" +:+ pretty (length x) +:+ ") ")
              (fun x =>
                 _ ← emit BarRender;
                 map_all (fun m =>
                            _ ← try_catch
                                  (run host "git"
                                     (git_options (path m) ++ ["fetch"; "--all"]) 0)
                                  (fun e => [BarInterrupt ("fetch failed: " +:+ e)]);
                            emit BarTick)
                         x)
              mods p s Hp Hs Hnone) as [[e He] Hprints].
  exists (fetchAll_from ng host mods),
         (_ ← fetchAll_from ng host mods; merge_from rb fetched host mods).
  split; [unfold fetchAll; by rewrite Hfind|].
  split; [unfold pull, fetchAll, merge; by rewrite Hfind|].
  split; [|split].
  - exists e. split; [exact He|]. rewrite outcome_bind.
    unfold fetchAll_from. by rewrite He.
  - exact Hprints.
  - rewrite trace_bind. unfold fetchAll_from at 2. rewrite He.
    by rewrite app_nil_r.
Qed.

Lemma fetch_stops_at_module_without_origin_url_witness :
  ∃ fetching pulling,
    fetchAll Fixtures.https_checkout Fixtures.release_machine 2
      {| paths := [["ws"]]; argv := [] |} = Some fetching
    ∧ pull Fixtures.lazy_rubico Fixtures.https_checkout Fixtures.release_machine
        Fixtures.https_checkout 2 {| paths := [["ws"]]; argv := [] |}
      = Some pulling
    ∧ (∃ e, outcome fetching = Throw e ∧ outcome pulling = Throw e)
    ∧ (∀ ev, ev ∈ trace fetching →
             (∃ text, ev = Stderr text) ∨ (∃ text, ev = Stdout text))
    ∧ trace pulling = trace fetching.
Proof.
  apply (fetch_stops_at_module_without_origin_url Fixtures.lazy_rubico
           Fixtures.https_checkout Fixtures.https_checkout
           Fixtures.release_machine 2 {| paths := [["ws"]]; argv := [] |}
           [["ws"; "fresh"]] ["ws"; "fresh"]).
  - reflexivity.
  - by left.
  - reflexivity.
Defined.

(** X16.  [clean] knows no dry run: for every discovered module it starts
    [git clean -fxdq] on that module's work tree and then prints
    [cleaned <path>], also when the clean failed (the failure is printed as
    an error); the command never rejects, and it starts no other process
    and changes nothing else. *)
Theorem clean_cleans_every_module
    (ng : git.Nodegit) (host : Host) (mods : list filepath) :
  Spec.completes (clean_from ng host mods)
  ∧ (∀ p, p ∈ mods →
          Execa "git" (git_options p ++ ["clean"; "-fxdq"])
            ∈ trace (clean_from ng host mods)
          ∧ Stdout ("cleaned " +:+ render p) ∈ trace (clean_from ng host mods))
  ∧ (∀ ev, ev ∈ trace (clean_from ng host mods) → mutates ev = true →
           ∃ p, p ∈ mods ∧ ev = Execa "git" (git_options p ++ ["clean"; "-fxdq"])).
Proof.
  destruct (getInfo_all_outcome ng host mods) as (infos & Hinfos & Hall).
  assert (∀ x, x ∈ infos → path x ∈ mods) as Hpath.
  { intros x Hx.
    destruct (Forall2_elem_of_r _ _ _ _ Hall Hx) as (p & Hp & Hpx).
    rewrite getInfo_outcome in Hpx. by injection Hpx as <-. }
  assert (∀ x : info,
            trace (_ ← try_catch
                         (run host "git"
                            (git_options (path x) ++ ["clean"; "-fxdq"]) 0)
                         (fun e => [Stderr ("clean failed: " +:+ e)]);
                   console_log ("cleaned " +:+ render (path x)))
            = Execa "git" (git_options (path x) ++ ["clean"; "-fxdq"])
                :: match execa host "git"
                           (git_options (path x) ++ ["clean"; "-fxdq"]) 0 with
                   | Ok _ => []
                   | Throw e => [Stderr ("clean failed: " +:+ e)]
                   end
                ++ [Stdout ("cleaned " +:+ render (path x))]) as Hone.
  { intros x. rewrite trace_bind, outcome_try_catch, trace_try_catch.
    unfold run. rewrite trace_bind, outcome_bind. cbn [emit trace outcome lift].
    rewrite app_nil_r. by destruct (execa host _ _ _). }
  split; [|split].
  - unfold clean_from, Spec.completes. rewrite outcome_bind, Hinfos.
    apply map_all_completes. intros x _.
    unfold Spec.completes. rewrite outcome_bind, outcome_try_catch.
    by eexists.
  - intros p Hp.
    destruct (Forall2_elem_of_l _ _ _ _ Hall Hp) as (x & Hx & Hpx).
    assert (path x = p) as Hxp.
    { rewrite getInfo_outcome in Hpx. by injection Hpx as <-. }
    unfold clean_from. rewrite trace_bind, Hinfos.
    split; apply elem_of_app; right; apply elem_of_trace_map_all;
      exists x; (split; [done|]); rewrite Hone, Hxp.
    + by left.
    + right. apply elem_of_app. right. by left.
  - intros ev Hev Hmut. unfold clean_from in Hev.
    rewrite trace_bind, Hinfos in Hev.
    apply elem_of_app in Hev as [Hev|Hev].
    + pose proof (getInfo_all_only_stderr ng host mods) as Hst.
      unfold Spec.only in Hst. rewrite Forall_forall in Hst.
      destruct (Hst ev Hev) as [text ->]. discriminate Hmut.
    + apply elem_of_trace_map_all in Hev as (x & Hx & Hev).
      rewrite Hone in Hev. exists (path x). split; [by apply Hpath|].
      apply elem_of_cons in Hev as [->|Hev]; [done|].
      exfalso. apply elem_of_app in Hev as [Hev|Hev].
      * destruct (execa host _ _ _); [by apply elem_of_nil in Hev|].
        by apply list_elem_of_singleton in Hev as ->.
      * by apply list_elem_of_singleton in Hev as ->.
Qed.

(** The events of a handler: none when the call went well. *)
Ltac handler_events H :=
  match type of H with
  | context [match ?o with Ok _ => [] | Throw _ => _ end] =>
      destruct o; [by apply elem_of_nil in H|]
  end.

Section events_more.
Context (rb : Rubico) (ng : git.Nodegit) (host : Host).

Lemma quiet_elem {A} (m : Eff A) (ev : event) :
  Spec.quiet m → ev ∈ trace m → mutates ev = true → False.
Proof.
  unfold Spec.quiet, Spec.only. rewrite Forall_forall.
  intros Hquiet Hev Hmut. specialize (Hquiet ev Hev). congruence.
Qed.

Lemma snapshot_of_module (mods : list filepath) (infos : list info) (x : info) :
  outcome (map_all (getInfo ng host) mods) = Ok infos →
  x ∈ infos →
  path x ∈ mods ∧ outcome (getInfo ng host (path x)) = Ok x.
Proof.
  intros Hinfos%map_all_Ok Hx.
  destruct (Forall2_elem_of_r _ _ _ _ Hinfos Hx) as (p & Hp & Hpx).
  assert (path x = p) as ->; [|done].
  rewrite getInfo_outcome in Hpx. by injection Hpx as <-.
Qed.

Lemma git_merge_trace (x : info) (local upstream : string) (ev : event) :
  branch x = Some (local +:+ "..." +:+ upstream) →
  JsString.split "..." (local +:+ "..." +:+ upstream) = [local; upstream] →
  ev ∈ trace (git_merge ng x) →
  ev = MergeBranches (path x) [local; upstream].
Proof.
  intros Hbranch Hsplit. unfold git_merge. rewrite Hbranch.
  rewrite trace_bind. cbn [lift trace outcome app].
  rewrite trace_bind, Hsplit.
  destruct (git.getRepo ng (path x)); cbn [emit mret Eff_ret trace outcome lift].
  - rewrite app_nil_r. by intros ->%list_elem_of_singleton.
  - by intros ?%elem_of_nil.
Qed.

End events_more.

(** X17.  The only thing [merge] ever changes is a [mergeBranches] call on
    a discovered module that its predicate selected, and the call names
    exactly the local and the upstream branch of that module's snapshot. *)
Theorem merge_only_merges_selected
    (rb : Rubico) (ng : git.Nodegit) (host : Host)
    (mods : list filepath) (ev : event) :
  ev ∈ trace (merge_from rb ng host mods) →
  mutates ev = true →
  ∃ p i local upstream,
    p ∈ mods
    ∧ outcome (getInfo ng host p) = Ok i
    ∧ selects (merge_predicate rb) i
    ∧ branch i = Some (local +:+ "..." +:+ upstream)
    ∧ ev = MergeBranches p [local; upstream].
Proof.
  intros Hev Hmut. unfold merge_from in Hev.
  apply elem_of_trace_bind in Hev as [Hev|(infos & Hinfos & Hev)].
  { exfalso. eapply quiet_elem; [|exact Hev|exact Hmut].
    apply discreet_quiet, getInfo_all_discreet. }
  apply elem_of_trace_map_all in Hev as (x & Hx & Hev).
  destruct (snapshot_of_module ng host mods infos x Hinfos Hx) as [Hp Hsnap].
  apply elem_of_trace_bind in Hev as [Hev|(ok & Hok & Hev)].
  { exfalso. eapply quiet_elem; [|exact Hev|exact Hmut].
    apply discreet_quiet, merge_predicate_discreet. }
  destruct ok; [|by apply elem_of_nil in Hev].
  pose proof Hok as (Hbranch & _)%merge_selects_iff.
  apply branch_has_two_parts_iff in Hbranch
    as (b & local & upstream & Hb & Hsplit & ->).
  exists (path x), x, local, upstream. repeat split; try done.
  apply elem_of_trace_bind in Hev as [Hev|(merged & _ & Hev)].
  - rewrite trace_try_catch in Hev. apply elem_of_app in Hev as [Hev|Hev].
    + apply elem_of_trace_bind in Hev as [Hev|(? & _ & Hev)];
        [|by apply elem_of_nil in Hev].
      by apply (git_merge_trace ng x local upstream).
    + handler_events Hev.
      by apply list_elem_of_singleton in Hev as ->.
  - by apply list_elem_of_singleton in Hev as ->.
Qed.

Lemma merge_only_merges_selected_witness :
  ∃ p i local upstream,
    p ∈ [Fixtures.workspace_module]
    ∧ outcome (getInfo (Fixtures.checkout_with "git@github.com:chimaera-node/cli.git"
                          [] (0, 1))
                 (Fixtures.machine (fun _ => Ok [])) p) = Ok i
    ∧ selects (merge_predicate Fixtures.lazy_rubico) i
    ∧ branch i = Some (local +:+ "..." +:+ upstream)
    ∧ MergeBranches Fixtures.workspace_module ["master"; "origin/master"]
      = MergeBranches p [local; upstream].
Proof.
  apply (merge_only_merges_selected Fixtures.lazy_rubico
           (Fixtures.checkout_with "git@github.com:chimaera-node/cli.git" [] (0, 1))
           (Fixtures.machine (fun _ => Ok [])) [Fixtures.workspace_module]).
  - apply (list_elem_of_lookup_2 _ 0). vm_compute. reflexivity.
  - reflexivity.
Defined.

(** X18.  The only thing [push] ever changes is to start [git push] on the
    work tree of a discovered module that its predicate selected, and only
    in a real run. *)
Theorem push_only_pushes_selected
    (rb : Rubico) (ng : git.Nodegit) (host : Host)
    (argv : list string) (mods : list filepath) (ev : event) :
  ev ∈ trace (push_from rb ng host argv mods) →
  mutates ev = true →
  isDryRun argv = false
  ∧ ∃ p i,
      p ∈ mods
      ∧ outcome (getInfo ng host p) = Ok i
      ∧ selects (push_predicate rb) i
      ∧ ev = Execa "git" (git_options p ++ ["push"]).
Proof.
  intros Hev Hmut. unfold push_from in Hev.
  apply elem_of_trace_bind in Hev as [Hev|(infos & Hinfos & Hev)].
  { exfalso. eapply quiet_elem; [|exact Hev|exact Hmut].
    apply discreet_quiet, getInfo_all_discreet. }
  apply elem_of_trace_bind in Hev as [Hev|(x & Hx & Hev)].
  { exfalso. eapply quiet_elem; [|exact Hev|exact Hmut].
    apply only_filter_all. intros m _.
    apply discreet_quiet, push_predicate_discreet. }
  apply elem_of_trace_bind in Hev as [Hev|(labels & _ & Hev)];
    [by apply elem_of_nil in Hev|].
  apply elem_of_trace_bind in Hev as [Hev|([] & _ & Hev)].
  { exfalso. eapply quiet_elem; [|exact Hev|exact Hmut].
    apply quiet_neatLogCollection. }
  apply elem_of_trace_bind in Hev as [Hev|([] & _ & Hev)].
  { exfalso. eapply quiet_elem; [|exact Hev|exact Hmut].
    apply quiet_render_bar. }
  apply elem_of_trace_map_all in Hev as (m & Hm & Hev).
  destruct (filter_all_Ok _ _ _ Hx m Hm) as [Hin Hsel].
  destruct (snapshot_of_module ng host mods infos m Hinfos Hin) as [Hp Hsnap].
  destruct (isDryRun argv).
  { exfalso. apply elem_of_trace_bind in Hev as [Hev|(? & _ & Hev)];
      [by apply elem_of_nil in Hev|].
    apply elem_of_trace_bind in Hev as [Hev|(? & _ & Hev)];
      [|by apply elem_of_nil in Hev].
    by apply list_elem_of_singleton in Hev as ->. }
  split; [done|]. exists (path m), m. repeat split; try done.
  apply elem_of_trace_bind in Hev as [Hev|(? & _ & Hev)].
  - rewrite trace_try_catch in Hev. apply elem_of_app in Hev as [Hev|Hev].
    + apply elem_of_trace_bind in Hev as [Hev|(? & _ & Hev)];
        [|by apply elem_of_nil in Hev].
      rewrite trace_run in Hev. by apply list_elem_of_singleton in Hev.
    + handler_events Hev.
      by apply list_elem_of_singleton in Hev as ->.
  - apply elem_of_trace_bind in Hev as [Hev|(? & _ & Hev)];
      [|by apply elem_of_nil in Hev].
    by apply list_elem_of_singleton in Hev as ->.
Qed.

Lemma push_only_pushes_selected_witness :
  isDryRun [] = false
  ∧ ∃ p i,
      p ∈ [Fixtures.workspace_module]
      ∧ outcome (getInfo (Fixtures.checkout_with "git@github.com:chimaera-node/cli.git"
                            [] (1, 0))
                   (Fixtures.machine (fun _ => Ok [])) p) = Ok i
      ∧ selects (push_predicate Fixtures.lazy_rubico) i
      ∧ Execa "git" (git_options Fixtures.workspace_module ++ ["push"])
        = Execa "git" (git_options p ++ ["push"]).
Proof.
  apply (push_only_pushes_selected Fixtures.lazy_rubico
           (Fixtures.checkout_with "git@github.com:chimaera-node/cli.git" [] (1, 0))
           (Fixtures.machine (fun _ => Ok [])) [] [Fixtures.workspace_module]).
  - apply (list_elem_of_lookup_2 _ 4). vm_compute. reflexivity.
  - reflexivity.
Defined.

Section join_more.

Lemma normalize_plain (acc segments : list string) :
  Props.plain_segments segments →
  foldl normalize_step acc segments = acc ++ segments.
Proof.
  intros Hplain. revert acc.
  induction Hplain as [|seg segments (Hempty & Hdot & Hdots) _ IH]; intros acc.
  - by rewrite app_nil_r.
  - cbn [foldl]. rewrite IH. unfold normalize_step.
    rewrite decide_False by (by intros [?|?]).
    rewrite decide_False by done.
    by rewrite <- app_assoc.
Qed.

(** Joining plain segments to a plain path appends them. *)
Lemma nodePath_join_plain (x : filepath) (name : string) :
  Props.plain_segments x →
  Props.plain_segments (JsString.split "/" name) →
  nodePath_join x ["node_modules"; name]
  = x ++ "node_modules" :: JsString.split "/" name.
Proof.
  intros Hx Hname. unfold nodePath_join, normalize.
  replace (mjoin (JsString.split "/" <$> ["node_modules"; name]))
    with ("node_modules" :: JsString.split "/" name).
  2: { cbn [fmap list_fmap mjoin list_join]. by rewrite app_nil_r. }
  rewrite foldl_app, (normalize_plain [] x Hx). cbn [app].
  apply (normalize_plain x).
  apply Forall_cons. split; [by repeat split|done].
Qed.

End join_more.

(** Scenario: a module whose manifest name is [..].  The place [link]
    removes and links at for it is the depending module's own directory. *)
Example nodePath_join_parent :
  nodePath_join ["ws"; "app"] ["node_modules"; ".."] = ["ws"; "app"].
Proof. reflexivity. Qed.

(** X19.  The only things [link] ever changes are the places it computes
    for the entries of a discovered module's symlinks list, and only in a
    real run: every removal and every symlink is at
    [nodePath.join(<module path>, 'node_modules', <name>)], where [name] is
    the [module] property of what the lookup found for a dependency that
    module declares, and the symlink points at the [path] of what was found.
    When a snapshot was found, it is a discovered module whose name is the
    declared dependency.  When the module path and [name] consist of plain
    segments (none empty, [.] or [..]), the place lies inside the module's
    [node_modules] directory. *)
Theorem link_only_links_declared_entries
    (ng : git.Nodegit) (host : Host)
    (argv : list string) (mods : list filepath) (ev : event) :
  ev ∈ trace (link_from ng host argv mods) →
  mutates ev = true →
  isDryRun argv = false
  ∧ ∃ infos owner k dep name,
      outcome (map_all (getInfo ng host) mods) = Ok infos
      ∧ (path owner ∈ mods ∧ outcome (getInfo ng host (path owner)) = Ok owner)
      ∧ k ∈ declared owner
      ∧ lookup host (moduleStore infos) k = Some dep
      ∧ entry_module dep = Some name
      ∧ (ev = Remove (nodePath_join (path owner) ["node_modules"; name])
         ∨ ev = EnsureSymlink (entry_path dep)
                  (nodePath_join (path owner) ["node_modules"; name]))
      ∧ (∀ s, dep = Snapshot s →
              name = k
              ∧ path s ∈ mods ∧ outcome (getInfo ng host (path s)) = Ok s)
      ∧ (Props.plain_segments (path owner) →
         Props.plain_segments (JsString.split "/" name) →
         nodePath_join (path owner) ["node_modules"; name]
         = path owner ++ "node_modules" :: JsString.split "/" name).
Proof.
  intros Hev Hmut. unfold link_from in Hev.
  apply elem_of_trace_bind in Hev as [Hev|(infos & Hinfos & Hev)].
  { exfalso. eapply quiet_elem; [|exact Hev|exact Hmut].
    apply discreet_quiet, getInfo_all_discreet. }
  cbv zeta in Hev.
  apply elem_of_trace_bind in Hev as [Hev|([] & _ & Hev)]; cycle 1.
  { exfalso. apply elem_of_trace_map_all in Hev as (l & _ & Hev).
    apply elem_of_trace_bind in Hev as [Hev|(? & _ & Hev)];
      [by apply elem_of_nil in Hev|].
    by apply list_elem_of_singleton in Hev as ->. }
  destruct (isDryRun argv); [by apply elem_of_nil in Hev|].
  split; [done|].
  apply elem_of_trace_bind in Hev as [Hev|(? & _ & Hev)];
    [|by apply elem_of_nil in Hev].
  apply elem_of_trace_map_all in Hev as (l & Hl & Hev).
  apply elem_of_trace_map_all in Hev as (dep & Hdep & Hev).
  apply list_elem_of_filter in Hl as [_ Hl].
  apply computeSymlinks_elem in Hl as [Howner Hlinks].
  rewrite Hlinks in Hdep.
  apply list_elem_of_omap in Hdep as (k & Hk & Hlook).
  unfold link_one in Hev.
  destruct (entry_module dep) as [name|] eqn:Hmodule;
    [|by apply elem_of_nil in Hev].
  exists infos, (target l), k, dep, name.
  split; [done|].
  split; [by apply (snapshot_of_module ng host mods infos)|].
  split; [done|]. split; [done|]. split; [done|].
  split; [|split].
  - apply elem_of_trace_bind in Hev as [Hev|(dst & [= <-] & Hev)];
      [by apply elem_of_nil in Hev|].
    apply elem_of_trace_bind in Hev as [Hev|(? & _ & Hev)].
    { rewrite trace_try_catch in Hev. apply elem_of_app in Hev as [Hev|Hev].
      - apply elem_of_trace_bind in Hev as [Hev|(? & _ & Hev)];
          [|by apply elem_of_nil in Hev].
        left. by apply list_elem_of_singleton in Hev.
      - handler_events Hev. by apply list_elem_of_singleton in Hev as ->. }
    apply elem_of_trace_bind in Hev as [Hev|(? & _ & Hev)];
      [|by apply elem_of_nil in Hev].
    rewrite trace_try_catch in Hev. apply elem_of_app in Hev as [Hev|Hev].
    + apply elem_of_trace_bind in Hev as [Hev|(? & _ & Hev)];
        [|by apply elem_of_nil in Hev].
      right. by apply list_elem_of_singleton in Hev.
    + handler_events Hev. by apply list_elem_of_singleton in Hev as ->.
  - intros s ->. apply lookup_snapshot in Hlook.
    apply stored_for_name in Hlook as (_ & Hname & Hin).
    simpl in Hmodule. unfold Spec.name_of in Hname.
    rewrite Hmodule in Hname. simpl in Hname.
    split; [done|]. by apply (snapshot_of_module ng host mods infos).
  - apply nodePath_join_plain.
Qed.

Lemma link_only_links_declared_entries_witness :
  isDryRun [] = false
  ∧ ∃ infos owner k dep name,
      outcome (map_all (getInfo Fixtures.ssh_checkout Samples.link_machine)
                 [["ws"; "app"]; ["ws"; "lib"]]) = Ok infos
      ∧ (path owner ∈ [["ws"; "app"]; ["ws"; "lib"]]
         ∧ outcome (getInfo Fixtures.ssh_checkout Samples.link_machine (path owner))
           = Ok owner)
      ∧ k ∈ declared owner
      ∧ lookup Samples.link_machine (moduleStore infos) k = Some dep
      ∧ entry_module dep = Some name
      ∧ (Remove ["ws"; "app"; "node_modules"; "lib"]
         = Remove (nodePath_join (path owner) ["node_modules"; name])
         ∨ Remove ["ws"; "app"; "node_modules"; "lib"]
           = EnsureSymlink (entry_path dep)
               (nodePath_join (path owner) ["node_modules"; name]))
      ∧ (∀ s, dep = Snapshot s →
              name = k
              ∧ path s ∈ [["ws"; "app"]; ["ws"; "lib"]]
              ∧ outcome (getInfo Fixtures.ssh_checkout Samples.link_machine (path s))
                = Ok s)
      ∧ (Props.plain_segments (path owner) →
         Props.plain_segments (JsString.split "/" name) →
         nodePath_join (path owner) ["node_modules"; name]
         = path owner ++ "node_modules" :: JsString.split "/" name).
Proof.
  apply (link_only_links_declared_entries Fixtures.ssh_checkout
           Samples.link_machine [] [["ws"; "app"]; ["ws"; "lib"]]).
  - apply (list_elem_of_lookup_2 _ 0). vm_compute. reflexivity.
  - reflexivity.
Defined.

Section retry_more.
Context (host : Host).

Lemma pRetry_eq (retries n : nat) (errors : list string) (y : bumped) :
  pRetry host retries n errors y
  = let m := run host "npm" ["publish"; render (path (base y))] n in
    match outcome m with
    | Ok _ => m
    | Throw e =>
        let failed :=
          trace m ++ [BarInterrupt ("publish failed for " +:+ vmodule (base y)
                                    +:+ ", retrying "
                                    +:+ pretty (n - 1)%nat +:+ "/5")] in
        match retries with
        | O => mkEff failed (Throw (retry_error host (errors ++ [e])))
        | S k =>
            let m' := pRetry host k (S n) (errors ++ [e]) y in
            mkEff (failed ++ trace m') (outcome m')
        end
    end.
Proof. by destruct retries. Qed.

Lemma outcome_run (cmd : string) (args : list string) (n : nat) :
  outcome (run host cmd args n) = execa host cmd args n.
Proof. unfold run. by rewrite outcome_bind. Qed.

(** Whatever follows, the first attempt is made. *)
Lemma pRetry_first_attempt (retries n : nat) (errors : list string) (y : bumped) :
  Execa "npm" ["publish"; render (path (base y))]
    ∈ trace (pRetry host retries n errors y).
Proof.
  rewrite pRetry_eq. cbv zeta. rewrite outcome_run.
  destruct (execa host _ _ n).
  - rewrite trace_run. by left.
  - destruct retries; simpl; by left.
Qed.

End retry_more.

Section dist_more.
Context (rb : Rubico) (ng : git.Nodegit) (host : Host).

Lemma commit_bump_outcome (y : bumped) :
  outcome (commit_bump host y) = Ok tt ↔ Props.manifests_written host y.
Proof.
  unfold commit_bump, Props.manifests_written. cbv zeta.
  rewrite outcome_bind.
  destruct (outcome (writePackage host y)) as [[]|e]; [|by split; [|intros []]].
  rewrite outcome_bind.
  destruct (package_lock (base y)) as [lock|].
  - destruct (outcome (writePackageLock host y)) as [[]|e].
    + repeat (first [rewrite outcome_bind | rewrite outcome_try_catch];
              cbn [outcome mret Eff_ret]).
      split; [by split | done].
    + split; [done|]. intros [_ Hlock]. by specialize (Hlock ltac:(by eexists)).
  - cbn [outcome mret Eff_ret].
    repeat (first [rewrite outcome_bind | rewrite outcome_try_catch];
            cbn [outcome mret Eff_ret]).
    split; [|done]. intros _. split; [done|]. by intros [? ?].
Qed.

Lemma bumpVersion_outcome (m : info) (bump : string) (y : bumped) :
  outcome (bumpVersion host m bump false) = Ok y
  ↔ y = put_next_version host m bump false
    ∧ Props.manifests_written host (put_next_version host m bump false).
Proof.
  unfold bumpVersion. cbv zeta. cbn [is_dry_run put_next_version].
  rewrite outcome_bind. rewrite <- commit_bump_outcome.
  destruct (outcome (commit_bump host _)) as [[]|e]; simpl.
  - split; [by intros [= <-] | by intros [-> _]].
  - split; [done | by intros [_ ?]].
Qed.

Lemma bumpVersion_all (x : list info) (bump : string) :
  Forall (fun m => Props.manifests_written host
                     (put_next_version host m bump false)) x →
  outcome (map_all (fun m => bumpVersion host m bump false) x)
  = Ok (map (fun m => put_next_version host m bump false) x).
Proof.
  intros Hall. apply map_all_Ok.
  induction Hall as [|m x Hm _ IH]; constructor; [|done].
  by apply bumpVersion_outcome.
Qed.

Lemma bumpVersion_no_npm (m : info) (bump : string) (dry : bool) :
  Spec.only (fun e => ∀ args, e ≠ Execa "npm" args)
    (bumpVersion host m bump dry).
Proof.
  unfold bumpVersion. cbv zeta. cbn [is_dry_run put_next_version].
  destruct dry; [apply only_mret|].
  apply only_bind; [|intros; apply only_mret].
  unfold commit_bump, writePackage, writePackageLock, run. cbv zeta.
  repeat first
    [ apply only_mret
    | apply only_lift
    | apply only_emit; by intros args
    | apply only_try_catch; [|intros ?; repeat constructor; by intros args]
    | apply only_bind; [|intros ? ?]
    | match goal with |- context [match ?o with Some _ => _ | None => _ end] =>
        destruct o
      end ].
Qed.

Lemma no_npm_elem {A} (m : Eff A) (args : list string) :
  Spec.only (fun e => ∀ args, e ≠ Execa "npm" args) m →
  Execa "npm" args ∉ trace m.
Proof.
  unfold Spec.only. rewrite Forall_forall. intros Honly Hin.
  by apply (Honly _ Hin args).
Qed.

Lemma quiet_no_npm {A} (m : Eff A) :
  Spec.quiet m → Spec.only (fun e => ∀ args, e ≠ Execa "npm" args) m.
Proof.
  unfold Spec.quiet, Spec.only. intros Hquiet.
  eapply Forall_impl; [exact Hquiet|].
  by intros e He args ->.
Qed.

Lemma vmodules_printed (x : list info) (lineStart : string) :
  outcome (neatLogCollection host (map (fun m => Some (vmodule m)) x) lineStart)
  = Ok tt.
Proof.
  rewrite <- (neatLogCollection_completes host (vmodule <$> x) lineStart).
  by rewrite <- list_fmap_compose.
Qed.

End dist_more.

(** X21.  In a real run [dist] publishes after every bump or not at all.
    When the manifest (and the lockfile, where there is one) of every
    selected module was written, [npm publish <path>] is started for every
    selected module, whatever became of the git steps in between (add,
    commit, tag and push of the tag are each caught and reported).  When
    one of these writes failed, no [npm publish] is started for any
    module. *)
Theorem dist_publishes_after_every_bump
    (rb : Rubico) (ng : git.Nodegit) (host : Host) (bump : string)
    (argv : list string) (mods : list filepath) (infos x : list info) :
  isDryRun argv = false →
  outcome (map_all (getInfo ng host) mods) = Ok infos →
  outcome (filter_all (dist_predicate rb ng) infos) = Ok x →
  (Forall (fun m => Props.manifests_written host
                      (put_next_version host m bump false)) x →
   ∀ m, m ∈ x →
        Execa "npm" ["publish"; render (path m)]
          ∈ trace (dist_from rb ng host bump argv mods))
  ∧ (¬ Forall (fun m => Props.manifests_written host
                          (put_next_version host m bump false)) x →
     ∀ args, Execa "npm" args ∉ trace (dist_from rb ng host bump argv mods)).
Proof.
  intros Hdry Hinfos Hx. unfold dist_from. rewrite Hdry.
  rewrite trace_bind, Hinfos, trace_bind, Hx, trace_bind, vmodules_printed.
  rewrite trace_bind. split.
  - intros Hall m Hm. rewrite (bumpVersion_all host x bump Hall).
    rewrite trace_bind, outcome_render_bar, trace_bind.
    rewrite !elem_of_app. do 4 right. right. left.
    apply elem_of_trace_map_all.
    exists (put_next_version host m bump false). split.
    { apply list_elem_of_fmap. by exists m. }
    unfold publish. cbn [is_dry_run put_next_version].
    rewrite trace_bind, trace_try_catch, !elem_of_app. left. left.
    apply (pRetry_first_attempt host 5 1 [] (put_next_version host m bump false)).
  - intros Hnot args.
    destruct (outcome (map_all (fun m => bumpVersion host m bump false) x))
      as [ys|e] eqn:Hys.
    { exfalso. apply Hnot. apply map_all_Ok in Hys.
      apply Forall_forall. intros m Hm.
      destruct (Forall2_elem_of_l _ _ _ _ Hys Hm) as (y & _ & Hy).
      by apply bumpVersion_outcome in Hy as [_ ?]. }
    rewrite app_nil_r, !not_elem_of_app. repeat split; apply no_npm_elem.
    + apply quiet_no_npm, discreet_quiet, getInfo_all_discreet.
    + apply quiet_no_npm, only_filter_all. intros m _.
      apply discreet_quiet, dist_predicate_discreet.
    + apply quiet_no_npm, quiet_neatLogCollection.
    + apply only_map_all. intros m _. apply bumpVersion_no_npm.
Qed.

Lemma dist_publishes_after_every_bump_witness :
  ∃ m, Execa "npm" ["publish"; render (path m)]
         ∈ trace (dist_from Fixtures.lazy_rubico Fixtures.released_checkout
                    Fixtures.release_machine "patch" ["patch"]
                    [["ws"; "fresh"]]).
Proof.
  edestruct (dist_publishes_after_every_bump Fixtures.lazy_rubico
               Fixtures.released_checkout Fixtures.release_machine "patch"
               ["patch"] [["ws"; "fresh"]]) as [Hall _].
  - reflexivity.
  - vm_compute. reflexivity.
  - vm_compute. reflexivity.
  - eexists. apply Hall.
    + repeat constructor.
    + by left.
Defined.

Section status_more.
Context (rb : Rubico) (rs : RubicoStatus) (ng : git.Nodegit) (host : Host).

Lemma status_predicate_trace (x : info) : trace (status_predicate rb rs x) = [].
Proof.
  unfold status_predicate, or_, or_all, any_not_zero, status_not_isEmpty,
    status_isEmpty.
  destruct (ahead_behind x) as [[|[|a] [|b]]|], (status x) as [[|entry entries]|],
    (or_calls_all rs), (any_undefined rs) as [[]|],
    (isEmpty_undefined rb) as [[]|];
    reflexivity.
Qed.

End status_more.

(** X22.  [status] only reads and prints: it changes nothing and starts no
    process.  Whatever it prints besides errors is the line [fmtRepo] makes
    of the snapshot of a discovered module that its predicate selected. *)
Theorem status_only_reports
    (rb : Rubico) (rs : RubicoStatus) (ng : git.Nodegit) (host : Host)
    (mods : list filepath) (ev : event) :
  ev ∈ trace (status_from rb rs ng host mods) →
  (∃ text, ev = Stderr text)
  ∨ ∃ p i,
      p ∈ mods
      ∧ outcome (getInfo ng host p) = Ok i
      ∧ selects (status_predicate rb rs) i
      ∧ ev = Stdout (fmtRepo host i).
Proof.
  intros Hev. unfold status_from in Hev.
  apply elem_of_trace_bind in Hev as [Hev|(infos & Hinfos & Hev)].
  { left. pose proof (getInfo_all_only_stderr ng host mods) as Hst.
    unfold Spec.only in Hst. rewrite Forall_forall in Hst. by apply Hst. }
  apply elem_of_trace_bind in Hev as [Hev|(x & Hx & Hev)].
  { exfalso. unfold filter_all in Hev.
    apply elem_of_trace_bind in Hev as [Hev|(? & _ & Hev)];
      [|by apply elem_of_nil in Hev].
    apply elem_of_trace_map_all in Hev as (m & _ & Hev).
    apply elem_of_trace_bind in Hev as [Hev|(? & _ & Hev)];
      [|by apply elem_of_nil in Hev].
    rewrite status_predicate_trace in Hev. by apply elem_of_nil in Hev. }
  right. apply elem_of_trace_map_all in Hev as (m & Hm & Hev).
  destruct (filter_all_Ok _ _ _ Hx m Hm) as [Hin Hsel].
  destruct (snapshot_of_module ng host mods infos m Hinfos Hin) as [Hp Hsnap].
  exists (path m), m. repeat split; try done.
  by apply list_elem_of_singleton in Hev.
Qed.

Lemma status_only_reports_witness :
  (∃ text,
     Stdout "/ws/cli master...origin/master [ahead 1] " = Stderr text)
  ∨ ∃ p i,
      p ∈ [Fixtures.workspace_module]
      ∧ outcome (getInfo (Fixtures.checkout_with "git@github.com:chimaera-node/cli.git"
                            [] (1, 0))
                   (Fixtures.machine (fun _ => Ok [])) p) = Ok i
      ∧ selects (status_predicate Fixtures.lazy_rubico
                   {| or_calls_all := false; any_undefined := Ok false |}) i
      ∧ Stdout "/ws/cli master...origin/master [ahead 1] "
        = Stdout (fmtRepo (Fixtures.machine (fun _ => Ok [])) i).
Proof.
  apply (status_only_reports Fixtures.lazy_rubico
           {| or_calls_all := false; any_undefined := Ok false |}
           (Fixtures.checkout_with "git@github.com:chimaera-node/cli.git" [] (1, 0))
           (Fixtures.machine (fun _ => Ok [])) [Fixtures.workspace_module]).
  apply (list_elem_of_lookup_2 _ 0). vm_compute. reflexivity.
Defined.

Section install_more.
Context (ng : git.Nodegit) (host : Host).

Lemma named_items (infos : list info) :
  Forall (fun i => is_Some (module i)) infos →
  ∃ items, map module infos = Some <$> items.
Proof.
  induction 1 as [|i infos [name Hname] _ [items Hitems]].
  - by exists [].
  - exists (name :: items). simpl. by rewrite Hname, Hitems.
Qed.

End install_more.

(** X23.  In a real run over modules that all have a name, [install] starts
    [npm i --cache=<path>/.npm -C <path> --no-package-lock] for every
    discovered module and never rejects: an install that fails is reported
    on the progress bar and does not stop the others. *)
Theorem install_installs_every_module
    (ng : git.Nodegit) (host : Host) (argv : list string)
    (mods : list filepath) :
  isDryRun argv = false →
  (∀ p, p ∈ mods →
        ∃ pkg name, getPackage host p = Ok pkg ∧ Package.name pkg = Some name) →
  Spec.completes (install_from ng host argv mods)
  ∧ ∀ p, p ∈ mods →
         Execa "npm" ["i"; "--cache=" +:+ render (path_join p ".npm"); "-C";
                      render p; "--no-package-lock"]
           ∈ trace (install_from ng host argv mods).
Proof.
  intros Hdry Hnamed.
  destruct (getInfo_all_outcome ng host mods) as (infos & Hinfos & Hall).
  assert (Forall (fun i => is_Some (module i)) infos) as Hnames.
  { apply Forall_forall. intros i Hi.
    destruct (Forall2_elem_of_r _ _ _ _ Hall Hi) as (p & Hp & Hpi).
    destruct (Hnamed p Hp) as (pkg & name & Hpkg & Hname).
    rewrite getInfo_outcome in Hpi. injection Hpi as <-. simpl.
    rewrite Hpkg. simpl. by rewrite Hname. }
  destruct (named_items infos Hnames) as [items Hitems].
  unfold install_from. rewrite Hdry. split.
  - unfold Spec.completes.
    rewrite outcome_bind, Hinfos, outcome_bind, Hitems.
    rewrite neatLogCollection_completes, outcome_bind, outcome_render_bar.
    apply map_all_completes. intros m _. unfold Spec.completes.
    rewrite !outcome_bind, outcome_try_catch. by eexists.
  - intros p Hp.
    destruct (Forall2_elem_of_l _ _ _ _ Hall Hp) as (x & Hx & Hpx).
    assert (path x = p) as Hxp.
    { rewrite getInfo_outcome in Hpx. by injection Hpx as <-. }
    rewrite trace_bind, Hinfos, trace_bind, Hitems.
    rewrite neatLogCollection_completes, trace_bind, outcome_render_bar.
    rewrite !elem_of_app. do 3 right.
    apply elem_of_trace_map_all. exists x. split; [done|].
    rewrite !trace_bind, trace_try_catch, trace_run, Hxp.
    rewrite !elem_of_app. left. left. left. by left.
Qed.

Lemma install_installs_every_module_witness :
  Spec.completes (install_from Fixtures.ssh_checkout Samples.link_machine []
                    [["ws"; "app"]; ["ws"; "lib"]])
  ∧ ∀ p, p ∈ [["ws"; "app"]; ["ws"; "lib"]] →
         Execa "npm" ["i"; "--cache=" +:+ render (path_join p ".npm"); "-C";
                      render p; "--no-package-lock"]
           ∈ trace (install_from Fixtures.ssh_checkout Samples.link_machine []
                      [["ws"; "app"]; ["ws"; "lib"]]).
Proof.
  apply (install_installs_every_module Fixtures.ssh_checkout
           Samples.link_machine [] [["ws"; "app"]; ["ws"; "lib"]]).
  - reflexivity.
  - intros p [->|[->|Hp]%elem_of_cons]%elem_of_cons.
    + by eexists _, _.
    + by eexists _, _.
    + by apply elem_of_nil in Hp.
Defined.
